(** * Graphsidian: descriptor parser, relationship index and graph model

    A shallow embedding of the TypeScript sources
    - [parser.ts] (the double-delimiter grammar [<<descriptor>>[[target]]]
      and its single-delimiter sibling),
    - [relationship-index.ts],
    - the model-building part of [graph-renderer.ts] ([GraphRenderer.update]),
    together with the properties of the written specification.

    Strings are sequences of code units; the embedding uses Rocq strings,
    i.e. code units below 256.  Numbers that only ever hold line numbers and
    counters are [nat]. *)

From Stdlib Require Import Ascii String DecimalString DecimalNat Decimal.
From Stdlib Require Import ZArith Lia Permutation Sorted.
From Stdlib Require QArith.QArith_base.
From stdpp Require Import base option list strings gmap.

(** ** The JavaScript string primitives used by the sources *)

Module JS.

Definition code (c : ascii) : nat := nat_of_ascii c.

(** [WhiteSpace] and [LineTerminator] code units: the set removed by
    [String.prototype.trim] and matched by the regular expression class
    [\s] (tab, LF, VT, FF, CR, space, NBSP). *)
Definition isWhiteSpace (c : ascii) : bool :=
  match code c with
  | 9 | 10 | 11 | 12 | 13 | 32 | 160 => true
  | _ => false
  end.

(** Line terminators: the code units the regular expression [.] refuses. *)
Definition isLineTerminator (c : ascii) : bool :=
  match code c with
  | 10 | 13 => true
  | _ => false
  end.

(** [/[a-zA-Z0-9]/] *)
Definition isAlnum (c : ascii) : bool :=
  let n := code c in
  ((97 <=? n) && (n <=? 122)) || ((65 <=? n) && (n <=? 90))
  || ((48 <=? n) && (n <=? 57)).

Fixpoint trimStart (s : string) : string :=
  match s with
  | String c s' => if isWhiteSpace c then trimStart s' else s
  | EmptyString => EmptyString
  end.

Definition trimEnd (s : string) : string :=
  String.rev (trimStart (String.rev s)).

Definition trim (s : string) : string := trimEnd (trimStart s).

Definition startsWith (s p : string) : bool := String.prefix p s.

Definition endsWith (s p : string) : bool :=
  String.prefix (String.rev p) (String.rev s).

(** [s.slice(b, e)]: negative positions count from the end, both ends are
    clamped to the string. *)
Definition clampIndex (len : nat) (i : Z) : nat :=
  if (i <? 0)%Z then Z.to_nat (Z.max (Z.of_nat len + i) 0)
  else Nat.min (Z.to_nat i) len.

Definition slice (s : string) (b e : Z) : string :=
  let len := String.length s in
  let from := clampIndex len b in
  let to := clampIndex len e in
  String.substring from (to - from) s.

(** [s.slice(b)] *)
Definition sliceFrom (s : string) (b : Z) : string :=
  slice s b (Z.of_nat (String.length s)).

(** [s.split('\n')] *)
Fixpoint splitLines (s : string) : list string :=
  match s with
  | EmptyString => [EmptyString]
  | String c s' =>
      if Ascii.eqb c "010"%char then EmptyString :: splitLines s'
      else match splitLines s' with
           | l :: ls => String c l :: ls
           | [] => [String c EmptyString]
           end
  end.

(** [String(n)] for a non-negative integer. *)
Definition numberToString (n : nat) : string :=
  NilEmpty.string_of_uint (Nat.to_uint n).

(** [s.indexOf(p)] *)
Fixpoint indexOf (s p : string) : option nat :=
  if String.prefix p s then Some 0
  else match s with
       | String _ s' => S <$> indexOf s' p
       | EmptyString => None
       end.

(** [GetSubstitution] of ECMAScript for a string pattern (no capture
    groups): [$$] is a dollar sign, [$&] the matched text, [$`] the text
    before the match, [$'] the text after it; any other [$] stands for
    itself. *)
Fixpoint getSubstitution (matched before after template : string) : string :=
  match template with
  | EmptyString => EmptyString
  | String c rest =>
      if Ascii.eqb c "$"%char then
        match rest with
        | String d rest' =>
            if Ascii.eqb d "$"%char then
              String "$"%char (getSubstitution matched before after rest')
            else if Ascii.eqb d "&"%char then
              matched +:+ getSubstitution matched before after rest'
            else if Ascii.eqb d "`"%char then
              before +:+ getSubstitution matched before after rest'
            else if Ascii.eqb d "'"%char then
              after +:+ getSubstitution matched before after rest'
            else String c (getSubstitution matched before after rest)
        | EmptyString => String c EmptyString
        end
      else String c (getSubstitution matched before after rest)
  end.

(** [s.replace(pattern, replacement)] with a string pattern: only the
    first occurrence is replaced. *)
Definition replace (s pattern replacement : string) : string :=
  match indexOf s pattern with
  | None => s
  | Some i =>
      let before := String.substring 0 i s in
      let after :=
        String.substring (i + String.length pattern)
          (String.length s - (i + String.length pattern)) s in
      before +:+ getSubstitution pattern before after replacement +:+ after
  end.

(** [s.toLowerCase()] *)
Definition toLowerChar (c : ascii) : ascii :=
  let n := code c in
  if ((65 <=? n) && (n <=? 90))
     || ((192 <=? n) && (n <=? 222) && negb (n =? 215))
  then ascii_of_nat (n + 32) else c.

Fixpoint toLowerCase (s : string) : string :=
  match s with
  | EmptyString => EmptyString
  | String c s' => String (toLowerChar c) (toLowerCase s')
  end.

(** [s.includes(p)] *)
Definition includes (s p : string) : bool :=
  match indexOf s p with Some _ => true | None => false end.

(** [[a, b].sort()]: the default comparison orders strings by code
    units. *)
Definition sortPair (a b : string) : string * string :=
  if String.ltb b a then (b, a) else (a, b).

End JS.

(** ** A backtracking matcher for the regular expressions of the sources

    The patterns of the sources are sequences of literals, single
    character classes, greedy and lazy stars over a character class, and
    capture groups.  The matcher tries the alternatives in the order of a
    backtracking engine: a greedy star first takes as much as it can, a
    lazy star as little as it can. *)

Module Regex.

Inductive token : Type :=
| Lit (s : string)                (* literal text *)
| Class (p : ascii -> bool)       (* one character of a class *)
| StarGreedy (p : ascii -> bool)  (* [p*]  *)
| StarLazy (p : ascii -> bool)    (* [p*?] *)
| Mark.                           (* a parenthesis: remember the position *)

Definition regex := list token.

Fixpoint stripPrefix (p s : string) : option string :=
  match p, s with
  | EmptyString, _ => Some s
  | String a p', String b s' =>
      if Ascii.eqb a b then stripPrefix p' s' else None
  | String _ _, EmptyString => None
  end.

Section Stars.
Context {R : Type} (p : ascii -> bool) (k : string -> nat -> option R).

Fixpoint starLazy (s : string) (pos : nat) : option R :=
  match k s pos with
  | Some r => Some r
  | None =>
      match s with
      | String c s' => if p c then starLazy s' (S pos) else None
      | EmptyString => None
      end
  end.

Fixpoint starGreedy (s : string) (pos : nat) : option R :=
  match s with
  | String c s' =>
      if p c then
        match starGreedy s' (S pos) with
        | Some r => Some r
        | None => k s pos
        end
      else k s pos
  | EmptyString => k s pos
  end.
End Stars.

(** [matchHere r marks s pos]: match [r] against [s], the suffix of the
    subject that starts at offset [pos]; the result is the end offset and
    the offsets remembered at the marks. *)
Fixpoint matchHere (r : regex) (marks : list nat) (s : string) (pos : nat)
  : option (nat * list nat) :=
  match r with
  | [] => Some (pos, marks)
  | Lit l :: r' =>
      match stripPrefix l s with
      | Some s' => matchHere r' marks s' (pos + String.length l)
      | None => None
      end
  | Class p :: r' =>
      match s with
      | String c s' => if p c then matchHere r' marks s' (S pos) else None
      | EmptyString => None
      end
  | StarGreedy p :: r' => starGreedy p (matchHere r' marks) s pos
  | StarLazy p :: r' => starLazy p (matchHere r' marks) s pos
  | Mark :: r' => matchHere r' (marks ++ [pos]) s pos
  end.

(** The match object of [RegExp.prototype.exec] for a pattern with two
    groups. *)
Record RegExpMatch : Type := mkMatch {
  index : nat;       (* match.index *)
  lastIndex : nat;   (* where the next search resumes *)
  group1 : string;   (* match[1] *)
  group2 : string    (* match[2] *)
}.

Definition between (content : string) (a b : nat) : string :=
  String.substring a (b - a) content.

Definition mkGroups (content : string) (start : nat) (res : nat * list nat)
  : RegExpMatch :=
  let '(e, marks) := res in
  {| index := start; lastIndex := e;
     group1 := between content (marks !!! 0) (marks !!! 1);
     group2 := between content (marks !!! 2) (marks !!! 3) |}.

(** [re.exec(content)] for a global pattern whose [lastIndex] is [i]: the
    leftmost match at or after offset [i], or [null]. *)
Fixpoint skipChars (n : nat) (s : string) : string :=
  match n, s with
  | S n', String _ s' => skipChars n' s'
  | _, _ => s
  end.

Fixpoint search (r : regex) (content s : string) (pos : nat)
  : option RegExpMatch :=
  match matchHere r [] s pos with
  | Some res => Some (mkGroups content pos res)
  | None =>
      match s with
      | String _ s' => search r content s' (S pos)
      | EmptyString => None
      end
  end.

Definition exec (r : regex) (content : string) (i : nat) : option RegExpMatch :=
  if i <=? String.length content then search r content (skipChars i content) i
  else None.

(** [while ((match = re.exec(content)) !== null)]: the matches the loop
    sees, each search resuming where the last match ended.  [fuel] bounds
    the number of turns. *)
Fixpoint execLoop (fuel : nat) (r : regex) (content : string) (i : nat)
  : list RegExpMatch :=
  match fuel with
  | 0 => []
  | S fuel' =>
      match exec r content i with
      | Some m => m :: execLoop fuel' r content (lastIndex m)
      | None => []
      end
  end.

(** All matches of the text.  A pattern that matches no empty text moves
    [lastIndex] forward at every turn, so that one turn more than the text
    has characters is enough (lemma [execLoop_execAll]). *)
Definition execAll (r : regex) (content : string) : list RegExpMatch :=
  execLoop (S (String.length content)) r content 0.

(** The same matches in one pass over the text: [s] is the suffix of
    [content] at [pos]; [skip] counts the characters of the last match that
    are still to be stepped over. *)
Fixpoint scan (r : regex) (content s : string) (pos skip : nat)
  : list RegExpMatch :=
  match skip with
  | S skip' =>
      match s with
      | String _ s' => scan r content s' (S pos) skip'
      | EmptyString => []
      end
  | 0 =>
      match matchHere r [] s pos with
      | Some res =>
          mkGroups content pos res ::
            match s with
            | String _ s' => scan r content s' (S pos) (fst res - pos - 1)
            | EmptyString => []
            end
      | None =>
          match s with
          | String _ s' => scan r content s' (S pos) 0
          | EmptyString => []
          end
      end
  end.

End Regex.


(** ** The data model ([types.ts]) *)

Inductive Direction : Type :=
| outgoing
| incoming
| undirected
| bidirectional.

Record Relationship : Type := mkRelationship {
  id : string;
  sourceFile : string;
  targetFile : string;
  direction : Direction;
  label : option string;   (* [null] is [None] *)
  line : nat
}.

#[global] Instance Direction_eq_dec : EqDecision Direction.
Proof. solve_decision. Defined.

#[global] Instance Relationship_eq_dec : EqDecision Relationship.
Proof. solve_decision. Defined.

(** ** The scanning loop shared by both parsers

    The two versions of [parser.ts] differ in the regular expression and in
    [parseDescriptor]; the body of [parseRelationships] is the same text in
    both files. *)

Module ParseLoop.

Import JS Regex.

Definition generateId (sourceFile : string) (line index : nat) : string :=
  sourceFile +:+ ":" +:+ numberToString line +:+ ":" +:+ numberToString index.

(** The inner [for] loop of [parseRelationships]: the 1-indexed line that
    holds offset [matchPos]. *)
Fixpoint lineLoop (lines : list string) (i charCount matchPos : nat) : nat :=
  match lines with
  | [] => 1
  | l :: rest =>
      let charCount' := charCount + String.length l + 1 in
      if matchPos <? charCount' then i + 1
      else lineLoop rest (S i) charCount' matchPos
  end.

Definition lineNumberOf (lines : list string) (matchPos : nat) : nat :=
  lineLoop lines 0 0 matchPos.

Section Loop.

Variable RELATIONSHIP_REGEX : regex.
Variable parseDescriptor : string -> option (Direction * option string).

(** One turn of the [while] loop; the state is the array [relationships]
    and the counter [matchIndex]. *)
Definition step (sourceFile : string) (lines : list string)
    (st : list Relationship * nat) (m : RegExpMatch)
  : list Relationship * nat :=
  let '(relationships, matchIndex) := st in
  let descriptor := group1 m in
  let targetRaw := group2 m in
  let lineNumber := lineNumberOf lines (index m) in
  let target := trim targetRaw in
  if String.length target =? 0 then (relationships, S matchIndex)
  else
    match parseDescriptor descriptor with
    | None => (relationships, S matchIndex)
    | Some (dir, lbl) =>
        (relationships ++
           [ {| id := generateId sourceFile lineNumber matchIndex;
                sourceFile := sourceFile;
                targetFile := target;
                direction := dir;
                label := lbl;
                line := lineNumber |} ],
         S matchIndex)
    end.

Definition processMatches (sourceFile : string) (lines : list string)
    (ms : list RegExpMatch) : list Relationship * nat :=
  foldl (step sourceFile lines) ([], 0) ms.

Definition parseRelationships (content sourceFile : string)
  : list Relationship :=
  let lines := splitLines content in
  fst (processMatches sourceFile lines (execAll RELATIONSHIP_REGEX content)).

End Loop.

End ParseLoop.

(** ** The descriptor parser ([parser.ts], double-delimiter grammar) *)

Module Parser.

Import JS Regex.

Definition notGt (c : ascii) : bool := negb (Ascii.eqb c ">"%char).
Definition dot (c : ascii) : bool := negb (isLineTerminator c).

(** [/<<([^>]*?)>>\[\[\s*(.*?)\s*\]\]/g] *)
Definition RELATIONSHIP_REGEX : regex :=
  [ Lit "<<"; Mark; StarLazy notGt; Mark; Lit ">>"; Lit "[[";
    StarGreedy isWhiteSpace; Mark; StarLazy dot; Mark;
    StarGreedy isWhiteSpace; Lit "]]" ].

Definition generateId := ParseLoop.generateId.

(** [/^-+$/.test(d)] *)
Fixpoint allDashes (d : string) : bool :=
  match d with
  | EmptyString => true
  | String c d' => Ascii.eqb c "-"%char && allDashes d'
  end.

Definition onlyDashes (d : string) : bool :=
  negb (String.eqb d "") && allDashes d.

(** [/^[-+]+$/.test(d)] *)
Fixpoint allDashPlus (d : string) : bool :=
  match d with
  | EmptyString => true
  | String c d' =>
      (Ascii.eqb c "-"%char || Ascii.eqb c "+"%char) && allDashPlus d'
  end.

Definition onlyDashPlus (d : string) : bool :=
  negb (String.eqb d "") && allDashPlus d.

(** [/[a-zA-Z0-9]/.test(d)] *)
Fixpoint hasAlnum (d : string) : bool :=
  match d with
  | EmptyString => false
  | String c d' => isAlnum c || hasAlnum d'
  end.

Definition parseDescriptor (descriptor : string)
  : option (Direction * option string) :=
  let d := trim descriptor in
  if String.length d =? 0 then None
  else if String.eqb d "-+" then Some (outgoing, None)
  else if String.eqb d "+-" then Some (incoming, None)
  else if String.eqb d "++" then Some (bidirectional, None)
  else if onlyDashPlus d
          && negb (String.eqb d "-+") && negb (String.eqb d "+-")
          && negb (String.eqb d "++")
          && onlyDashes d
  then None
  else if startsWith d "+" && endsWith d "+" && (2 <? String.length d) then
    let label := trim (slice d 1 (-1)) in
    if String.length label =? 0 then None
    else Some (bidirectional, Some label)
  else if startsWith d "+" && negb (endsWith d "+") then
    let label := trim (sliceFrom d 1) in
    if String.length label =? 0 then None
    else Some (incoming, Some label)
  else if endsWith d "+" && negb (startsWith d "+") then
    let label := trim (slice d 0 (-1)) in
    if String.length label =? 0 then None
    else Some (outgoing, Some label)
  else if hasAlnum d then Some (undirected, Some d)
  else None.

Definition parseRelationships (content sourceFile : string)
  : list Relationship :=
  ParseLoop.parseRelationships RELATIONSHIP_REGEX parseDescriptor
    content sourceFile.

End Parser.

(** ** The single-delimiter version of [parser.ts]
    ([<descriptor>[[target]]], the form of the README and of the tests) *)

Module SingleDelimiter.

Import JS Regex.

Definition plusOrDash (c : ascii) : bool :=
  Ascii.eqb c "+"%char || Ascii.eqb c "-"%char.

(** [/<([+\-][^>]*?[+\-])>\s*\[\[\s*(.*?)\s*\]\]/g] *)
Definition RELATIONSHIP_REGEX : regex :=
  [ Lit "<"; Mark; Class plusOrDash; StarLazy Parser.notGt; Class plusOrDash;
    Mark; Lit ">"; StarGreedy isWhiteSpace; Lit "[[";
    StarGreedy isWhiteSpace; Mark; StarLazy Parser.dot; Mark;
    StarGreedy isWhiteSpace; Lit "]]" ].

(** [d[i]] *)
Definition charAt (d : string) (i : nat) : option ascii := String.get i d.

Definition parseDescriptor (descriptor : string)
  : option (Direction * option string) :=
  let d := trim descriptor in
  if String.length d <? 2 then None
  else
    let first := charAt d 0 in
    let last := charAt d (String.length d - 1) in
    let eqc c o := bool_decide (o = Some c) in
    if (negb (eqc "-"%char first) && negb (eqc "+"%char first))
       || (negb (eqc "-"%char last) && negb (eqc "+"%char last))
    then None
    else
      let dir :=
        if eqc "-"%char first && eqc "+"%char last then outgoing
        else if eqc "+"%char first && eqc "-"%char last then incoming
        else if eqc "+"%char first && eqc "+"%char last then bidirectional
        else undirected in
      let labelText :=
        if 2 <? String.length d then Some (trim (slice d 1 (-1))) else None in
      let lbl :=
        match labelText with
        | Some t => if 0 <? String.length t then Some t else None
        | None => None
        end in
      Some (dir, lbl).

Definition parseRelationships (content sourceFile : string)
  : list Relationship :=
  ParseLoop.parseRelationships RELATIONSHIP_REGEX parseDescriptor
    content sourceFile.

End SingleDelimiter.

(** ** A JavaScript [Map] with string keys

    A [Map] iterates in insertion order: [set] on a present key keeps the
    key where it is, [set] on an absent key appends, [delete] removes. *)

Module JSMap.

Abbreviation t V := (list (string * V)).

Section Ops.
Context {V : Type}.

Fixpoint get (m : t V) (k : string) : option V :=
  match m with
  | [] => None
  | (k', v) :: m' => if String.eqb k' k then Some v else get m' k
  end.

Fixpoint set (m : t V) (k : string) (v : V) : t V :=
  match m with
  | [] => [(k, v)]
  | (k', v') :: m' =>
      if String.eqb k' k then (k, v) :: m' else (k', v') :: set m' k v
  end.

Fixpoint delete (m : t V) (k : string) : t V :=
  match m with
  | [] => []
  | (k', v') :: m' =>
      if String.eqb k' k then delete m' k else (k', v') :: delete m' k
  end.

Definition keys (m : t V) : list string := m.*1.

Definition values (m : t V) : list V := m.*2.

(** A [Map] never holds a key twice. *)
Definition wf (m : t V) : Prop := NoDup (keys m).

End Ops.

End JSMap.

(** A JavaScript [Set] of strings, in insertion order. *)

Module JSSet.

Definition t := list string.

Definition has (s : t) (x : string) : bool := bool_decide (x ∈ s).

Definition add (s : t) (x : string) : t := if has s x then s else s ++ [x].

End JSSet.

(** ** The relationship index ([relationship-index.ts]) *)

Module RelationshipIndex.

Import JS.

(** The private field [relationships]. *)
Abbreviation state := (JSMap.t (list Relationship)).

Definition empty : state := [].

(** [filename.replace(/\.md$/, '')] *)
Definition stripExtension (filename : string) : string :=
  if endsWith filename ".md"
  then String.substring 0 (String.length filename - 3) filename
  else filename.

(** The index imports [parseRelationships] from [./parser]; the parser is
    a parameter here, [parse], since both versions of [parser.ts] export
    that name.  The properties below take the double-delimiter parser. *)
Definition reindexFile (parse : string -> string -> list Relationship)
    (st : state) (filename content : string) : state :=
  let sourceKey := stripExtension filename in
  let parsed := parse content sourceKey in
  JSMap.set st sourceKey parsed.

Definition removeFile (st : state) (filename : string) : state :=
  let sourceKey := stripExtension filename in
  JSMap.delete st sourceKey.

(** [{ ...r, sourceFile: newKey, id: r.id.replace(oldKey, newKey) }] *)
Definition moveSource (oldKey newKey : string) (r : Relationship)
  : Relationship :=
  {| id := replace (id r) oldKey newKey;
     sourceFile := newKey;
     targetFile := targetFile r;
     direction := direction r;
     label := label r;
     line := line r |}.

(** The callback of the second [map] of [renameFile]. *)
Definition retarget (oldKey newKey : string) (r : Relationship)
  : Relationship :=
  if String.eqb (targetFile r) oldKey then
    {| id := id r;
       sourceFile := sourceFile r;
       targetFile := newKey;
       direction := direction r;
       label := label r;
       line := line r |}
  else r.

(** The body of the loop over all entries of [renameFile]. *)
Definition retargetEntry (oldKey newKey : string)
    (entry : string * list Relationship) : string * list Relationship :=
  let '(key, fileRels) := entry in
  (key, retarget oldKey newKey <$> fileRels).

Definition renameFile (st : state) (oldName newName : string) : state :=
  let oldKey := stripExtension oldName in
  let newKey := stripExtension newName in
  (* Update source-keyed entry *)
  let st1 : list (string * list Relationship) :=
    match JSMap.get st oldKey with
    | Some rels =>
        let updated := moveSource oldKey newKey <$> (rels : list Relationship) in
        JSMap.set (JSMap.delete st oldKey) newKey updated
    | None => st
    end in
  (* Update target references across all files *)
  retargetEntry oldKey newKey <$> st1.

Definition getAllRelationships (st : state) : list Relationship :=
  mjoin (JSMap.values st).

Definition getRelationshipsForFile (st : state) (filename : string)
  : list Relationship :=
  let key := stripExtension filename in
  default [] (JSMap.get st key).

(** [fullScan]: the vault is the list of its markdown files, each with its
    [basename] and its text. *)
Definition fullScan (parse : string -> string -> list Relationship)
    (vault : list (string * string)) : state :=
  foldl (fun st '(basename, content) => reindexFile parse st basename content)
    empty vault.

Definition getAllNodes (st : state) : list string :=
  foldl (fun nodes r => JSSet.add (JSSet.add nodes (sourceFile r)) (targetFile r))
    [] (getAllRelationships st).

End RelationshipIndex.

(** ** The graph model ([graph-renderer.ts], [GraphRenderer.update])

    Coordinates are JavaScript numbers.  Their arithmetic is kept abstract:
    [update] only copies them or builds the seed expression. *)

Class JSNumber (num : Type) : Type := {
  nadd : num -> num -> num;
  nsub : num -> num -> num;
  nmul : num -> num -> num;
  ndiv : num -> num -> num;
  n2 : num;        (* 2 *)
  n0_5 : num;      (* 0.5 *)
  n100 : num       (* 100 *)
}.

Module GraphRenderer.

Import JS.

Section Renderer.

Context {num : Type} `{JSNumber num}.

Record GraphNode : Type := mkNode {
  id : string;
  isGhost : bool;
  x : option num;     (* [undefined] is [None] *)
  y : option num;
  vx : option num;
  vy : option num
}.

Record GraphLink : Type := mkLink {
  source : string;
  target : string;
  relationship : Relationship;
  curveOffset : nat
}.

(** The fields of the renderer that [update] reads or writes. *)
Record state : Type := mkState {
  labelFilter : string;          (* [settings.labelFilter] *)
  existingFiles : gset string;
  nodes : list GraphNode;
  links : list GraphLink;
  width : num;
  height : num
}.

(** Filter by label if set *)
Definition filterByLabel (labelFilter : string) (relationships : list Relationship)
  : list Relationship :=
  if negb (String.eqb (trim labelFilter) "") then
    let filter := toLowerCase (trim labelFilter) in
    List.filter
      (fun r =>
         match label r with
         | Some l => negb (String.eqb l "") && includes (toLowerCase l) filter
         | None => false
         end)
      relationships
  else relationships.

(** Build nodes: the [Set] of names. *)
Definition buildNodeSet (nodeNames : list string) (filtered : list Relationship)
  : JSSet.t :=
  foldl (fun s r => JSSet.add (JSSet.add s (sourceFile r)) (targetFile r))
    (foldl JSSet.add [] nodeNames) filtered.

(** Preserve positions of existing nodes: [oldNodeMap]. *)
Definition buildOldNodeMap (ns : list GraphNode) : gmap string GraphNode :=
  foldl (fun m n => <[id n := n]> m) ∅ ns.

(** [dim / 2 + (Math.random() - 0.5) * 100] *)
Definition seed (dim r : num) : num :=
  nadd (ndiv dim n2) (nmul (nsub r n0_5) n100).

(** [a ?? b], where evaluating [b] takes the next value of [Math.random];
    [random] lists the values [Math.random] returns, [n] counts the calls
    made so far. *)
Definition orSeed (random : nat -> num) (a : option num) (dim : num) (n : nat)
  : num * nat :=
  match a with
  | Some v => (v, n)
  | None => (seed dim (random n), S n)
  end.

(** The callback of [Array.from(nodeSet).map]. *)
Definition makeNode (st : state) (random : nat -> num)
    (oldNodeMap : gmap string GraphNode)
    (acc : list GraphNode * nat) (name : string) : list GraphNode * nat :=
  let '(out, n) := acc in
  let existing := oldNodeMap !! name in
  let '(x', n1) := orSeed random (existing ≫= x) (width st) n in
  let '(y', n2) := orSeed random (existing ≫= y) (height st) n1 in
  (out ++ [ {| id := name;
               isGhost := negb (bool_decide (name ∈ existingFiles st));
               x := Some x';
               y := Some y';
               vx := existing ≫= vx;
               vy := existing ≫= vy |} ],
   n2).

Definition buildNodes (st : state) (random : nat -> num) (names : list string)
  : list GraphNode :=
  fst (foldl (makeNode st random (buildOldNodeMap (nodes st))) ([], 0) names).

(** [[r.sourceFile, r.targetFile].sort().join('--')] *)
Definition edgeKey (r : Relationship) : string :=
  let '(a, b) := sortPair (sourceFile r) (targetFile r) in
  a +:+ "--" +:+ b.

(** Build links with curve offsets for parallel edges; [edgeCounts] is the
    [Map] of the counters. *)
Fixpoint buildLinks (edgeCounts : gmap string nat) (filtered : list Relationship)
  : list GraphLink :=
  match filtered with
  | [] => []
  | r :: rest =>
      let key := edgeKey r in
      let count := default 0 (edgeCounts !! key) in
      {| source := sourceFile r;
         target := targetFile r;
         relationship := r;
         curveOffset := count * 30 |}
      :: buildLinks (<[key := count + 1]> edgeCounts) rest
  end.

(** [update(nodeNames, relationships)], up to the call of [render]. *)
Definition update (st : state) (random : nat -> num)
    (nodeNames : list string) (relationships : list Relationship) : state :=
  let filtered := filterByLabel (labelFilter st) relationships in
  let nodeSet := buildNodeSet nodeNames filtered in
  {| labelFilter := labelFilter st;
     existingFiles := existingFiles st;
     nodes := buildNodes st random nodeSet;
     links := buildLinks ∅ filtered;
     width := width st;
     height := height st |}.

End Renderer.

Arguments GraphNode : clear implicits.
Arguments state : clear implicits.

End GraphRenderer.

(** ** Further JavaScript primitives *)

Module JSMore.

(** [s.split(sep)] for a one-character separator. *)
Fixpoint splitOn (sep : ascii) (s : string) : list string :=
  match s with
  | EmptyString => [EmptyString]
  | String c s' =>
      if Ascii.eqb c sep then EmptyString :: splitOn sep s'
      else match splitOn sep s' with
           | l :: ls => String c l :: ls
           | [] => [String c EmptyString]
           end
  end.

(** [a.pop()] on a fresh array: its last element, [undefined] when the
    array is empty. *)
Definition pop (a : list string) : option string := last a.

(** [x || ''] for a string or [undefined]. *)
Definition orEmpty (x : option string) : string :=
  match x with
  | Some s => s
  | None => ""
  end.

(** [match[0]]: the matched text. *)
Definition match0 (content : string) (m : Regex.RegExpMatch) : string :=
  Regex.between content (Regex.index m) (Regex.lastIndex m).

End JSMore.

(** ** Edge styling ([graph-renderer.ts]: [createMarkers], [getEdgeColor],
    [getMarkerEnd], [getMarkerStart]) *)

Module GraphStyle.

(** The settings the styling reads. *)
Record settings : Type := mkSettings {
  showArrows : bool;
  outgoingColor : string;
  incomingColor : string;
  undirectedColor : string;
  bidirectionalColor : string
}.

(** An SVG [marker] element with its [path]. *)
Record marker : Type := mkMarker {
  marker_id : string;
  refX : Z;
  path_d : string;
  fill : string
}.

Definition createMarkers (s : settings) : list marker :=
  let directions :=
    [ ("arrow-outgoing", outgoingColor s);
      ("arrow-incoming", incomingColor s);
      ("arrow-bidirectional", bidirectionalColor s) ] in
  mjoin
    ((fun '(id, color) =>
        [ {| marker_id := id; refX := 20;
             path_d := "M0,-5L10,0L0,5"; fill := color |};
          (* Reverse marker for bidirectional start *)
          {| marker_id := id +:+ "-reverse"; refX := -10;
             path_d := "M10,-5L0,0L10,5"; fill := color |} ])
       <$> directions).

Definition getEdgeColor (s : settings) (r : Relationship) : string :=
  match direction r with
  | outgoing => outgoingColor s
  | incoming => incomingColor s
  | bidirectional => bidirectionalColor s
  | undirected => undirectedColor s
  end.

Definition getMarkerEnd (s : settings) (r : Relationship) : string :=
  if negb (showArrows s) then ""
  else
    match direction r with
    | outgoing => "url(#arrow-outgoing)"
    | incoming => ""
    | bidirectional => "url(#arrow-bidirectional)"
    | undirected => ""
    end.

Definition getMarkerStart (s : settings) (r : Relationship) : string :=
  if negb (showArrows s) then ""
  else
    match direction r with
    | incoming => "url(#arrow-incoming-reverse)"
    | bidirectional => "url(#arrow-bidirectional-reverse)"
    | _ => ""
    end.

End GraphStyle.

(** ** Re-rendering ([graph-renderer.ts]: [updateSettings],
    [updateExistingFiles]; [graph-view.ts]: [refresh]; [main.ts]:
    [refreshGraphView]) *)

Module Rerender.

Import GraphRenderer.

Section Rerender.

Context {num : Type} `{JSNumber num}.

Definition withLabelFilter (st : state num) (labelFilter' : string) : state num :=
  {| labelFilter := labelFilter';
     existingFiles := existingFiles st;
     nodes := nodes st;
     links := links st;
     width := width st;
     height := height st |}.

(** [updateSettings(settings)], as far as the graph model goes: the new
    settings are stored and the graph is rebuilt from the current nodes and
    links. *)
Definition updateSettings (st : state num) (random : nat -> num)
    (labelFilter' : string) : state num :=
  let st0 := withLabelFilter st labelFilter' in
  let nodeNames := id <$> nodes st0 in
  let relationships := relationship <$> links st0 in
  update st0 random nodeNames relationships.

Definition updateExistingFiles (st : state num) (files : gset string)
  : state num :=
  {| labelFilter := labelFilter st;
     existingFiles := files;
     nodes := nodes st;
     links := links st;
     width := width st;
     height := height st |}.

(** [DirectedGraphView.refresh] on an open view. *)
Definition refresh (st : state num) (random : nat -> num)
    (index : RelationshipIndex.state) : state num :=
  let relationships := RelationshipIndex.getAllRelationships index in
  let nodes := RelationshipIndex.getAllNodes index in
  update st random nodes relationships.

(** The body of the loop of [refreshGraphView] for one open view;
    [random1] and [random2] are the values [Math.random] returns during the
    first and the second rebuild, [files] is the plugin's set of existing
    files.  (The plugin hands over its own [Set] object, so that the first
    rebuild may already see [files]; the ghost flags it computes are
    computed again by the second rebuild, from [files].) *)
Definition refreshGraphView (st : state num) (random1 random2 : nat -> num)
    (labelFilter' : string) (files : gset string)
    (index : RelationshipIndex.state) : state num :=
  refresh (updateExistingFiles (updateSettings st random1 labelFilter') files)
    random2 index.

End Rerender.

End Rerender.

(** ** The editor overlay ([editor-extension.ts], single-delimiter form)

    The arrow glyphs are single code units above 255 in the source; here
    they are the texts of their UTF-8 bytes.  Only their being empty or not
    is ever tested. *)

Module EditorExtension.

Import JS Regex.

Definition RELATIONSHIP_REGEX : regex := SingleDelimiter.RELATIONSHIP_REGEX.

Definition getArrowForDescriptor (descriptor : string) : string :=
  let d := trim descriptor in
  if String.length d <? 2 then ""
  else
    let first := SingleDelimiter.charAt d 0 in
    let last := SingleDelimiter.charAt d (String.length d - 1) in
    let eqc c o := bool_decide (o = Some c) in
    if (negb (eqc "-"%char first) && negb (eqc "+"%char first))
       || (negb (eqc "-"%char last) && negb (eqc "+"%char last))
    then ""
    else if eqc "-"%char first && eqc "+"%char last then "→"
    else if eqc "+"%char first && eqc "-"%char last then "←"
    else if eqc "+"%char first && eqc "+"%char last then "↔"
    else "—".

Definition getLabelForDescriptor (descriptor : string) : string :=
  let d := trim descriptor in
  if String.length d <=? 2 then ""
  else trim (slice d 1 (-1)).

(** A decoration: the range it covers, and for a replacing widget its
    arrow, label and target. *)
Record decoration : Type := mkDecoration {
  from : nat;
  to : nat;
  widget : option (string * string * string)
}.

(** [buildMarkDecorations]: the ranges handed to [builder.add], in the
    order of the calls. *)
Definition buildMarkDecorations (text : string) : list decoration :=
  omap
    (fun m =>
       let matchStart := index m in
       let matchEnd := matchStart + String.length (JSMore.match0 text m) in
       let descriptor := group1 m in
       let arrow := getArrowForDescriptor descriptor in
       if String.eqb arrow "" then None
       else Some {| from := matchStart; to := matchEnd; widget := None |})
    (execAll RELATIONSHIP_REGEX text).

(** The loop of [buildReplaceDecorations] for one visible range. *)
Definition replaceDecorationsIn (doc : string) (range : nat * nat)
  : list decoration :=
  let '(from_, to_) := range in
  let text := between doc from_ to_ in
  omap
    (fun m =>
       let matchStart := from_ + index m in
       let matchEnd := matchStart + String.length (JSMore.match0 text m) in
       let descriptor := group1 m in
       let target := trim (group2 m) in
       let arrow := getArrowForDescriptor descriptor in
       if String.eqb arrow "" then None
       else
         let label := getLabelForDescriptor descriptor in
         Some {| from := matchStart; to := matchEnd;
                 widget := Some (arrow, label, target) |})
    (execAll RELATIONSHIP_REGEX text).

Definition buildReplaceDecorations (doc : string)
    (visibleRanges : list (nat * nat)) : list decoration :=
  mjoin (replaceDecorationsIn doc <$> visibleRanges).

End EditorExtension.

(** ** The earlier editor overlay (double-delimiter form) *)

Module DoubleOverlay.

Import JS Regex.

Definition getArrowForDescriptor (descriptor : string) : string :=
  let d := trim descriptor in
  if String.eqb d "-+" then "→"
  else if String.eqb d "+-" then "←"
  else if String.eqb d "++" then "↔"
  else if startsWith d "+" && endsWith d "+" && (2 <? String.length d) then "↔"
  else if startsWith d "+" then "←"
  else if endsWith d "+" then "→"
  else if Parser.hasAlnum d then "—"
  else "".

Definition getLabelForDescriptor (descriptor : string) : string :=
  let d := trim descriptor in
  if String.eqb d "-+" || String.eqb d "+-" || String.eqb d "++" then ""
  else if startsWith d "+" && endsWith d "+" && (2 <? String.length d)
  then trim (slice d 1 (-1))
  else if startsWith d "+" then trim (sliceFrom d 1)
  else if endsWith d "+" then trim (slice d 0 (-1))
  else d.

End DoubleOverlay.

(** ** The plugin ([main.ts]) *)

Module Plugin.

Import JS.

(** [oldPath.replace(/\.md$/, '').split('/').pop() || ''] of the rename
    handler. *)
Definition oldBasename (oldPath : string) : string :=
  JSMore.orEmpty
    (JSMore.pop
       (JSMore.splitOn "/"%char (RelationshipIndex.stripExtension oldPath))).

(** The [editor-change] listener on the line of the cursor: the text of the
    line and the column of the cursor, before and after. *)
Definition autocomplete (line : string) (ch : nat) : string * nat :=
  let prefix := slice line 0 (Z.of_nat ch) in
  if endsWith prefix ">[[" && negb (endsWith prefix "->[[") then
    (* Replace >[[ with <-->[[ *)
    let from_ch := ch - 3 in
    let line' :=
      slice line 0 (Z.of_nat from_ch) +:+ "<-->[[" +:+ sliceFrom line (Z.of_nat ch) in
    (line', from_ch + 6)
  else (line, ch).

(** A markdown file of the vault. *)
Record TFile : Type := mkFile {
  basename : string;
  extension : string
}.

#[global] Instance TFile_eq_dec : EqDecision TFile.
Proof. solve_decision. Defined.

(** The fields of the plugin the vault events touch: the index, the set of
    existing basenames and the pending timer of [debouncedReindex]: the
    file its callback will re-parse, [None] when no callback is pending. *)
Record state : Type := mkPlugin {
  index : RelationshipIndex.state;
  existingFiles : gset string;
  debounceTimer : option TFile
}.

Definition isMarkdown (file : TFile) : bool := String.eqb (extension file) "md".

(** [debouncedReindex(file)]: a pending timer is cleared, a new one is
    set. *)
Definition debouncedReindex (st : state) (file : TFile) : state :=
  {| index := index st;
     existingFiles := existingFiles st;
     debounceTimer := Some file |}.

(** The [modify] event. *)
Definition onModify (st : state) (file : TFile) : state :=
  if isMarkdown file then debouncedReindex st file else st.

(** The timer runs out: the callback reads the file ([content] is what
    [cachedRead] returns) and re-parses it. *)
Definition onTimer (parse : string -> string -> list Relationship)
    (st : state) (content : TFile -> string) : state :=
  match debounceTimer st with
  | Some file =>
      {| index :=
           RelationshipIndex.reindexFile parse (index st) (basename file)
             (content file);
         existingFiles := existingFiles st;
         debounceTimer := None |}
  | None => st
  end.

(** The [delete] event. *)
Definition onDelete (st : state) (file : TFile) : state :=
  if isMarkdown file then
    {| index := RelationshipIndex.removeFile (index st) (basename file);
       existingFiles := existingFiles st ∖ {[ basename file ]};
       debounceTimer := debounceTimer st |}
  else st.

(** The [rename] event. *)
Definition onRename (st : state) (file : TFile) (oldPath : string) : state :=
  if isMarkdown file then
    let oldBasename := oldBasename oldPath in
    {| index :=
         RelationshipIndex.renameFile (index st) oldBasename (basename file);
       existingFiles :=
         {[ basename file ]} ∪ (existingFiles st ∖ {[ oldBasename ]});
       debounceTimer := debounceTimer st |}
  else st.

(** The [create] event. *)
Definition onCreate (st : state) (file : TFile) : state :=
  if isMarkdown file then
    {| index := index st;
       existingFiles := {[ basename file ]} ∪ existingFiles st;
       debounceTimer := debounceTimer st |}
  else st.

(** [performFullScan] on a vault given as the list of its markdown files,
    each with its text: the state the plugin starts from. *)
Definition performFullScan (parse : string -> string -> list Relationship)
    (vault : list (TFile * string)) : state :=
  {| index :=
       RelationshipIndex.fullScan parse
         ((fun doc : TFile * string => (basename doc.1, doc.2)) <$> vault);
     existingFiles := list_to_set ((fun doc : TFile * string => basename doc.1) <$> vault);
     debounceTimer := None |}.

(** What happens to the plugin after the start: a vault event, or the
    timer of [debouncedReindex] running out ([content] is what the vault
    then holds for each file). *)
Inductive event : Type :=
| Modify (file : TFile)
| Delete (file : TFile)
| Rename (file : TFile) (oldPath : string)
| Create (file : TFile)
| TimerFires (content : TFile -> string).

Definition handle (parse : string -> string -> list Relationship)
    (st : state) (e : event) : state :=
  match e with
  | Modify file => onModify st file
  | Delete file => onDelete st file
  | Rename file oldPath => onRename st file oldPath
  | Create file => onCreate st file
  | TimerFires content => onTimer parse st content
  end.

End Plugin.

(** * Vocabulary of the specification

    Notions in which the properties are stated.  They follow the words of
    the specification, not the sources. *)

(** ** Vocabulary of the specification: white space *)

(** A run of white space. *)
Definition allWs (l : list ascii) : Prop :=
  Forall (fun c => JS.isWhiteSpace c = true) l.

(** A text that does not start with white space. *)
Definition headNonWs (l : list ascii) : Prop :=
  match l with
  | [] => True
  | c :: _ => JS.isWhiteSpace c = false
  end.

(** ** Vocabulary of the specification: matches *)

(** No match of the pattern is empty. *)
Definition neverEmpty (r : Regex.regex) : Prop :=
  forall s pos res, Regex.matchHere r [] s pos = Some res -> pos < fst res.

(** ** Vocabulary of the specification: the parser *)

Module ParseSpec.

Import JS Regex.

(** The relationship a match gives rise to when it is the [k]-th match of
    the text (counting every match from 0), or [None] when the match is
    discarded: its target trims to the empty text, or its descriptor is
    refused. *)
Definition emitted (parseDescriptor : string -> option (Direction * option string))
    (sourceId : string) (lines : list string) (k : nat) (m : RegExpMatch)
  : option Relationship :=
  if String.eqb (trim (group2 m)) "" then None
  else
    match parseDescriptor (group1 m) with
    | None => None
    | Some (dir, lbl) =>
        let ln := ParseLoop.lineNumberOf lines (index m) in
        Some (mkRelationship (ParseLoop.generateId sourceId ln k)
                sourceId (trim (group2 m)) dir lbl ln)
    end.

(** The matches of a text, numbered from [start]. *)
Definition numbered (start : nat) (ms : list RegExpMatch)
  : list (nat * RegExpMatch) :=
  zip (seq start (length ms)) ms.

End ParseSpec.

(** ** Vocabulary of the specification: well-formed declarations *)

Module Decl.

Fixpoint all (p : ascii -> bool) (s : string) : bool :=
  match s with
  | EmptyString => true
  | String c s' => p c && all p s'
  end.

(** A descriptor that can stand between [<<] and [>>]: it holds no [>]. *)
Definition descriptorText (d : string) : bool := all Parser.notGt d.

(** A target that can stand between [[[] and []]]: after trimming it is
    not empty and holds neither a line terminator nor a closing bracket. *)
Definition targetText (t : string) : bool :=
  negb (String.eqb (JS.trim t) "")
  && all (fun c => Parser.dot c && negb (Ascii.eqb c "]"%char)) (JS.trim t).

(** The text of one declaration. *)
Definition declaration (descriptor target : string) : string :=
  "<<" +:+ descriptor +:+ ">>[[" +:+ target +:+ "]]".

End Decl.

(** ** Vocabulary of the specification: renaming *)

Module Spec.

(** The identifier holds no dollar sign (the character that
    [String.prototype.replace] treats specially in a replacement). *)
Fixpoint noDollar (s : string) : bool :=
  match s with
  | EmptyString => true
  | String c s' => negb (Ascii.eqb c "$"%char) && noDollar s'
  end.

(** A relationship with another source and id, everything else kept. *)
Definition withSource (r : Relationship) (newId newSource : string)
  : Relationship :=
  {| id := newId; sourceFile := newSource; targetFile := targetFile r;
     direction := direction r; label := label r; line := line r |}.

(** A relationship with another target, everything else kept. *)
Definition withTarget (r : Relationship) (newTarget : string) : Relationship :=
  {| id := id r; sourceFile := sourceFile r; targetFile := newTarget;
     direction := direction r; label := label r; line := line r |}.

(** What a rename does to one entry of the index, as the specification
    words it: the entry of the old identifier moves to the new identifier
    and its relationships change owner; in every entry a target equal to the
    old identifier becomes the new identifier. *)
Definition renamedEntry (oldId newId : string)
    (entry : string * list Relationship) : string * list Relationship :=
  let retargeted r :=
    if String.eqb (targetFile r) oldId then withTarget r newId else r in
  if String.eqb entry.1 oldId then
    (newId,
     (fun r => retargeted
                 (withSource r (JS.replace (id r) oldId newId) newId))
       <$> entry.2)
  else (entry.1, retargeted <$> entry.2).

End Spec.

(** ** Vocabulary of the specification: the graph model *)

Module GraphSpec.

(** Two relationships join the same unordered pair of endpoints. *)
Definition samePair (r r' : Relationship) : bool :=
  (String.eqb (sourceFile r) (sourceFile r')
   && String.eqb (targetFile r) (targetFile r'))
  || (String.eqb (sourceFile r) (targetFile r')
      && String.eqb (targetFile r) (sourceFile r')).

(** The number of relationships before position [i] that join the same
    unordered pair as [r]. *)
Definition earlierOfPair (rs : list Relationship) (i : nat) (r : Relationship)
  : nat :=
  length (List.filter (fun r' => samePair r' r) (take i rs)).

(** The number of relationships before position [i] that have the key of
    [r]. *)
Definition earlierOfKey (rs : list Relationship) (i : nat) (r : Relationship)
  : nat :=
  length
    (List.filter
       (fun r' => String.eqb (GraphRenderer.edgeKey r') (GraphRenderer.edgeKey r))
       (take i rs)).

(** An identifier without dash. *)
Definition dashFree (s : string) : bool :=
  Decl.all (fun c => negb (Ascii.eqb c "-"%char)) s.

Definition dashFreeEnds (r : Relationship) : bool :=
  dashFree (sourceFile r) && dashFree (targetFile r).

(** The fixed spacing of parallel edges. *)
Definition C : nat := 30.

End GraphSpec.

(** * Vocabulary of the further properties *)

(** ** Vocabulary: the shape of a match *)

Module MatchSpec.

Import Regex.

(** [accepts r marks s pos res]: the text [s], which stands at offset [pos],
    starts with a text of the shape of [r]; [res] holds the offset where
    that text ends and the offsets of the marks. *)
Fixpoint accepts (r : regex) (marks : list nat) (s : string) (pos : nat)
    (res : nat * list nat) : Prop :=
  match r with
  | [] => res = (pos, marks)
  | Lit l :: r' =>
      exists s', s = l +:+ s' /\ accepts r' marks s' (pos + String.length l) res
  | Class p :: r' =>
      exists c s', s = String c s' /\ p c = true /\ accepts r' marks s' (S pos) res
  | StarGreedy p :: r' | StarLazy p :: r' =>
      exists a s',
        s = a +:+ s' /\ Decl.all p a = true
        /\ accepts r' marks s' (pos + String.length a) res
  | Mark :: r' => accepts r' (marks ++ [pos]) s pos res
  end.

(** The matches follow one another from offset [i] on: none is empty, none
    starts before the last one ended, all lie inside the text. *)
Fixpoint chained (content : string) (i : nat) (ms : list RegExpMatch) : Prop :=
  match ms with
  | [] => True
  | m :: ms' =>
      i <= index m /\ index m < lastIndex m <= String.length content
      /\ chained content (lastIndex m) ms'
  end.

(** The number of line feeds of a text. *)
Fixpoint lineFeeds (s : string) : nat :=
  match s with
  | EmptyString => 0
  | String c s' => (if Ascii.eqb c "010"%char then 1 else 0) + lineFeeds s'
  end.

(** The text holds the character. *)
Fixpoint holds (c : ascii) (s : string) : bool :=
  match s with
  | EmptyString => false
  | String c' s' => Ascii.eqb c' c || holds c s'
  end.

End MatchSpec.

(** ** Vocabulary: the declarations found in a text *)

Module Found.

Import JS Regex.

(** The text [content] holds, after [pre], a double-delimiter declaration
    with descriptor [d] and target text [t] (the white space [ws1] and
    [ws2] around the target is not part of it), and [m] is the match
    object of that declaration. *)
Definition double (content : string) (m : RegExpMatch)
    (pre d ws1 t ws2 post : string) : Prop :=
  content = pre +:+ "<<" +:+ d +:+ ">>[[" +:+ ws1 +:+ t +:+ ws2 +:+ "]]" +:+ post
  /\ Decl.all Parser.notGt d = true
  /\ Decl.all isWhiteSpace ws1 = true
  /\ Decl.all Parser.dot t = true
  /\ Decl.all isWhiteSpace ws2 = true
  /\ index m = String.length pre
  /\ lastIndex m
     = String.length (pre +:+ "<<" +:+ d +:+ ">>[[" +:+ ws1 +:+ t +:+ ws2 +:+ "]]")
  /\ group1 m = d
  /\ group2 m = t.

(** The same for a single-delimiter declaration: the descriptor is
    [a], [mid], [b], and white space [ws0] may stand between [>] and
    [[[]. *)
Definition single (content : string) (m : RegExpMatch)
    (pre : string) (a : ascii) (mid : string) (b : ascii)
    (ws0 ws1 t ws2 post : string) : Prop :=
  let d := String a (mid +:+ String b "") in
  content
  = pre +:+ "<" +:+ d +:+ ">" +:+ ws0 +:+ "[[" +:+ ws1 +:+ t +:+ ws2 +:+ "]]" +:+ post
  /\ SingleDelimiter.plusOrDash a = true
  /\ SingleDelimiter.plusOrDash b = true
  /\ Decl.all Parser.notGt mid = true
  /\ Decl.all isWhiteSpace ws0 = true
  /\ Decl.all isWhiteSpace ws1 = true
  /\ Decl.all Parser.dot t = true
  /\ Decl.all isWhiteSpace ws2 = true
  /\ index m = String.length pre
  /\ lastIndex m
     = String.length
         (pre +:+ "<" +:+ d +:+ ">" +:+ ws0 +:+ "[[" +:+ ws1 +:+ t +:+ ws2 +:+ "]]")
  /\ group1 m = d
  /\ group2 m = t.

End Found.

(** ** Vocabulary: the descriptor grammar *)

Module Grammar.

(** The direction a single-delimiter descriptor with first character [a]
    and last character [b] (each a plus or a dash) stands for: a plus is an
    arrow head. *)
Definition ends (a b : ascii) : Direction :=
  match Ascii.eqb a "+"%char, Ascii.eqb b "+"%char with
  | false, true => outgoing
  | true, false => incoming
  | true, true => bidirectional
  | false, false => undirected
  end.

(** The label the text between the two end characters stands for. *)
Definition interior (mid : string) : option string :=
  if String.eqb (JS.trim mid) "" then None else Some (JS.trim mid).

(** The arrow the overlays draw for a direction. *)
Definition glyph (d : Direction) : string :=
  match d with
  | outgoing => "→"
  | incoming => "←"
  | bidirectional => "↔"
  | undirected => "—"
  end.

(** The label text the overlays show. *)
Definition labelText (lbl : option string) : string :=
  match lbl with
  | Some l => l
  | None => ""
  end.

End Grammar.

(** ** Vocabulary: ranges of the editor *)

Module Ranges.

(** The decorations lie inside the text up to [limit], none is empty, and
    each starts where the one before it has ended or later; the first one
    starts at [i] or later.  (A [RangeSetBuilder] takes ranges in this
    order only.) *)
Fixpoint disjointFrom (limit i : nat) (ds : list EditorExtension.decoration)
  : Prop :=
  match ds with
  | [] => True
  | d :: ds' =>
      i <= EditorExtension.from d
      /\ EditorExtension.from d < EditorExtension.to d <= limit
      /\ disjointFrom limit (EditorExtension.to d) ds'
  end.

(** The visible ranges of an editor view: inside the document up to
    [limit], in document order, not overlapping. *)
Fixpoint visibleFrom (limit i : nat) (ranges : list (nat * nat)) : Prop :=
  match ranges with
  | [] => True
  | (f, t) :: rest => i <= f /\ f <= t <= limit /\ visibleFrom limit t rest
  end.

End Ranges.

(** ** Vocabulary: the index *)

Module IndexSpec.

(** Every entry of the index holds relationships of its own key only. *)
Definition owned (st : RelationshipIndex.state) : bool :=
  forallb
    (fun entry : string * list Relationship =>
       forallb (fun r => String.eqb (sourceFile r) entry.1) entry.2)
    st.

(** The text of the last document of the vault whose basename gives the
    key. *)
Definition lastDocument (vault : list (string * string)) (key : string)
  : option string :=
  snd <$> last (filter (fun doc : string * string =>
                          RelationshipIndex.stripExtension doc.1 = key) vault).

End IndexSpec.

(** ** Vocabulary: documents of declarations *)

Module Document.

(** One declaration of a document: its descriptor, its target, and the
    text that follows it up to the next declaration. *)
Record item : Type := mkItem {
  descriptor : string;
  target : string;
  after : string
}.

(** The declaration is well formed and no opening angle bracket stands in
    the text after it. *)
Definition wellFormed (it : item) : bool :=
  Decl.descriptorText (descriptor it) && Decl.targetText (target it)
  && negb (MatchSpec.holds "<" (after it)).

(** The document: [gap], then each declaration followed by its text. *)
Fixpoint text (gap : string) (items : list item) : string :=
  match items with
  | [] => gap
  | it :: rest =>
      gap +:+ Decl.declaration (descriptor it) (target it)
      +:+ text (after it) rest
  end.

(** The relationships the declarations stand for, when the document is
    preceded by [before] and the first declaration is the [k]-th of the
    text: one for each declaration with an accepted descriptor, numbered by
    the line it starts on and by its rank among all declarations. *)
Fixpoint relationships (sourceId before : string) (k : nat) (gap : string)
    (items : list item) : list Relationship :=
  match items with
  | [] => []
  | it :: rest =>
      let start := before +:+ gap in
      let ln := 1 + MatchSpec.lineFeeds start in
      match Parser.parseDescriptor (descriptor it) with
      | Some (dir, lbl) =>
          [ mkRelationship (Parser.generateId sourceId ln k) sourceId
              (JS.trim (target it)) dir lbl ln ]
      | None => []
      end
      ++ relationships sourceId
           (start +:+ Decl.declaration (descriptor it) (target it)) (S k)
           (after it) rest
  end.

End Document.

(** ** Vocabulary: documents of single-delimiter declarations *)

Module SingleDocument.

(** One declaration [<aMIDb>], white space, [[[target]]], and the text
    that follows it up to the next declaration. *)
Record item : Type := mkItem {
  first : ascii;
  middle : string;
  last : ascii;
  space : string;
  target : string;
  after : string
}.

Definition descriptor (it : item) : string :=
  String (first it) (middle it +:+ String (last it) "").

Definition declaration (it : item) : string :=
  "<" +:+ descriptor it +:+ ">" +:+ space it +:+ "[[" +:+ target it +:+ "]]".

(** The declaration is well formed and no opening angle bracket stands in
    the text after it. *)
Definition wellFormed (it : item) : bool :=
  SingleDelimiter.plusOrDash (first it)
  && SingleDelimiter.plusOrDash (last it)
  && Decl.all Parser.notGt (middle it)
  && Decl.all JS.isWhiteSpace (space it)
  && Decl.targetText (target it)
  && negb (MatchSpec.holds "<" (after it)).

Fixpoint text (gap : string) (items : list item) : string :=
  match items with
  | [] => gap
  | it :: rest => gap +:+ declaration it +:+ text (after it) rest
  end.

(** The relationships the declarations stand for, when the document is
    preceded by [before] and the first declaration is the [k]-th of the
    text. *)
Fixpoint relationships (sourceId before : string) (k : nat) (gap : string)
    (items : list item) : list Relationship :=
  match items with
  | [] => []
  | it :: rest =>
      let start := before +:+ gap in
      let ln := 1 + MatchSpec.lineFeeds start in
      mkRelationship (ParseLoop.generateId sourceId ln k) sourceId
        (JS.trim (target it)) (Grammar.ends (first it) (last it))
        (Grammar.interior (middle it)) ln
      :: relationships sourceId (start +:+ declaration it) (S k) (after it) rest
  end.

End SingleDocument.

(** * Sample documents, index states and layouts *)

Module Examples.

Definition parse := Parser.parseRelationships.

(** Two notes, [A] declaring a relationship to [X] and [B] one to [Y]. *)
Definition twoNotes : RelationshipIndex.state :=
  RelationshipIndex.reindexFile parse
    (RelationshipIndex.reindexFile parse RelationshipIndex.empty
       "A.md" "<<-+>>[[X]]")
    "B.md" "<<-+>>[[Y]]".

(** [Awal] points to [OldName] and to [Other]; [OldName] points back. *)
Definition vault : RelationshipIndex.state :=
  RelationshipIndex.fullScan parse
    [ ("Awal", "<<-+>>[[OldName]] and <<uses>>[[Other]]");
      ("OldName", "<<+manages>>[[Awal]]") ].

(** A note with an emitted declaration, a blank target, a refused
    descriptor and a second emitted declaration on the next line. *)
Definition mixedNote : string :=
  "<<-+>>[[Alpha]] <<x>>[[  ]] <<-->>[[Beta]]" +:+ String "010"%char ""
  +:+ "<<uses>>[[Gamma]]".

(** Rationals stand in for JavaScript numbers in the sample layouts. *)
#[global] Instance JSNumber_Q : JSNumber QArith_base.Q := {|
  nadd := QArith_base.Qplus;
  nsub := QArith_base.Qminus;
  nmul := QArith_base.Qmult;
  ndiv := QArith_base.Qdiv;
  n2 := QArith_base.Qmake 2 1;
  n0_5 := QArith_base.Qmake 1 2;
  n100 := QArith_base.Qmake 100 1
|}.

(** A settled layout with the single node [Awal] at (100, 200). *)
Definition layout : GraphRenderer.state QArith_base.Q :=
  {| GraphRenderer.labelFilter := "";
     GraphRenderer.existingFiles := {[ "Awal" ]};
     GraphRenderer.nodes :=
       [ GraphRenderer.mkNode "Awal" false
           (Some (QArith_base.Qmake 100 1)) (Some (QArith_base.Qmake 200 1))
           (Some (QArith_base.Qmake 1 4)) (Some (QArith_base.Qmake (-1) 4)) ];
     GraphRenderer.links := [];
     GraphRenderer.width := QArith_base.Qmake 800 1;
     GraphRenderer.height := QArith_base.Qmake 600 1 |}.

(** The values [Math.random] returns. *)
Definition random (n : nat) : QArith_base.Q :=
  QArith_base.Qmake 1 (Pos.of_succ_nat (S n)).

End Examples.

(** ** Samples of the further properties *)

Module Samples.

(** A note in the single-delimiter form, with a labelled declaration and,
    on the second line, a bare one. *)
Definition singleNote : string :=
  "see <-uses+>[[Alpha]]" +:+ String "010"%char "" +:+ "<+-> [[ Beta ]]".

(** The declarations of a note of three lines: the second one has a
    descriptor the parser refuses. *)
Definition items : list Document.item :=
  [ Document.mkItem "-+" "Alpha" (" and" +:+ String "010"%char "");
    Document.mkItem "--" " Beta " (String "010"%char "" +:+ "then ");
    Document.mkItem "+uses+" "Gamma.md" "." ].

(** The declarations of a note in the single-delimiter form. *)
Definition singleItems : list SingleDocument.item :=
  [ SingleDocument.mkItem "-" "uses" "+" "" "Alpha" (String "010"%char "");
    SingleDocument.mkItem "+" "" "-" " " " Beta " " and ";
    SingleDocument.mkItem "-" " a-b " "-" "" "Gamma" "" ].

(** Two notes that are modified one after the other, and what the vault
    holds for each. *)
Definition noteA : Plugin.TFile := Plugin.mkFile "A" "md".

Definition noteB : Plugin.TFile := Plugin.mkFile "B" "md".

Definition cachedRead (file : Plugin.TFile) : string :=
  if String.eqb (Plugin.basename file) "A" then "<<-+>>[[X]] <<uses>>[[Z]]"
  else "<<+->>[[Y]]".

Definition plugin : Plugin.state :=
  Plugin.mkPlugin Examples.twoNotes {[ "A"; "B" ]} None.

(** Two visible ranges of [singleNote]: its first line and its second
    line. *)
Definition visibleRanges : list (nat * nat) := [ (0, 21); (22, 37) ].

End Samples.

(** * Properties *)

(** ** Strings as lists of characters *)

Section StringFacts.

Implicit Types (s t : string) (c : ascii).

#[local] Abbreviation chars := list_ascii_of_string.

Lemma chars_inj s t : chars s = chars t -> s = t.
Proof.
  intros E. rewrite <- (string_of_list_ascii_of_string s),
    <- (string_of_list_ascii_of_string t). by rewrite E.
Qed.

Lemma chars_app s t : chars (s +:+ t) = chars s ++ chars t.
Proof. induction s as [|c s IH]; simpl; [done | by rewrite IH]. Qed.

Lemma chars_length s : String.length s = length (chars s).
Proof. induction s as [|c s IH]; simpl; [done | by rewrite IH]. Qed.

Lemma chars_rev_app s t : chars (String.rev_app s t) = rev (chars s) ++ chars t.
Proof.
  revert t. induction s as [|c s IH]; intros t; simpl; [done |].
  rewrite IH. simpl. by rewrite <- app_assoc.
Qed.

Lemma chars_rev s : chars (String.rev s) = rev (chars s).
Proof. unfold String.rev. rewrite chars_rev_app. simpl. apply app_nil_r. Qed.

Lemma chars_substring n m s :
  chars (String.substring n m s) = take m (drop n (chars s)).
Proof.
  revert n m. induction s as [|c s IH]; intros [|n] [|m]; simpl;
    rewrite ?IH; done.
Qed.

Lemma string_app_assoc s t u : (s +:+ t) +:+ u = s +:+ t +:+ u.
Proof. apply chars_inj. rewrite !chars_app. by rewrite app_assoc. Qed.

Lemma string_app_nil_r s : s +:+ "" = s.
Proof. apply chars_inj. rewrite chars_app. apply app_nil_r. Qed.

Lemma string_app_length s t :
  String.length (s +:+ t) = String.length s + String.length t.
Proof. rewrite !chars_length, chars_app. apply length_app. Qed.

Lemma string_rev_involutive s : String.rev (String.rev s) = s.
Proof. apply chars_inj. rewrite !chars_rev. apply rev_involutive. Qed.

Lemma string_rev_app s t :
  String.rev (s +:+ t) = String.rev t +:+ String.rev s.
Proof.
  apply chars_inj. rewrite chars_app, !chars_rev, chars_app. apply rev_app_distr.
Qed.

Lemma string_app_cons c s t : String c s +:+ t = String c (s +:+ t).
Proof. reflexivity. Qed.

Lemma prefix_true_iff p s :
  String.prefix p s = true <-> exists r, s = p +:+ r.
Proof.
  revert s. induction p as [|a p IH]; intros [|b s]; simpl.
  - split; eauto.
  - split; eauto.
  - split; [done | intros [r ?]; done].
  - destruct (ascii_dec a b) as [->|Hne].
    + rewrite IH. split; intros [r Hr]; exists r;
        rewrite string_app_cons in *; congruence.
    + split; [done | intros [r Hr]; rewrite string_app_cons in Hr; congruence].
Qed.

Lemma prefix_app p r : String.prefix p (p +:+ r) = true.
Proof. apply prefix_true_iff. eauto. Qed.

Lemma substring_app_l s t :
  String.substring 0 (String.length s) (s +:+ t) = s.
Proof.
  apply chars_inj. rewrite chars_substring, chars_app, chars_length.
  rewrite drop_0. apply take_app_length.
Qed.

Lemma substring_app_r s t :
  String.substring (String.length s) (String.length t) (s +:+ t) = t.
Proof.
  apply chars_inj.
  rewrite chars_substring, chars_app, !chars_length, drop_app_length.
  apply firstn_all.
Qed.

Lemma substring_app_mid s t u :
  String.substring (String.length s) (String.length t) (s +:+ t +:+ u) = t.
Proof.
  apply chars_inj.
  rewrite chars_substring, !chars_app, !chars_length, drop_app_length.
  by rewrite take_app_length.
Qed.

End StringFacts.

(** ** Trimming, prefixes and slices *)

Section TrimFacts.

Import JS.

#[local] Abbreviation chars := list_ascii_of_string.

Lemma trimStart_decompose (s : string) :
  exists lead, s = lead +:+ trimStart s /\ allWs (chars lead)
               /\ headNonWs (chars (trimStart s)).
Proof.
  induction s as [|c s (lead & Hs & Hlead & Hhead)]; simpl.
  - exists "". by split_and!; [| constructor |].
  - destruct (isWhiteSpace c) eqn:Hc.
    + exists (String c lead). split_and!; [| by constructor | done].
      rewrite string_app_cons. by f_equal.
    + exists "". split_and!; [done | constructor | done].
Qed.

Lemma trimStart_headNonWs (s : string) : headNonWs (chars s) -> trimStart s = s.
Proof. destruct s as [|c s]; simpl; [done |]. by intros ->. Qed.

Lemma trimEnd_decompose (s : string) :
  exists trail, s = trimEnd s +:+ trail /\ allWs (chars trail)
                /\ headNonWs (rev (chars (trimEnd s))).
Proof.
  unfold trimEnd.
  destruct (trimStart_decompose (String.rev s)) as (lead & Hs & Hlead & Hhead).
  exists (String.rev lead). split_and!.
  - rewrite <- string_rev_app, <- Hs. by rewrite string_rev_involutive.
  - rewrite chars_rev. unfold allWs. by apply Forall_rev.
  - by rewrite chars_rev, rev_involutive.
Qed.

Lemma headNonWs_app_l (l l' : list ascii) :
  headNonWs (l ++ l') -> headNonWs l.
Proof. by destruct l. Qed.

(** [trim] removes a run of white space at each end and leaves a text that
    neither starts nor ends with white space. *)
Lemma trim_decompose (s : string) :
  exists lead trail,
    s = lead +:+ trim s +:+ trail
    /\ allWs (chars lead) /\ allWs (chars trail)
    /\ headNonWs (chars (trim s)) /\ headNonWs (rev (chars (trim s))).
Proof.
  unfold trim.
  destruct (trimStart_decompose s) as (lead & Hs & Hlead & Hhead).
  destruct (trimEnd_decompose (trimStart s)) as (trail & Ht & Htrail & Hlast).
  exists lead, trail. split_and!; try done.
  - by rewrite <- Ht.
  - rewrite Ht, chars_app in Hhead. by apply headNonWs_app_l in Hhead.
Qed.

Lemma trim_no_whitespace (s : string) :
  Forall (fun c => isWhiteSpace c = false) (chars s) -> trim s = s.
Proof.
  intros Hs. unfold trim, trimEnd.
  assert (trimStart s = s) as ->.
  { apply trimStart_headNonWs. destruct s; [done |]. by inversion Hs. }
  rewrite trimStart_headNonWs; [apply string_rev_involutive |].
  rewrite chars_rev. apply Forall_rev in Hs.
  destruct (rev (chars s)); [done |]. by inversion Hs.
Qed.

Lemma startsWith_iff (s p : string) :
  startsWith s p = true <-> exists r, s = p +:+ r.
Proof. apply prefix_true_iff. Qed.

Lemma endsWith_iff (s p : string) :
  endsWith s p = true <-> exists r, s = r +:+ p.
Proof.
  unfold endsWith. rewrite prefix_true_iff. split.
  - intros [r Hr]. exists (String.rev r).
    rewrite <- (string_rev_involutive s), Hr, string_rev_app.
    by rewrite string_rev_involutive.
  - intros [r ->]. exists (String.rev r). apply string_rev_app.
Qed.

Lemma slice_interior (c c' : ascii) (mid : string) :
  slice (String c mid +:+ String c' "") 1 (-1) = mid.
Proof.
  unfold slice, clampIndex.
  rewrite string_app_cons. cbn [String.length].
  rewrite string_app_length. cbn [String.length].
  replace (1 <? 0)%Z with false by done.
  replace (-1 <? 0)%Z with true by done.
  replace (Z.to_nat (Z.max (Z.of_nat (S (String.length mid + 1)) + -1) 0))
    with (S (String.length mid)) by lia.
  replace (Nat.min (Z.to_nat 1) (S (String.length mid + 1))) with 1 by lia.
  replace (S (String.length mid) - 1) with (String.length mid) by lia.
  cbn [String.substring].
  apply substring_app_l.
Qed.

Lemma sliceFrom_tail (c : ascii) (rest : string) :
  sliceFrom (String c rest) 1 = rest.
Proof.
  unfold sliceFrom, slice, clampIndex. cbn [String.length].
  replace (1 <? 0)%Z with false by done.
  replace (Z.of_nat (S (String.length rest)) <? 0)%Z with false
    by (symmetry; apply Z.ltb_ge; lia).
  replace (Nat.min (Z.to_nat 1) (S (String.length rest))) with 1 by lia.
  replace (Nat.min (Z.to_nat (Z.of_nat (S (String.length rest))))
             (S (String.length rest)) - 1)
    with (String.length rest) by lia.
  cbn [String.substring].
  rewrite <- (string_app_nil_r rest) at 2. apply substring_app_l.
Qed.

Lemma slice_init (pre : string) (c : ascii) :
  slice (pre +:+ String c "") 0 (-1) = pre.
Proof.
  unfold slice, clampIndex. rewrite string_app_length. cbn [String.length].
  replace (0 <? 0)%Z with false by done.
  replace (-1 <? 0)%Z with true by done.
  replace (Z.to_nat (Z.max (Z.of_nat (String.length pre + 1) + -1) 0)
           - Nat.min (Z.to_nat 0) (String.length pre + 1))
    with (String.length pre) by lia.
  replace (Nat.min (Z.to_nat 0) (String.length pre + 1)) with 0 by lia.
  apply substring_app_l.
Qed.

End TrimFacts.

(** ** The insertion-ordered map *)

Section JSMapFacts.

Context {V : Type}.
Implicit Types (m : JSMap.t V) (k : string) (v : V).

Lemma get_set_eq m k v : JSMap.get (JSMap.set m k v) k = Some v.
Proof.
  induction m as [|[k' v'] m IH]; simpl.
  - by rewrite String.eqb_refl.
  - destruct (String.eqb_spec k' k) as [->|Hne]; simpl.
    + by rewrite String.eqb_refl.
    + by destruct (String.eqb_spec k' k).
Qed.

Lemma get_set_ne m k k' v :
  k' <> k -> JSMap.get (JSMap.set m k v) k' = JSMap.get m k'.
Proof.
  intros Hne. induction m as [|[k0 v0] m IH]; simpl.
  - by destruct (String.eqb_spec k k').
  - destruct (String.eqb_spec k0 k) as [->|Hk]; simpl.
    + destruct (String.eqb_spec k k'); [congruence | done].
    + by destruct (String.eqb_spec k0 k').
Qed.

Lemma get_delete_eq m k : JSMap.get (JSMap.delete m k) k = None.
Proof.
  induction m as [|[k' v'] m IH]; simpl; [done |].
  destruct (String.eqb_spec k' k) as [->|Hne]; simpl; [done |].
  by destruct (String.eqb_spec k' k).
Qed.

Lemma get_delete_ne m k k' :
  k' <> k -> JSMap.get (JSMap.delete m k) k' = JSMap.get m k'.
Proof.
  intros Hne. induction m as [|[k0 v0] m IH]; simpl; [done |].
  destruct (String.eqb_spec k0 k) as [->|Hk]; simpl.
  - destruct (String.eqb_spec k k'); [congruence | done].
  - by destruct (String.eqb_spec k0 k').
Qed.

Lemma set_set_eq m k v v' :
  JSMap.set (JSMap.set m k v) k v' = JSMap.set m k v'.
Proof.
  induction m as [|[k0 v0] m IH]; simpl.
  - by rewrite String.eqb_refl.
  - destruct (String.eqb_spec k0 k) as [->|Hk]; simpl.
    + by rewrite String.eqb_refl.
    + destruct (String.eqb_spec k0 k); [done |]. by rewrite IH.
Qed.

Lemma get_None_not_key m k : JSMap.get m k = None <-> k ∉ JSMap.keys m.
Proof.
  unfold JSMap.keys. induction m as [|[k0 v0] m IH]; simpl.
  - split; [intros _; apply not_elem_of_nil | done].
  - rewrite not_elem_of_cons.
    destruct (String.eqb_spec k0 k) as [->|Hk]; [split; [done | tauto] |].
    rewrite IH. split; [split; [congruence | done] | tauto].
Qed.

Lemma get_Some_elem m k v : JSMap.get m k = Some v -> (k, v) ∈ m.
Proof.
  induction m as [|[k0 v0] m IH]; simpl; [done |].
  destruct (String.eqb_spec k0 k) as [->|Hk].
  - intros [= ->]. apply elem_of_cons; by left.
  - intros E. apply elem_of_cons; right; auto.
Qed.

Lemma elem_get_Some m k v :
  JSMap.wf m -> (k, v) ∈ m -> JSMap.get m k = Some v.
Proof.
  unfold JSMap.wf, JSMap.keys. induction m as [|[k0 v0] m IH]; simpl.
  - intros _ Hin. by apply elem_of_nil in Hin.
  - intros Hnd Hin. apply NoDup_cons in Hnd as [Hk0 Hnd].
    apply elem_of_cons in Hin as [[= -> ->]|Hin].
    + by rewrite String.eqb_refl.
    + destruct (String.eqb_spec k0 k) as [->|Hk]; [| by apply IH].
      exfalso. apply Hk0. apply list_elem_of_fmap. by exists (k, v).
Qed.

Lemma delete_not_key m k : k ∉ JSMap.keys m -> JSMap.delete m k = m.
Proof.
  unfold JSMap.keys. induction m as [|[k0 v0] m IH]; simpl; [done |].
  rewrite not_elem_of_cons. intros [Hne Hk].
  destruct (String.eqb_spec k0 k); [congruence |]. by rewrite IH.
Qed.

Lemma set_not_key m k v : k ∉ JSMap.keys m -> JSMap.set m k v = m ++ [(k, v)].
Proof.
  unfold JSMap.keys. induction m as [|[k0 v0] m IH]; simpl; [done |].
  rewrite not_elem_of_cons. intros [Hne Hk].
  destruct (String.eqb_spec k0 k); [congruence |]. by rewrite IH.
Qed.

Lemma keys_delete_subseteq m k x :
  x ∈ JSMap.keys (JSMap.delete m k) -> x ∈ JSMap.keys m /\ x <> k.
Proof.
  unfold JSMap.keys. induction m as [|[k0 v0] m IH]; simpl.
  - intros Hin. by apply elem_of_nil in Hin.
  - destruct (String.eqb_spec k0 k) as [->|Hk]; simpl.
    + intros Hin. destruct (IH Hin). split; [apply elem_of_cons; by right | done].
    + rewrite !elem_of_cons. intros [->|Hin]; [by split; [left |] |].
      destruct (IH Hin). split; [by right | done].
Qed.

(** Under [wf] the key occurs once: deleting it splits the map around its
    entry. *)
Lemma delete_split m k v :
  JSMap.wf m -> JSMap.get m k = Some v ->
  exists m1 m2, m = m1 ++ (k, v) :: m2 /\ JSMap.delete m k = m1 ++ m2
                /\ (k ∉ JSMap.keys m1) /\ (k ∉ JSMap.keys m2).
Proof.
  unfold JSMap.wf, JSMap.keys. induction m as [|[k0 v0] m IH]; simpl; [done |].
  intros Hnd Hget. apply NoDup_cons in Hnd as [Hk0 Hnd].
  destruct (String.eqb_spec k0 k) as [->|Hk].
  - injection Hget as ->. exists [], m. simpl.
    rewrite (delete_not_key m k Hk0). split_and!; try done. apply not_elem_of_nil.
  - destruct (IH Hnd Hget) as (m1 & m2 & -> & Hdel & H1 & H2).
    exists ((k0, v0) :: m1), m2. simpl. rewrite Hdel. split_and!; try done.
    rewrite not_elem_of_cons. split; [congruence | done].
Qed.

Lemma wf_delete m k : JSMap.wf m -> JSMap.wf (JSMap.delete m k).
Proof.
  unfold JSMap.wf. induction m as [|[k0 v0] m IH]; simpl; [done |].
  unfold JSMap.keys in *. simpl. intros Hnd. apply NoDup_cons in Hnd as [Hk0 Hnd].
  destruct (String.eqb_spec k0 k) as [->|Hk]; [by apply IH |].
  simpl. apply NoDup_cons. split; [| by apply IH].
  intros Hin. apply Hk0. by apply (keys_delete_subseteq m k k0).
Qed.

Lemma keys_set m k v x :
  x ∈ JSMap.keys (JSMap.set m k v) <-> x ∈ JSMap.keys m \/ x = k.
Proof.
  unfold JSMap.keys. induction m as [|[k0 v0] m IH]; simpl.
  - rewrite list_elem_of_singleton. split; [by right | intros [H|H]; [|done]].
    by apply elem_of_nil in H.
  - destruct (String.eqb_spec k0 k) as [->|Hk]; simpl.
    + rewrite !elem_of_cons. tauto.
    + rewrite !elem_of_cons, IH. tauto.
Qed.

Lemma wf_set m k v : JSMap.wf m -> JSMap.wf (JSMap.set m k v).
Proof.
  unfold JSMap.wf. induction m as [|[k0 v0] m IH]; simpl.
  - intros _. apply NoDup_singleton.
  - unfold JSMap.keys in *. simpl. intros Hnd.
    apply NoDup_cons in Hnd as [Hk0 Hnd].
    destruct (String.eqb_spec k0 k) as [->|Hk]; simpl.
    + by apply NoDup_cons.
    + apply NoDup_cons. split; [| by apply IH].
      intros Hin. apply (keys_set m k v k0) in Hin as [Hin|Hin]; [by apply Hk0 | congruence].
Qed.

End JSMapFacts.

(** ** The scan as successive calls of [exec] *)

Section ExecFacts.

Import Regex.

Lemma stripPrefix_Some (l s s' : string) :
  stripPrefix l s = Some s' -> s = l +:+ s'.
Proof.
  revert s. induction l as [|a l IH]; intros s; destruct s as [|b s];
    cbn [stripPrefix]; try done.
  - by intros [= <-].
  - by intros [= <-].
  - destruct (Ascii.eqb_spec a b) as [->|]; [| done].
    intros E. rewrite string_app_cons. f_equal. by apply IH.
Qed.

Section StarBounds.

Context {R : Type} (p : ascii -> bool) (k : string -> nat -> option R)
  (fin : R -> nat).

Hypothesis k_bounds :
  forall s pos r, k s pos = Some r -> pos <= fin r <= pos + String.length s.

Lemma starLazy_bounds (s : string) (pos : nat) (r : R) :
  starLazy p k s pos = Some r -> pos <= fin r <= pos + String.length s.
Proof.
  revert pos. induction s as [|c s IH]; intros pos; cbn [starLazy].
  - destruct (k "" pos) eqn:Hk; [| done]. intros [= <-]. by apply k_bounds.
  - destruct (k (String c s) pos) eqn:Hk.
    + intros [= <-]. by apply k_bounds.
    + destruct (p c); [| done]. intros Hr%IH. simpl. lia.
Qed.

Lemma starGreedy_bounds (s : string) (pos : nat) (r : R) :
  starGreedy p k s pos = Some r -> pos <= fin r <= pos + String.length s.
Proof.
  revert pos. induction s as [|c s IH]; intros pos; cbn [starGreedy].
  - apply k_bounds.
  - destruct (p c); [| apply k_bounds].
    destruct (starGreedy p k s (S pos)) eqn:Hg.
    + intros [= <-]. apply IH in Hg. simpl. lia.
    + apply k_bounds.
Qed.

End StarBounds.

(** A match ends inside the text, at or after the place it starts. *)
Lemma matchHere_bounds (r : regex) (marks : list nat) (s : string) (pos : nat)
    (res : nat * list nat) :
  matchHere r marks s pos = Some res ->
  pos <= fst res <= pos + String.length s.
Proof.
  revert marks s pos res. induction r as [|t r IH]; intros marks s pos res.
  - simpl. intros [= <-]. simpl. lia.
  - destruct t as [l|p|p|p|]; cbn [matchHere].
    + destruct (stripPrefix l s) as [s'|] eqn:Hl; [| done].
      apply stripPrefix_Some in Hl as ->. intros Hr%IH.
      rewrite string_app_length. lia.
    + destruct s as [|c s]; [done |]. destruct (p c); [| done].
      intros Hr%IH. simpl. lia.
    + apply starGreedy_bounds. intros s0 pos0 r0. apply IH.
    + apply starLazy_bounds. intros s0 pos0 r0. apply IH.
    + apply IH.
Qed.

(** The patterns of both parsers start with a literal [<]: no match is
    empty. *)
Lemma literal_first_neverEmpty (c : ascii) (l : string) (r : regex) :
  neverEmpty (Lit (String c l) :: r).
Proof.
  intros s pos res. cbn [matchHere].
  destruct (stripPrefix (String c l) s) as [s'|]; [| done].
  intros Hr%matchHere_bounds. simpl in Hr. lia.
Qed.

Lemma RELATIONSHIP_REGEX_neverEmpty : neverEmpty Parser.RELATIONSHIP_REGEX.
Proof. apply literal_first_neverEmpty. Qed.

Lemma single_delimiter_neverEmpty :
  neverEmpty SingleDelimiter.RELATIONSHIP_REGEX.
Proof. apply literal_first_neverEmpty. Qed.

Section Exec.

Variable re : regex.
Hypothesis re_neverEmpty : neverEmpty re.

Lemma skipChars_length (n : nat) (s : string) :
  String.length (skipChars n s) = String.length s - n.
Proof.
  revert s. induction n as [|n IH]; intros [|c s]; simpl; try done.
Qed.

Lemma skipChars_add (a b : nat) (s : string) :
  skipChars a (skipChars b s) = skipChars (b + a) s.
Proof.
  revert s. induction b as [|b IH]; intros s; [done |].
  destruct s as [|c s]; simpl; [by destruct a | apply IH].
Qed.

Lemma scan_skip (content s : string) (pos k : nat) :
  k <= String.length s ->
  scan re content s pos k = scan re content (skipChars k s) (pos + k) 0.
Proof.
  revert s pos. induction k as [|k IH]; intros s pos Hk.
  - simpl. by rewrite Nat.add_0_r.
  - destruct s as [|c s]; simpl in Hk; [lia |].
    cbn [scan skipChars]. rewrite IH by lia. f_equal. lia.
Qed.

Lemma search_bounds (content s : string) (pos : nat) (m : RegExpMatch) :
  search re content s pos = Some m ->
  pos < lastIndex m <= pos + String.length s.
Proof.
  revert pos. induction s as [|c s IH]; intros pos; cbn [search].
  - destruct (matchHere re [] "" pos) as [[e marks]|] eqn:Hm; [| done].
    intros [= <-]. simpl.
    pose proof (matchHere_bounds _ _ _ _ _ Hm).
    pose proof (re_neverEmpty _ _ _ Hm). simpl in *. lia.
  - destruct (matchHere re [] (String c s) pos) as [[e marks]|] eqn:Hm.
    + intros [= <-]. simpl.
      pose proof (matchHere_bounds _ _ _ _ _ Hm).
      pose proof (re_neverEmpty _ _ _ Hm). simpl in *. lia.
    + intros Hs%IH. simpl. lia.
Qed.

(** One turn of the scan is one call of [exec]. *)
Lemma scan_search (content s : string) (pos : nat) :
  scan re content s pos 0
  = match search re content s pos with
    | Some m =>
        m :: scan re content (skipChars (lastIndex m - pos) s) (lastIndex m) 0
    | None => []
    end.
Proof.
  revert pos. induction s as [|c s IH]; intros pos; cbn [scan search].
  - destruct (matchHere re [] "" pos) as [[e marks]|] eqn:Hm; [| done].
    pose proof (matchHere_bounds _ _ _ _ _ Hm).
    pose proof (re_neverEmpty _ _ _ Hm). simpl in *. lia.
  - destruct (matchHere re [] (String c s) pos) as [[e marks]|] eqn:Hm.
    + pose proof (matchHere_bounds _ _ _ _ _ Hm) as Hb.
      pose proof (re_neverEmpty _ _ _ Hm) as Hn. simpl in Hb, Hn.
      cbn [mkGroups lastIndex fst]. f_equal.
      rewrite scan_skip by lia.
      destruct (e - pos) as [|k] eqn:Hk; [lia |]. cbn [skipChars].
      replace (S k - 1) with k by lia. f_equal. lia.
    + rewrite IH. destruct (search re content s (S pos)) as [m|] eqn:Hs; [| done].
      apply search_bounds in Hs.
      replace (lastIndex m - pos) with (S (lastIndex m - S pos)) by lia.
      done.
Qed.

Lemma execLoop_scan (content : string) (fuel i : nat) :
  i <= String.length content ->
  String.length content - i < fuel ->
  execLoop fuel re content i = scan re content (skipChars i content) i 0.
Proof.
  revert i. induction fuel as [|fuel IH]; intros i Hi Hfuel; [lia |].
  cbn [execLoop]. unfold exec.
  replace (i <=? String.length content) with true
    by (symmetry; by apply Nat.leb_le).
  rewrite scan_search.
  destruct (search re content (skipChars i content) i) as [m|] eqn:Hs; [| done].
  apply search_bounds in Hs. rewrite skipChars_length in Hs.
  f_equal. rewrite IH by lia. rewrite skipChars_add.
  by replace (i + (lastIndex m - i)) with (lastIndex m) by lia.
Qed.

(** The loop of [exec] calls is the one-pass scan. *)
Lemma execAll_scan (content : string) :
  execAll re content = scan re content content 0 0.
Proof. unfold execAll. by rewrite execLoop_scan by lia. Qed.

(** With one turn more than the text has characters the loop of [exec]
    calls has come to its end: more turns change nothing. *)
Lemma execLoop_execAll (content : string) (fuel : nat) :
  String.length content < fuel ->
  execLoop fuel re content 0 = execAll re content.
Proof. intros Hfuel. by rewrite execAll_scan, execLoop_scan by lia. Qed.

End Exec.

End ExecFacts.

(** ** The regular expression on a single declaration *)

Section RegexFacts.

Import JS Regex Parser.

#[local] Abbreviation chars := list_ascii_of_string.

Lemma all_Forall (p : ascii -> bool) (s : string) :
  Decl.all p s = true <-> Forall (fun c => p c = true) (chars s).
Proof.
  induction s as [|c s IH]; simpl.
  - split; [constructor | done].
  - rewrite andb_true_iff, IH. split.
    + intros [??]. by constructor.
    + intros H. by inversion H.
Qed.

Lemma string_app_nil_l (s : string) : "" +:+ s = s.
Proof. reflexivity. Qed.

Section Stars.

Context {R : Type} (p : ascii -> bool) (k : string -> nat -> option R).

Lemma starLazy_here (s : string) (pos : nat) (r : R) :
  k s pos = Some r -> starLazy p k s pos = Some r.
Proof. intros Hk. destruct s; simpl; by rewrite Hk. Qed.

(** A lazy star steps over the text on which its continuation fails. *)
Lemma starLazy_skip (a rest : string) (pos : nat) :
  Forall (fun c => p c = true) (chars a) ->
  (forall a1 a2, a = a1 +:+ a2 -> a2 <> "" ->
                 k (a2 +:+ rest) (pos + String.length a1) = None) ->
  starLazy p k (a +:+ rest) pos = starLazy p k rest (pos + String.length a).
Proof.
  revert pos. induction a as [|c a IH]; intros pos Hp Hk.
  - simpl. by rewrite Nat.add_0_r.
  - rewrite string_app_cons. cbn [starLazy].
    pose proof (Hk "" (String c a) eq_refl) as Hk0.
    rewrite string_app_cons, Nat.add_0_r in Hk0. rewrite Hk0 by done.
    inversion Hp as [|?? Hc Ha]; subst. rewrite Hc.
    rewrite IH; [f_equal; simpl; lia | done |].
    intros a1 a2 -> Ha2.
    replace (S pos + String.length a1) with (pos + String.length (String c a1))
      by (simpl; lia).
    by apply Hk.
Qed.

(** A greedy star takes the whole run when the continuation accepts what
    follows it. *)
Lemma starGreedy_run (a rest : string) (pos : nat) (r : R) :
  Forall (fun c => p c = true) (chars a) ->
  match rest with String c _ => p c = false | EmptyString => True end ->
  k rest (pos + String.length a) = Some r ->
  starGreedy p k (a +:+ rest) pos = Some r.
Proof.
  revert pos. induction a as [|c a IH]; intros pos Hp Hrest Hk.
  - rewrite string_app_nil_l. simpl in Hk. rewrite Nat.add_0_r in Hk.
    destruct rest as [|c rest]; simpl; [done |]. by rewrite Hrest.
  - rewrite string_app_cons. cbn [starGreedy].
    inversion Hp as [|?? Hc Ha]; subst. rewrite Hc.
    rewrite (IH (S pos)); [done | done | done |].
    rewrite <- Hk. f_equal. simpl. lia.
Qed.

End Stars.

(** White space followed by something else than a closing bracket is not
    the end of a target. *)
Lemma close_fails (marks : list nat) (a more : string) (pos : nat) :
  Forall (fun c => Ascii.eqb c "]" = false) (chars a) ->
  Exists (fun c => isWhiteSpace c = false) (chars a) ->
  starGreedy isWhiteSpace (matchHere [Lit "]]"] marks) (a +:+ more) pos = None.
Proof.
  revert pos. induction a as [|c a IH]; intros pos Hb Hn.
  - by inversion Hn.
  - rewrite string_app_cons. cbn [starGreedy].
    inversion Hb as [|?? Hc Ha]; subst.
    assert (matchHere [Lit "]]"] marks (String c (a +:+ more)) pos = None) as Hk.
    { cbn [matchHere stripPrefix]. rewrite Ascii.eqb_sym. by rewrite Hc. }
    destruct (isWhiteSpace c) eqn:Hws; [| done].
    rewrite IH; [done | done |].
    inversion Hn; [congruence | done].
Qed.

Lemma between_mid (pre mid post : string) :
  between (pre +:+ mid +:+ post) (String.length pre)
    (String.length pre + String.length mid) = mid.
Proof.
  unfold between.
  replace (String.length pre + String.length mid - String.length pre)
    with (String.length mid) by lia.
  apply substring_app_mid.
Qed.

Lemma scan_skip_rest (re : regex) (content s : string) (pos : nat) :
  (forall pos', matchHere re [] "" pos' = None) ->
  scan re content s pos (String.length s) = [].
Proof.
  intros Hre. revert pos. induction s as [|c s IH]; intros pos; simpl.
  - by rewrite Hre.
  - apply IH.
Qed.

End RegexFacts.

(** ** The descriptor grammar *)

Section DescriptorFacts.

Import JS Parser.

Lemma allDashes_hasAlnum (d : string) : allDashes d = true -> hasAlnum d = false.
Proof.
  induction d as [|c d IH]; simpl; [done |].
  intros [Hc Hd]%andb_prop. apply Ascii.eqb_eq in Hc as ->. by rewrite IH.
Qed.

Lemma allDashes_app_plus (pre : string) : allDashes (pre +:+ "+") = false.
Proof.
  induction pre as [|c pre IH]; [done |].
  rewrite string_app_cons. simpl. rewrite IH. apply andb_false_r.
Qed.

Lemma allDashes_no_whitespace (d : string) :
  allDashes d = true ->
  Forall (fun c => isWhiteSpace c = false) (list_ascii_of_string d).
Proof.
  induction d as [|c d IH]; simpl; [constructor |].
  intros [Hc Hd]%andb_prop. apply Ascii.eqb_eq in Hc as ->. constructor; auto.
Qed.

Lemma allDashPlus_allDashes (d : string) :
  allDashPlus d && allDashes d = allDashes d.
Proof.
  induction d as [|c d IH]; simpl; [done |].
  destruct (Ascii.eqb c "-"); simpl; [| apply andb_false_r].
  destruct (allDashes d); [| apply andb_false_r].
  by rewrite andb_true_r in IH |- *.
Qed.

(** The tests of [parseDescriptor] after the three exact tokens: the
    regular-expression guard only ever fires on runs of dashes. *)
Lemma parseDescriptor_unfold (descriptor : string) :
  parseDescriptor descriptor =
  let d := trim descriptor in
  if String.eqb d "" then None
  else if String.eqb d "-+" then Some (outgoing, None)
  else if String.eqb d "+-" then Some (incoming, None)
  else if String.eqb d "++" then Some (bidirectional, None)
  else if allDashes d then None
  else if startsWith d "+" && endsWith d "+" && (2 <? String.length d) then
    if String.eqb (trim (slice d 1 (-1))) "" then None
    else Some (bidirectional, Some (trim (slice d 1 (-1))))
  else if startsWith d "+" && negb (endsWith d "+") then
    if String.eqb (trim (sliceFrom d 1)) "" then None
    else Some (incoming, Some (trim (sliceFrom d 1)))
  else if endsWith d "+" && negb (startsWith d "+") then
    if String.eqb (trim (slice d 0 (-1))) "" then None
    else Some (outgoing, Some (trim (slice d 0 (-1))))
  else if hasAlnum d then Some (undirected, Some d)
  else None.
Proof.
  assert (forall s, (String.length s =? 0) = String.eqb s "") as Hlen
    by (by intros [|??]).
  unfold parseDescriptor. cbv zeta. rewrite !Hlen.
  destruct (String.eqb_spec (trim descriptor) "") as [|Hne]; [done |].
  destruct (String.eqb (trim descriptor) "-+"); [done |].
  destruct (String.eqb (trim descriptor) "+-"); [done |].
  destruct (String.eqb (trim descriptor) "++"); [done |].
  simpl. rewrite !andb_true_r.
  unfold onlyDashPlus, onlyDashes.
  destruct (String.eqb_spec (trim descriptor) ""); [done |]. simpl.
  apply (f_equal (fun b : bool => if b then _ else _)).
  apply allDashPlus_allDashes.
Qed.

(** What the specification calls a label: the trimmed text, or a
    malformed descriptor when nothing is left. *)
Lemma parseDescriptor_forms (descriptor : string) :
  let d := trim descriptor in
  let labelled dir text :=
    if String.eqb (trim text) "" then None
    else Some (dir, Some (trim text)) in
  (d = "-+" -> parseDescriptor descriptor = Some (outgoing, None))
  /\ (d = "+-" -> parseDescriptor descriptor = Some (incoming, None))
  /\ (d = "++" -> parseDescriptor descriptor = Some (bidirectional, None))
  /\ (forall interior,
         d = "+" +:+ interior +:+ "+" -> 2 < String.length d ->
         parseDescriptor descriptor = labelled bidirectional interior)
  /\ (forall rest,
         d = "+" +:+ rest -> endsWith d "+" = false -> d <> "+-" ->
         parseDescriptor descriptor = labelled incoming rest)
  /\ (forall pre,
         d = pre +:+ "+" -> startsWith d "+" = false -> d <> "-+" ->
         parseDescriptor descriptor = labelled outgoing pre)
  /\ (startsWith d "+" = false -> endsWith d "+" = false ->
      hasAlnum d = true ->
      parseDescriptor descriptor = Some (undirected, Some d))
  /\ (startsWith d "+" = false -> endsWith d "+" = false ->
      hasAlnum d = false ->
      parseDescriptor descriptor = None)
  /\ (d = "+" -> parseDescriptor descriptor = None).
Proof.
  intros d labelled. rewrite parseDescriptor_unfold. fold d. cbv zeta.
  split_and!.
  - by intros ->.
  - by intros ->.
  - by intros ->.
  - intros interior Hd Hlen.
    assert (endsWith d "+" = true) as He
      by (apply endsWith_iff; exists ("+" +:+ interior); by rewrite string_app_assoc).
    assert ((2 <? String.length d) = true) as Hl by (by apply Nat.ltb_lt).
    rewrite He, Hl. rewrite Hd in *. clear Hd d.
    destruct interior as [|c interior]; [simpl in Hlen; lia |].
    change ("+" +:+ String c interior +:+ "+")
      with (String "+" (String c interior) +:+ String "+" "").
    rewrite slice_interior. subst labelled.
    rewrite !string_app_cons. simpl.
    assert (String.eqb (interior +:+ "+") "" = false) as ->
      by (by destruct interior).
    by destruct (Ascii.eqb c "-"), (Ascii.eqb c "+").
  - intros rest Hd He Hne. rewrite He.
    destruct (String.eqb_spec d "+-") as [|_]; [done |].
    destruct (String.eqb_spec d "++") as [E|_];
      [by rewrite E in He |].
    rewrite Hd in *. clear Hd d. rewrite string_app_cons.
    change (String.eqb (String "+" ("" +:+ rest)) "-+") with false.
    change ("" +:+ rest) with rest.
    rewrite sliceFrom_tail. simpl. subst labelled. simpl.
    by destruct rest.
  - intros pre Hd Hs Hne. rewrite Hs.
    assert (endsWith d "+" = true) as He by (apply endsWith_iff; by exists pre).
    rewrite He. simpl.
    destruct (String.eqb_spec d "-+") as [|_]; [done |].
    destruct (String.eqb_spec d "+-") as [E|_]; [by rewrite E in He |].
    destruct (String.eqb_spec d "++") as [E|_]; [by rewrite E in Hs |].
    destruct (String.eqb_spec d "") as [E|_]; [by rewrite E in He |].
    rewrite Hd. rewrite allDashes_app_plus.
    change (pre +:+ "+") with (pre +:+ String "+" "").
    by rewrite slice_init.
  - intros Hs He Ha. rewrite Hs, He, Ha. simpl.
    destruct (String.eqb_spec d "") as [E|_]; [by rewrite E in Ha |].
    destruct (String.eqb_spec d "-+") as [E|_]; [by rewrite E in He |].
    destruct (String.eqb_spec d "+-") as [E|_]; [by rewrite E in Hs |].
    destruct (String.eqb_spec d "++") as [E|_]; [by rewrite E in Hs |].
    destruct (allDashes d) eqn:Hd; [| done].
    apply allDashes_hasAlnum in Hd. congruence.
  - intros Hs He Ha. rewrite Hs, He, Ha. simpl.
    destruct (String.eqb_spec d "") as [E|_]; [done |].
    destruct (String.eqb_spec d "-+") as [E|_]; [by rewrite E in He |].
    destruct (String.eqb_spec d "+-") as [E|_]; [by rewrite E in Hs |].
    destruct (String.eqb_spec d "++") as [E|_]; [by rewrite E in Hs |].
    by destruct (allDashes d).
  - by intros ->.
Qed.

(** Runs of dashes, and the empty descriptor, are refused. *)
Lemma parseDescriptor_dashes (descriptor : string) :
  allDashes descriptor = true -> parseDescriptor descriptor = None.
Proof.
  intros Hd. rewrite parseDescriptor_unfold.
  rewrite (trim_no_whitespace descriptor) by (by apply allDashes_no_whitespace).
  cbv zeta. rewrite Hd.
  destruct (String.eqb_spec descriptor "") as [|_]; [done |].
  destruct (String.eqb_spec descriptor "-+") as [E|_]; [by rewrite E in Hd |].
  destruct (String.eqb_spec descriptor "+-") as [E|_]; [by rewrite E in Hd |].
  destruct (String.eqb_spec descriptor "++") as [E|_]; [by rewrite E in Hd |].
  done.
Qed.

End DescriptorFacts.

(** ** Ids *)

Section IdFacts.

#[local] Abbreviation chars := list_ascii_of_string.

Lemma string_of_uint_no_colon (d : Decimal.uint) :
  ":"%char ∉ chars (NilEmpty.string_of_uint d).
Proof.
  induction d; simpl; rewrite ?not_elem_of_cons;
    try (split; [discriminate | assumption]).
  apply not_elem_of_nil.
Qed.

Lemma numberToString_no_colon (n : nat) :
  ":"%char ∉ chars (JS.numberToString n).
Proof. apply string_of_uint_no_colon. Qed.

Lemma numberToString_inj (n n' : nat) :
  JS.numberToString n = JS.numberToString n' -> n = n'.
Proof.
  unfold JS.numberToString. intros E. apply Unsigned.to_uint_inj.
  assert (Some (Nat.to_uint n) = Some (Nat.to_uint n')) as [= ->]; [| done].
  by rewrite <- !NilEmpty.usu, E.
Qed.

(** A text without colon, a colon, any text: the first part is determined. *)
Lemma split_at_colon (a a' b b' : list ascii) :
  ":"%char ∉ a -> ":"%char ∉ a' ->
  a ++ ":"%char :: b = a' ++ ":"%char :: b' -> a = a' /\ b = b'.
Proof.
  revert a'. induction a as [|x a IH]; intros [|x' a']; simpl.
  - intros _ _ [= ->]. done.
  - intros _ Hn [= <- _]. exfalso. apply Hn. apply elem_of_cons; by left.
  - intros Hn _ [= -> _]. exfalso. apply Hn. apply elem_of_cons; by left.
  - rewrite !not_elem_of_cons. intros [_ Ha] [_ Ha'] [= -> E].
    destruct (IH a' Ha Ha' E) as [-> ->]. done.
Qed.

Lemma generateId_inj (s : string) (l k l' k' : nat) :
  ParseLoop.generateId s l k = ParseLoop.generateId s l' k' -> l = l' /\ k = k'.
Proof.
  unfold ParseLoop.generateId. intros E.
  apply (inj (String.app s)) in E.
  apply (f_equal chars) in E. rewrite !chars_app in E. simpl in E.
  injection E as E.
  apply split_at_colon in E as [El Ek]; try apply numberToString_no_colon.
  apply chars_inj in El, Ek.
  split; by apply numberToString_inj.
Qed.

End IdFacts.

(** ** The scanning loop *)

Section LoopFacts.

Import JS Regex ParseLoop.

Variable re : regex.
Variable parseDescriptor : string -> option (Direction * option string).
Variables (sourceId : string) (lines : list string).

#[local] Abbreviation emit := (ParseSpec.emitted parseDescriptor sourceId lines).

Lemma step_emitted (rels : list Relationship) (k : nat) (m : RegExpMatch) :
  step parseDescriptor sourceId lines (rels, k) m
  = (rels ++ option_list (emit k m), S k).
Proof.
  unfold step, ParseSpec.emitted.
  destruct (String.eqb_spec (trim (group2 m)) "") as [->|Hne].
  - simpl. by rewrite app_nil_r.
  - replace (String.length (trim (group2 m)) =? 0) with false.
    + destruct (parseDescriptor (group1 m)) as [[dir lbl]|]; simpl; [done |].
      by rewrite app_nil_r.
    + symmetry. apply Nat.eqb_neq. by destruct (trim (group2 m)).
Qed.

Lemma foldl_step (ms : list RegExpMatch) (rels : list Relationship) (k : nat) :
  foldl (step parseDescriptor sourceId lines) (rels, k) ms
  = (rels ++ omap (fun km => emit km.1 km.2) (ParseSpec.numbered k ms),
     k + length ms).
Proof.
  revert rels k. induction ms as [|m ms IH]; intros rels k; cbn [foldl].
  - simpl. by rewrite app_nil_r, Nat.add_0_r.
  - rewrite step_emitted, IH. unfold ParseSpec.numbered. simpl.
    f_equal; [| lia]. rewrite <- app_assoc. f_equal.
    by destruct (emit k m).
Qed.

(** The loop is a numbering of all matches followed by the choice of the
    emitted ones; the counter ends as the number of matches. *)
Lemma processMatches_numbered (ms : list RegExpMatch) :
  processMatches parseDescriptor sourceId lines ms
  = (omap (fun km => emit km.1 km.2) (ParseSpec.numbered 0 ms), length ms).
Proof. unfold processMatches. by rewrite foldl_step. Qed.

Lemma numbered_lookup (start : nat) (ms : list RegExpMatch) (k : nat) (m : RegExpMatch) :
  ms !! k = Some m -> (start + k, m) ∈ ParseSpec.numbered start ms.
Proof.
  revert start k. induction ms as [|m0 ms IH]; intros start [|k]; simpl; try done.
  - intros [= ->]. rewrite Nat.add_0_r. apply elem_of_cons; by left.
  - intros Hk. apply elem_of_cons; right.
    replace (start + S k) with (S start + k) by lia. by apply IH.
Qed.

Lemma emitted_id (k : nat) (m : RegExpMatch) (r : Relationship) :
  emit k m = Some r ->
  id r = generateId sourceId (line r) k /\ sourceFile r = sourceId
  /\ targetFile r = trim (group2 m)
  /\ line r = lineNumberOf lines (index m).
Proof.
  unfold ParseSpec.emitted.
  destruct (String.eqb (trim (group2 m)) ""); [done |].
  destruct (parseDescriptor (group1 m)) as [[dir lbl]|]; [| done].
  by intros [= <-].
Qed.

Lemma numbered_ids_from (start : nat) (ms : list RegExpMatch) :
  Forall (fun r => exists l k, id r = generateId sourceId l k /\ start <= k)
    (omap (fun km => emit km.1 km.2) (ParseSpec.numbered start ms)).
Proof.
  revert start. induction ms as [|m ms IH]; intros start; [constructor |].
  unfold ParseSpec.numbered. simpl.
  assert (Forall (fun r => exists l k, id r = generateId sourceId l k /\ start <= k)
            (omap (fun km => emit km.1 km.2) (ParseSpec.numbered (S start) ms))) as Htl.
  { eapply Forall_impl; [apply IH |]. intros r (l & k & Hid & Hk). exists l, k.
    split; [done | lia]. }
  destruct (emit start m) as [r|] eqn:Hr; [| done].
  constructor; [| done].
  apply emitted_id in Hr as (Hid & _). eauto.
Qed.

Lemma numbered_ids_NoDup (start : nat) (ms : list RegExpMatch) :
  NoDup (id <$> omap (fun km => emit km.1 km.2) (ParseSpec.numbered start ms)).
Proof.
  revert start. induction ms as [|m ms IH]; intros start; [constructor |].
  unfold ParseSpec.numbered. simpl.
  destruct (emit start m) as [r|] eqn:Hr; [| apply IH].
  csimpl. apply NoDup_cons. split; [| apply IH].
  intros Hin. apply list_elem_of_fmap in Hin as (r' & Hid & Hr').
  pose proof (numbered_ids_from (S start) ms) as Hall.
  rewrite Forall_forall in Hall. destruct (Hall r' Hr') as (l & k & Hid' & Hk).
  apply emitted_id in Hr as (Hidr & _).
  rewrite Hidr, Hid' in Hid. apply generateId_inj in Hid as [_ ->]. lia.
Qed.

Lemma numbered_ids_increasing (start : nat) (ms : list RegExpMatch) :
  exists ks : list nat,
    Forall (fun k => start <= k) ks
    /\ StronglySorted lt ks
    /\ Forall2 (fun r k => id r = generateId sourceId (line r) k)
         (omap (fun km => emit km.1 km.2) (ParseSpec.numbered start ms)) ks.
Proof.
  revert start. induction ms as [|m ms IH]; intros start.
  - exists []. split_and!; constructor.
  - destruct (IH (S start)) as (ks & Hge & Hsorted & Hids).
    unfold ParseSpec.numbered. simpl.
    destruct (emit start m) as [r|] eqn:Hr.
    + exists (start :: ks). split_and!.
      * constructor; [lia |]. eapply Forall_impl; [exact Hge |]. simpl. lia.
      * constructor; [done |]. eapply Forall_impl; [exact Hge |]. simpl. lia.
      * constructor; [| done]. by apply emitted_id in Hr as (Hid & _).
    + exists ks. split_and!; try done.
      eapply Forall_impl; [exact Hge |]. simpl. lia.
Qed.

End LoopFacts.

Section ParseRelationshipsFacts.

Import JS Regex.

Variable re : regex.
Variable parseDescriptor : string -> option (Direction * option string).

Lemma parseRelationships_numbered (content sourceId : string) :
  ParseLoop.parseRelationships re parseDescriptor content sourceId
  = omap (fun km => ParseSpec.emitted parseDescriptor sourceId
                      (splitLines content) km.1 km.2)
      (ParseSpec.numbered 0 (execAll re content)).
Proof.
  unfold ParseLoop.parseRelationships. by rewrite processMatches_numbered.
Qed.

Lemma parseRelationships_ids_NoDup (content sourceId : string) :
  let rels :=
    ParseLoop.parseRelationships re parseDescriptor content sourceId in
  NoDup (id <$> rels)
  /\ exists ks : list nat,
       StronglySorted lt ks
       /\ Forall2 (fun r k => id r = ParseLoop.generateId sourceId (line r) k)
            rels ks.
Proof.
  intros rels. subst rels. rewrite parseRelationships_numbered. split.
  - apply numbered_ids_NoDup.
  - destruct (numbered_ids_increasing parseDescriptor sourceId
                (splitLines content) 0 (execAll re content))
      as (ks & _ & Hsorted & Hids).
    by exists ks.
Qed.

Lemma parseRelationships_counts_every_match (content sourceId : string) :
  let ms := execAll re content in
  let lines := splitLines content in
  let emit := ParseSpec.emitted parseDescriptor sourceId lines in
  ParseLoop.parseRelationships re parseDescriptor content sourceId
  = omap (fun km => emit km.1 km.2) (ParseSpec.numbered 0 ms)
  /\ snd (ParseLoop.processMatches parseDescriptor sourceId lines ms) = length ms
  /\ (forall k m,
         ms !! k = Some m ->
         trim (group2 m) = "" \/ parseDescriptor (group1 m) = None ->
         emit k m = None)
  /\ (forall k m r,
         ms !! k = Some m -> emit k m = Some r ->
         r ∈ ParseLoop.parseRelationships re parseDescriptor content sourceId
         /\ id r = ParseLoop.generateId sourceId (line r) k).
Proof.
  intros ms lines emit. split_and!.
  - apply parseRelationships_numbered.
  - by rewrite processMatches_numbered.
  - intros k m _ [Ht|Hd]; subst emit; unfold ParseSpec.emitted.
    + by rewrite Ht.
    + rewrite Hd. by destruct (String.eqb (trim (group2 m)) "").
  - intros k m r Hk Hr. split.
    + rewrite parseRelationships_numbered. apply list_elem_of_omap.
      exists (k, m). split; [| done].
      by apply (numbered_lookup 0 (execAll re content) k m).
    + by apply emitted_id in Hr as (Hid & _).
Qed.

End ParseRelationshipsFacts.

Lemma double_delimiter_ids_NoDup (content sourceId : string) :
  NoDup (id <$> Parser.parseRelationships content sourceId).
Proof. apply parseRelationships_ids_NoDup. Qed.

Section DeclarationFacts.

Import JS Regex Parser.

#[local] Abbreviation chars := list_ascii_of_string.

Lemma stripPrefix_app (p s : string) : stripPrefix p (p +:+ s) = Some s.
Proof.
  induction p as [|c p IH]; [by destruct s |].
  rewrite string_app_cons. cbn [stripPrefix]. by rewrite Ascii.eqb_refl.
Qed.

Lemma matchHere_Lit (l : string) (r : regex) (marks : list nat) (s : string) (pos : nat) :
  matchHere (Lit l :: r) marks (l +:+ s) pos
  = matchHere r marks s (pos + String.length l).
Proof. cbn [matchHere]. by rewrite stripPrefix_app. Qed.

Lemma matchHere_Lit_mismatch (c c' : ascii) (l : string) (r : regex)
    (marks : list nat) (s : string) (pos : nat) :
  Ascii.eqb c' c = false ->
  matchHere (Lit (String c l) :: r) marks (String c' s) pos = None.
Proof.
  intros Hc. cbn [matchHere stripPrefix]. rewrite Ascii.eqb_sym. by rewrite Hc.
Qed.

Lemma matchHere_Mark (r : regex) (marks : list nat) (s : string) (pos : nat) :
  matchHere (Mark :: r) marks s pos = matchHere r (marks ++ [pos]) s pos.
Proof. reflexivity. Qed.

Lemma matchHere_StarLazy (p : ascii -> bool) (r : regex) (marks : list nat)
    (s : string) (pos : nat) :
  matchHere (StarLazy p :: r) marks s pos = starLazy p (matchHere r marks) s pos.
Proof. reflexivity. Qed.

Lemma matchHere_StarGreedy (p : ascii -> bool) (r : regex) (marks : list nat)
    (s : string) (pos : nat) :
  matchHere (StarGreedy p :: r) marks s pos
  = starGreedy p (matchHere r marks) s pos.
Proof. reflexivity. Qed.

Lemma suffix_last_nonws (a1 a2 : string) :
  a2 <> "" -> headNonWs (rev (chars (a1 +:+ a2))) ->
  Exists (fun c => isWhiteSpace c = false) (chars a2).
Proof.
  intros Ha2 Hlast. rewrite chars_app, rev_app_distr in Hlast.
  apply Exists_exists.
  destruct (rev (chars a2)) as [|c l] eqn:Hrev.
  - apply (f_equal (@rev ascii)) in Hrev. rewrite rev_involutive in Hrev.
    simpl in Hrev. destruct a2; done.
  - exists c. split; [| done]. apply list_elem_of_In, in_rev. rewrite Hrev. by left.
Qed.

Lemma matchHere_declaration (d lead core trail : string) :
  let nd := String.length d in
  let nl := String.length lead in
  let nc := String.length core in
  let nt := String.length trail in
  Decl.all notGt d = true ->
  allWs (chars lead) -> allWs (chars trail) ->
  core <> "" ->
  Decl.all (fun c => dot c && negb (Ascii.eqb c "]")) core = true ->
  headNonWs (chars core) -> headNonWs (rev (chars core)) ->
  matchHere RELATIONSHIP_REGEX []
    ("<<" +:+ d +:+ ">>" +:+ "[[" +:+ lead +:+ core +:+ trail +:+ "]]") 0
  = Some (2 + nd + 4 + nl + nc + nt + 2,
          [2; 2 + nd; 2 + nd + 4 + nl; 2 + nd + 4 + nl + nc]).
Proof.
  intros nd nl nc nt Hd Hlead Htrail Hcore Hplain Hhead Hlast.
  unfold RELATIONSHIP_REGEX.
  rewrite matchHere_Lit, matchHere_Mark, matchHere_StarLazy.
  rewrite starLazy_skip.
  2: { by apply all_Forall. }
  2: { intros a1 a2 -> Ha2. destruct a2 as [|c a2]; [done |].
       apply all_Forall in Hd. rewrite chars_app in Hd.
       apply Forall_app in Hd as [_ Hd]. inversion Hd as [|?? Hc _]; subst.
       rewrite string_app_cons, matchHere_Mark.
       apply matchHere_Lit_mismatch. unfold notGt in Hc.
       by apply negb_true_iff in Hc. }
  apply starLazy_here.
  rewrite matchHere_Mark, !matchHere_Lit, matchHere_StarGreedy.
  apply starGreedy_run; [done | |].
  { destruct core as [|c core]; [done |]. by rewrite string_app_cons. }
  rewrite matchHere_Mark, matchHere_StarLazy.
  apply all_Forall in Hplain.
  rewrite starLazy_skip.
  2: { eapply Forall_impl; [exact Hplain |]. simpl. by intros c [??]%andb_prop. }
  2: { intros a1 a2 Hsplit Ha2.
       rewrite matchHere_Mark, matchHere_StarGreedy. apply close_fails.
       - rewrite Hsplit, chars_app in Hplain.
         apply Forall_app in Hplain as [_ Hplain].
         eapply Forall_impl; [exact Hplain |]. simpl.
         intros c [_ Hc]%andb_prop. by apply negb_true_iff in Hc.
       - rewrite Hsplit in Hlast. by apply (suffix_last_nonws a1 a2). }
  apply starLazy_here.
  rewrite matchHere_Mark, matchHere_StarGreedy.
  apply starGreedy_run; [done | done |].
  rewrite <- (string_app_nil_r "]]") at 2. rewrite matchHere_Lit.
  cbn [matchHere]. subst nd nl nc nt. simpl.
  by replace (String.length d + 2 + 2) with (String.length d + 4) by lia.
Qed.

Lemma trim_fixed (s : string) :
  headNonWs (chars s) -> headNonWs (rev (chars s)) -> trim s = s.
Proof.
  intros Hhead Hlast. unfold trim, trimEnd.
  rewrite (trimStart_headNonWs s) by done.
  rewrite trimStart_headNonWs by (by rewrite chars_rev).
  apply string_rev_involutive.
Qed.

Lemma trim_idempotent (s : string) : trim (trim s) = trim s.
Proof.
  destruct (trim_decompose s) as (lead & trail & _ & _ & _ & Hhead & Hlast).
  by apply trim_fixed.
Qed.

Lemma scan_match (re : regex) (content : string) (c : ascii) (s : string)
    (pos : nat) (res : nat * list nat) :
  matchHere re [] (String c s) pos = Some res ->
  scan re content (String c s) pos 0
  = mkGroups content pos res :: scan re content s (S pos) (fst res - pos - 1).
Proof. intros Hm. cbn [scan]. by rewrite Hm. Qed.

Lemma RELATIONSHIP_REGEX_not_empty (pos : nat) :
  matchHere RELATIONSHIP_REGEX [] "" pos = None.
Proof. reflexivity. Qed.

(** The only match in the text of one well-formed declaration is the
    declaration itself. *)
Lemma execAll_declaration (descriptor target : string) :
  Decl.descriptorText descriptor = true ->
  Decl.targetText target = true ->
  execAll RELATIONSHIP_REGEX (Decl.declaration descriptor target)
  = [ {| index := 0;
         lastIndex := String.length (Decl.declaration descriptor target);
         group1 := descriptor;
         group2 := trim target |} ].
Proof.
  intros Hd [Hne Hplain]%andb_prop.
  apply negb_true_iff, String.eqb_neq in Hne.
  destruct (trim_decompose target)
    as (lead & trail & Ht & Hlead & Htrail & Hhead & Hlast).
  set (core := trim target) in *.
  assert (Decl.declaration descriptor target
          = "<<" +:+ descriptor +:+ ">>" +:+ "[[" +:+ lead +:+ core +:+ trail
            +:+ "]]") as Hdecl.
  { unfold Decl.declaration. rewrite Ht at 1.
    by rewrite !string_app_assoc. }
  pose proof (matchHere_declaration descriptor lead core trail
                Hd Hlead Htrail Hne Hplain Hhead Hlast) as Hm.
  cbv zeta in Hm. rewrite (execAll_scan _ RELATIONSHIP_REGEX_neverEmpty).
  rewrite Hdecl at 2.
  rewrite (string_app_cons "<" "<"), string_app_cons in Hm |- *.
  rewrite (scan_match _ _ _ _ _ _ Hm).
  cbn [fst].
  replace (2 + String.length descriptor + 4 + String.length lead
           + String.length core + String.length trail + 2 - 0 - 1)
    with (String.length ("<" +:+ descriptor +:+ ">>" +:+ "[[" +:+ lead +:+ core
                         +:+ trail +:+ "]]"));
    [| rewrite !string_app_length; simpl; lia].
  rewrite scan_skip_rest by apply RELATIONSHIP_REGEX_not_empty.
  f_equal. unfold mkGroups. f_equal.
  - rewrite Hdecl, !string_app_length. simpl. lia.
  - change ([2; 2 + String.length descriptor;
             2 + String.length descriptor + 4 + String.length lead;
             2 + String.length descriptor + 4 + String.length lead
             + String.length core] !!! 0) with (String.length "<<").
    change ([2; 2 + String.length descriptor;
             2 + String.length descriptor + 4 + String.length lead;
             2 + String.length descriptor + 4 + String.length lead
             + String.length core] !!! 1)
      with (String.length "<<" + String.length descriptor).
    rewrite Hdecl. apply between_mid.
  - change ([2; 2 + String.length descriptor;
             2 + String.length descriptor + 4 + String.length lead;
             2 + String.length descriptor + 4 + String.length lead
             + String.length core] !!! 2)
      with (2 + String.length descriptor + 4 + String.length lead).
    change ([2; 2 + String.length descriptor;
             2 + String.length descriptor + 4 + String.length lead;
             2 + String.length descriptor + 4 + String.length lead
             + String.length core] !!! 3)
      with (2 + String.length descriptor + 4 + String.length lead
            + String.length core).
    replace (2 + String.length descriptor + 4 + String.length lead)
      with (String.length ("<<" +:+ descriptor +:+ ">>" +:+ "[[" +:+ lead))
      by (rewrite !string_app_length; simpl; lia).
    rewrite Hdecl.
    replace ("<<" +:+ descriptor +:+ ">>" +:+ "[[" +:+ lead +:+ core +:+ trail
             +:+ "]]")
      with (("<<" +:+ descriptor +:+ ">>" +:+ "[[" +:+ lead) +:+ core +:+ trail
            +:+ "]]")
      by (by rewrite !string_app_assoc).
    apply between_mid.
Qed.

Lemma lineNumberOf_start (lines : list string) :
  ParseLoop.lineNumberOf lines 0 = 1.
Proof.
  unfold ParseLoop.lineNumberOf. destruct lines as [|l lines]; simpl; [done |].
  by replace (0 <? String.length l + 1) with true
    by (symmetry; apply Nat.ltb_lt; lia).
Qed.

(** Parsing the text of one well-formed declaration: one relationship when
    the descriptor is accepted, none when it is refused. *)
Lemma parseRelationships_declaration (descriptor target sourceId : string) :
  Decl.descriptorText descriptor = true ->
  Decl.targetText target = true ->
  parseRelationships (Decl.declaration descriptor target) sourceId
  = match parseDescriptor descriptor with
    | Some (dir, lbl) =>
        [ mkRelationship (generateId sourceId 1 0) sourceId (trim target)
            dir lbl 1 ]
    | None => []
    end.
Proof.
  intros Hd Ht. unfold parseRelationships.
  rewrite parseRelationships_numbered, execAll_declaration by done.
  unfold ParseSpec.numbered. simpl. unfold ParseSpec.emitted. simpl.
  rewrite trim_idempotent, lineNumberOf_start.
  apply andb_prop in Ht as [Hne _]. apply negb_true_iff in Hne. rewrite Hne.
  by destruct (parseDescriptor descriptor) as [[dir lbl]|].
Qed.

End DeclarationFacts.

(** ** The parser *)

Lemma NoDup_fmap_elem_inj {A B : Type} (f : A -> B) (l : list A) (a b : A) :
  NoDup (f <$> l) -> a ∈ l -> b ∈ l -> f a = f b -> a = b.
Proof.
  induction l as [|c l IH]; csimpl; intros Hnd Ha Hb Hf.
  - by apply elem_of_nil in Ha.
  - apply NoDup_cons in Hnd as [Hc Hnd].
    apply elem_of_cons in Ha as [->|Ha], Hb as [->|Hb]; try done.
    + exfalso. apply Hc. rewrite Hf. by apply list_elem_of_fmap_2.
    + exfalso. apply Hc. rewrite <- Hf. by apply list_elem_of_fmap_2.
    + by apply IH.
Qed.

(** C2. [parseDescriptor] follows the grammar, read from top to bottom:
    the three exact tokens; [+text+] longer than two characters is
    bidirectional, [+text] incoming, [text+] outgoing, each labelled with
    the trimmed text and refused when nothing is left of it; any other text
    with a letter or digit is undirected and labelled with itself; the rest
    is refused.  A match with a target that is not blank and a descriptor
    that is accepted gives exactly one relationship, with that direction
    and label; so the text of one well-formed declaration parses to that
    one relationship. *)
Theorem parse_classifies_descriptor (descriptor : string) :
  let d := JS.trim descriptor in
  let labelled dir text :=
    if String.eqb (JS.trim text) "" then None
    else Some (dir, Some (JS.trim text)) in
  ((d = "-+" -> Parser.parseDescriptor descriptor = Some (outgoing, None))
   /\ (d = "+-" -> Parser.parseDescriptor descriptor = Some (incoming, None))
   /\ (d = "++" ->
       Parser.parseDescriptor descriptor = Some (bidirectional, None))
   /\ (forall interior,
          d = "+" +:+ interior +:+ "+" -> 2 < String.length d ->
          Parser.parseDescriptor descriptor = labelled bidirectional interior)
   /\ (forall rest,
          d = "+" +:+ rest -> JS.endsWith d "+" = false -> d <> "+-" ->
          Parser.parseDescriptor descriptor = labelled incoming rest)
   /\ (forall pre,
          d = pre +:+ "+" -> JS.startsWith d "+" = false -> d <> "-+" ->
          Parser.parseDescriptor descriptor = labelled outgoing pre)
   /\ (JS.startsWith d "+" = false -> JS.endsWith d "+" = false ->
       Parser.hasAlnum d = true ->
       Parser.parseDescriptor descriptor = Some (undirected, Some d))
   /\ (JS.startsWith d "+" = false -> JS.endsWith d "+" = false ->
       Parser.hasAlnum d = false ->
       Parser.parseDescriptor descriptor = None)
   /\ (d = "+" -> Parser.parseDescriptor descriptor = None))
  /\ (forall content sourceId k m dir lbl,
         Regex.execAll Parser.RELATIONSHIP_REGEX content !! k = Some m ->
         Regex.group1 m = descriptor ->
         JS.trim (Regex.group2 m) <> "" ->
         Parser.parseDescriptor descriptor = Some (dir, lbl) ->
         exists r,
           ParseSpec.emitted Parser.parseDescriptor sourceId
             (JS.splitLines content) k m = Some r
           /\ r ∈ Parser.parseRelationships content sourceId
           /\ direction r = dir /\ label r = lbl
           /\ (forall r',
                  r' ∈ Parser.parseRelationships content sourceId ->
                  id r' = id r -> r' = r))
  /\ (forall target sourceId dir lbl,
         Decl.descriptorText descriptor = true ->
         Decl.targetText target = true ->
         Parser.parseDescriptor descriptor = Some (dir, lbl) ->
         Parser.parseRelationships (Decl.declaration descriptor target) sourceId
         = [ mkRelationship (Parser.generateId sourceId 1 0) sourceId
               (JS.trim target) dir lbl 1 ]).
Proof.
  intros d labelled. split; [apply parseDescriptor_forms |]. split.
  - intros content sourceId k m dir lbl Hk Hm Ht Hparse.
    apply String.eqb_neq in Ht.
    eexists. split_and!.
    + unfold ParseSpec.emitted. rewrite Ht, Hm, Hparse. done.
    + unfold Parser.parseRelationships. rewrite parseRelationships_numbered.
      apply list_elem_of_omap. exists (k, m). split.
      * by apply (numbered_lookup 0 _ k m).
      * simpl. unfold ParseSpec.emitted. by rewrite Ht, Hm, Hparse.
    + done.
    + done.
    + intros r' Hr' Hid.
      pose proof (double_delimiter_ids_NoDup content sourceId) as Hnd.
      eapply (NoDup_fmap_elem_inj id); [exact Hnd | exact Hr' | | exact Hid].
      unfold Parser.parseRelationships. rewrite parseRelationships_numbered.
      apply list_elem_of_omap. exists (k, m). split.
      * by apply (numbered_lookup 0 _ k m).
      * simpl. unfold ParseSpec.emitted. by rewrite Ht, Hm, Hparse.
  - intros target sourceId dir lbl Hd Ht Hparse.
    rewrite parseRelationships_declaration by done. by rewrite Hparse.
Qed.

Lemma parse_classifies_descriptor_witness :
  Parser.parseDescriptor " + depends on +  "
  = Some (bidirectional, Some "depends on")
  /\ Parser.parseRelationships "<<manages+>>[[  Target  ]]" "Awal"
     = [ mkRelationship "Awal:1:0" "Awal" "Target" outgoing (Some "manages") 1 ].
Proof.
  destruct (parse_classifies_descriptor " + depends on +  ")
    as [(_ & _ & _ & Hbi & _) _].
  destruct (parse_classifies_descriptor "manages+") as (_ & _ & Hdecl).
  split.
  - apply (Hbi " depends on "); [reflexivity | vm_compute; lia].
  - apply (Hdecl "  Target  " "Awal" outgoing (Some "manages"));
      reflexivity.
Defined.

(** C3. A descriptor made of dashes only, or empty, is refused: the match
    adds no relationship, and the text of a declaration with such a
    descriptor parses to nothing. *)
Theorem dash_descriptors_yield_nothing (descriptor : string) :
  Forall (fun c => c = "-"%char) (list_ascii_of_string descriptor) ->
  Parser.parseDescriptor descriptor = None
  /\ (forall sourceId lines rels k m,
         Regex.group1 m = descriptor ->
         ParseLoop.step Parser.parseDescriptor sourceId lines (rels, k) m
         = (rels, S k))
  /\ (forall target sourceId,
         Decl.targetText target = true ->
         Parser.parseRelationships (Decl.declaration descriptor target) sourceId
         = []).
Proof.
  intros Hdash.
  assert (Parser.allDashes descriptor = true) as Hall.
  { induction descriptor as [|c d IH]; simpl; [done |].
    inversion Hdash as [|?? -> Hd]; subst. by rewrite IH. }
  pose proof (parseDescriptor_dashes descriptor Hall) as Hnone.
  split_and!; [done | |].
  - intros sourceId lines rels k m Hm.
    rewrite step_emitted. unfold ParseSpec.emitted. rewrite Hm, Hnone.
    destruct (String.eqb (JS.trim (Regex.group2 m)) ""); simpl;
      by rewrite app_nil_r.
  - intros target sourceId Ht.
    rewrite parseRelationships_declaration, Hnone; [done | | done].
    apply all_Forall. eapply Forall_impl; [exact Hdash |]. by intros c ->.
Qed.

Lemma dash_descriptors_yield_nothing_witness :
  Parser.parseDescriptor "---" = None
  /\ Parser.parseRelationships "<<--->>[[Target]]" "Awal" = []
  /\ Parser.parseRelationships "<<>>[[Target]]" "Awal" = [].
Proof.
  assert (Forall (fun c => c = "-"%char) (list_ascii_of_string "---")) as H3
    by (repeat constructor).
  assert (Forall (fun c => c = "-"%char) (list_ascii_of_string "")) as H0
    by constructor.
  destruct (dash_descriptors_yield_nothing "---" H3) as (Hp & _ & Hdecl).
  destruct (dash_descriptors_yield_nothing "" H0) as (_ & _ & Hdecl0).
  split_and!.
  - exact Hp.
  - apply (Hdecl "Target" "Awal"). reflexivity.
  - apply (Hdecl0 "Target" "Awal"). reflexivity.
Defined.

(** The single-delimiter parser differs by design: there [--] is the
    unlabelled undirected edge. *)
Lemma single_delimiter_double_dash :
  SingleDelimiter.parseRelationships "<-->[[Target]]" "Awal"
  = [ mkRelationship "Awal:1:0" "Awal" "Target" undirected None 1 ].
Proof. by vm_compute. Qed.

(** Every emitted relationship takes the source identifier as it is and
    the trimmed text of the target group as its target. *)
Lemma parseRelationships_fields (content sourceId : string) (r : Relationship) :
  r ∈ Parser.parseRelationships content sourceId ->
  sourceFile r = sourceId
  /\ exists m, m ∈ Regex.execAll Parser.RELATIONSHIP_REGEX content
               /\ targetFile r = JS.trim (Regex.group2 m).
Proof.
  unfold Parser.parseRelationships. rewrite parseRelationships_numbered.
  intros ([k m] & Hin & Hr)%list_elem_of_omap. simpl in Hr.
  apply emitted_id in Hr as (_ & Hs & Ht & _). split; [done |].
  exists m. split; [| done].
  unfold ParseSpec.numbered in Hin. by apply elem_of_zip_r in Hin.
Qed.

(** C4. The target is trimmed but neither its extension nor a path in it
    is removed, whereas the index strips the extension of the source.  *)
Theorem target_extension_is_kept :
  Parser.parseRelationships "<<-+>>[[Target.md]]" "Awal"
  = [ mkRelationship "Awal:1:0" "Awal" "Target.md" outgoing None 1 ]
  /\ RelationshipIndex.stripExtension "Target.md" = "Target"
  /\ RelationshipIndex.getAllRelationships
       (RelationshipIndex.reindexFile Parser.parseRelationships
          RelationshipIndex.empty "Awal.md" "<<-+>>[[ notes/Target.md ]]")
     = [ mkRelationship "Awal:1:0" "Awal" "notes/Target.md" outgoing None 1 ].
Proof. split_and!; by vm_compute. Qed.

(** C5. Every match of the pattern advances the occurrence counter,
    whether it is discarded (blank target, refused descriptor) or emitted:
    the relationships returned are those of the matches numbered from 0 over
    all matches, so the id of an emitted relationship holds the number of
    all earlier matches and does not depend on which of them were
    discarded. *)
Theorem discarded_matches_keep_their_id_slot (content sourceId : string) :
  let ms := Regex.execAll Parser.RELATIONSHIP_REGEX content in
  let lines := JS.splitLines content in
  let emit := ParseSpec.emitted Parser.parseDescriptor sourceId lines in
  Parser.parseRelationships content sourceId
  = omap (fun km => emit km.1 km.2) (ParseSpec.numbered 0 ms)
  /\ snd (ParseLoop.processMatches Parser.parseDescriptor sourceId lines ms)
     = length ms
  /\ (forall k m,
         ms !! k = Some m ->
         JS.trim (Regex.group2 m) = ""
         \/ Parser.parseDescriptor (Regex.group1 m) = None ->
         emit k m = None)
  /\ (forall k m r,
         ms !! k = Some m -> emit k m = Some r ->
         r ∈ Parser.parseRelationships content sourceId
         /\ id r = Parser.generateId sourceId (line r) k).
Proof. apply parseRelationships_counts_every_match. Qed.

(** The same holds for the single-delimiter parser, whose loop is the same
    text. *)
Lemma single_delimiter_counts_every_match (content sourceId : string) :
  SingleDelimiter.parseRelationships content sourceId
  = omap (fun km => ParseSpec.emitted SingleDelimiter.parseDescriptor sourceId
                      (JS.splitLines content) km.1 km.2)
      (ParseSpec.numbered 0
         (Regex.execAll SingleDelimiter.RELATIONSHIP_REGEX content)).
Proof. apply parseRelationships_numbered. Qed.

Lemma discarded_matches_keep_their_id_slot_witness :
  id <$> Parser.parseRelationships Examples.mixedNote "Awal"
  = [ "Awal:1:0"; "Awal:2:3" ]
  /\ (forall r,
        ParseSpec.emitted Parser.parseDescriptor "Awal"
          (JS.splitLines Examples.mixedNote) 3
          (Regex.mkMatch 43 60 "uses" "Gamma") = Some r ->
        r ∈ Parser.parseRelationships Examples.mixedNote "Awal"
        /\ id r = Parser.generateId "Awal" (line r) 3)
  /\ ParseSpec.emitted Parser.parseDescriptor "Awal"
       (JS.splitLines Examples.mixedNote) 1
       (Regex.mkMatch 16 27 "x" "") = None.
Proof.
  destruct (discarded_matches_keep_their_id_slot Examples.mixedNote "Awal")
    as (Hall & _ & Hdiscard & Hemit).
  split; [by vm_compute |]. split.
  - intros r. apply (Hemit 3 (Regex.mkMatch 43 60 "uses" "Gamma") r).
    by vm_compute.
  - apply (Hdiscard 1 (Regex.mkMatch 16 27 "x" "")); [by vm_compute |].
    left. by vm_compute.
Defined.

(** C10. The ids of the relationships returned by one call of
    [parseRelationships] are pairwise distinct: each id is
    [source:line:k] for an occurrence index [k], and the indices strictly
    increase along the returned list. *)
Theorem parseRelationships_ids_distinct (content sourceId : string) :
  let rels := Parser.parseRelationships content sourceId in
  NoDup (id <$> rels)
  /\ exists ks : list nat,
       StronglySorted lt ks
       /\ Forall2 (fun r k => id r = Parser.generateId sourceId (line r) k)
            rels ks.
Proof. apply parseRelationships_ids_NoDup. Qed.

Lemma single_delimiter_ids_distinct (content sourceId : string) :
  NoDup (id <$> SingleDelimiter.parseRelationships content sourceId).
Proof. apply parseRelationships_ids_NoDup. Qed.

(** [parseRelationships] in terms of the successive calls of [exec]: any
    bound above the length of the text lets the loop run to its end. *)
Lemma parseRelationships_exec_loop (content sourceId : string) (fuel : nat) :
  String.length content < fuel ->
  Parser.parseRelationships content sourceId
  = fst (ParseLoop.processMatches Parser.parseDescriptor sourceId
           (JS.splitLines content)
           (Regex.execLoop fuel Parser.RELATIONSHIP_REGEX content 0)).
Proof.
  intros Hfuel.
  by rewrite (execLoop_execAll _ RELATIONSHIP_REGEX_neverEmpty).
Qed.

Lemma single_delimiter_exec_loop (content sourceId : string) (fuel : nat) :
  String.length content < fuel ->
  SingleDelimiter.parseRelationships content sourceId
  = fst (ParseLoop.processMatches SingleDelimiter.parseDescriptor sourceId
           (JS.splitLines content)
           (Regex.execLoop fuel SingleDelimiter.RELATIONSHIP_REGEX content 0)).
Proof.
  intros Hfuel.
  by rewrite (execLoop_execAll _ single_delimiter_neverEmpty).
Qed.

(** ** The relationship index *)

Section IndexFacts.

Import RelationshipIndex.

Implicit Types (st : state) (r : Relationship).

Lemma JSSet_add_elem (s : JSSet.t) (x y : string) :
  y ∈ JSSet.add s x <-> y ∈ s \/ y = x.
Proof.
  unfold JSSet.add, JSSet.has. case_bool_decide as Hx.
  - split; [by left | intros [?| ->]; done].
  - rewrite elem_of_app, list_elem_of_singleton. done.
Qed.

Lemma JSSet_add_NoDup (s : JSSet.t) (x : string) :
  NoDup s -> NoDup (JSSet.add s x).
Proof.
  intros Hnd. unfold JSSet.add, JSSet.has. case_bool_decide as Hx; [done |].
  apply NoDup_app. split_and!; [done | | apply NoDup_singleton].
  intros y Hy ->%list_elem_of_singleton. done.
Qed.

Lemma getAllRelationships_elem st r :
  r ∈ getAllRelationships st <->
  exists k rels, (k, rels) ∈ st /\ r ∈ rels.
Proof.
  unfold getAllRelationships, JSMap.values. rewrite list_elem_of_join. split.
  - intros (rels & Hr & Hin). apply list_elem_of_fmap in Hin as ([k rels'] & -> & Hin).
    eauto.
  - intros (k & rels & Hin & Hr). exists rels. split; [done |].
    apply list_elem_of_fmap. by exists (k, rels).
Qed.

Lemma nodes_fold_elem (rs : list Relationship) (acc : JSSet.t) (x : string) :
  x ∈ foldl (fun nodes r => JSSet.add (JSSet.add nodes (sourceFile r)) (targetFile r))
        acc rs
  <-> x ∈ acc \/ exists r, r ∈ rs /\ (x = sourceFile r \/ x = targetFile r).
Proof.
  revert acc. induction rs as [|r rs IH]; intros acc; simpl.
  - split; [by left | intros [?|(r & Hr & _)]; [done | by apply elem_of_nil in Hr]].
  - rewrite IH, !JSSet_add_elem. split.
    + intros [[[?| ->]| ->]|(r' & Hr' & Hx)].
      * by left.
      * right. exists r. split; [apply elem_of_cons; by left | by left].
      * right. exists r. split; [apply elem_of_cons; by left | by right].
      * right. exists r'. split; [apply elem_of_cons; by right | done].
    + intros [?|(r' & Hr' & Hx)]; [by left; left; left |].
      apply elem_of_cons in Hr' as [->|Hr'].
      * destruct Hx as [->| ->]; left; [left; by right | by right].
      * right. eauto.
Qed.

(** [getAllNodes] is the union of every [sourceFile] and [targetFile]. *)
Lemma getAllNodes_elem st (x : string) :
  x ∈ getAllNodes st <->
  exists r, r ∈ getAllRelationships st /\ (x = sourceFile r \/ x = targetFile r).
Proof.
  unfold getAllNodes. rewrite nodes_fold_elem. split; [| by right].
  intros [Hx|?]; [by apply elem_of_nil in Hx | done].
Qed.

End IndexFacts.

(** C6. [reindexFile] stores under the (extension-stripped) source
    identifier exactly the parse of the supplied text, whatever was stored
    before, leaves every other entry alone, and a second call with the same
    identifier and text leaves the stored state as the first call left
    it. *)
Theorem reindexFile_replaces_and_is_idempotent
    (st : RelationshipIndex.state) (sourceId text : string) :
  let key := RelationshipIndex.stripExtension sourceId in
  let st' :=
    RelationshipIndex.reindexFile Parser.parseRelationships st sourceId text in
  JSMap.get st' key = Some (Parser.parseRelationships text key)
  /\ RelationshipIndex.getRelationshipsForFile st' sourceId
     = Parser.parseRelationships text key
  /\ (forall k, k <> key -> JSMap.get st' k = JSMap.get st k)
  /\ RelationshipIndex.reindexFile Parser.parseRelationships st' sourceId text
     = st'.
Proof.
  intros key st'. subst st'. unfold RelationshipIndex.reindexFile,
    RelationshipIndex.getRelationshipsForFile. fold key.
  split_and!.
  - apply get_set_eq.
  - by rewrite get_set_eq.
  - intros k Hk. by apply get_set_ne.
  - apply set_set_eq.
Qed.

Lemma reindexFile_replaces_and_is_idempotent_witness :
  let st' :=
    RelationshipIndex.reindexFile Parser.parseRelationships Examples.vault
      "Awal.md" "<<++>>[[Other]]" in
  JSMap.get st' "Awal"
  = Some [ mkRelationship "Awal:1:0" "Awal" "Other" bidirectional None 1 ]
  /\ JSMap.get st' "OldName" = JSMap.get Examples.vault "OldName"
  /\ RelationshipIndex.reindexFile Parser.parseRelationships st'
       "Awal.md" "<<++>>[[Other]]" = st'.
Proof.
  intros st'.
  destruct (reindexFile_replaces_and_is_idempotent Examples.vault
              "Awal.md" "<<++>>[[Other]]") as (Hentry & _ & Hother & Hidem).
  split; [exact Hentry |]. split; [| exact Hidem].
  apply Hother. discriminate.
Defined.

(** ** Renaming *)

Section RenameFacts.

Import RelationshipIndex.

Lemma indexOf_prefix (p r : string) : JS.indexOf (p +:+ r) p = Some 0.
Proof.
  pose proof (prefix_app p r) as Hp.
  destruct (p +:+ r); cbn [JS.indexOf]; by rewrite Hp.
Qed.

Lemma getSubstitution_noDollar (matched before after template : string) :
  Spec.noDollar template = true ->
  JS.getSubstitution matched before after template = template.
Proof.
  induction template as [|c t IH]; simpl; [done |].
  intros [Hc Ht]%andb_prop. apply negb_true_iff in Hc. rewrite Hc.
  by rewrite IH.
Qed.

(** Replacing a prefix by a dollar-free text. *)
Lemma replace_prefix (old new rest : string) :
  Spec.noDollar new = true ->
  JS.replace (old +:+ rest) old new = new +:+ rest.
Proof.
  intros Hnew. unfold JS.replace. rewrite indexOf_prefix.
  rewrite getSubstitution_noDollar by done. simpl.
  replace (String.substring 0 0 (old +:+ rest)) with "" by (by destruct (old +:+ rest)).
  rewrite string_app_length.
  replace (String.length old + String.length rest - String.length old)
    with (String.length rest) by lia.
  rewrite <- (string_app_nil_r rest) at 2.
  by rewrite substring_app_mid.
Qed.

Lemma replace_generateId (old new : string) (l k : nat) :
  Spec.noDollar new = true ->
  JS.replace (ParseLoop.generateId old l k) old new = ParseLoop.generateId new l k.
Proof. intros Hnew. unfold ParseLoop.generateId. by apply replace_prefix. Qed.

Lemma get_retargetEntry (m : list (string * list Relationship)) (old new k : string) :
  JSMap.get (retargetEntry old new <$> m) k
  = (fun rels : list Relationship => retarget old new <$> rels) <$> JSMap.get m k.
Proof.
  induction m as [|[k0 v0] m IH]; simpl; [done |].
  destruct (String.eqb_spec k0 k); [done | apply IH].
Qed.

Lemma retarget_spec (old new : string) (r : Relationship) :
  retarget old new r
  = if String.eqb (targetFile r) old then Spec.withTarget r new else r.
Proof. done. Qed.

Lemma renamedEntry_other (old new : string) (m : list (string * list Relationship)) :
  old ∉ JSMap.keys m -> Spec.renamedEntry old new <$> m = retargetEntry old new <$> m.
Proof.
  unfold JSMap.keys. induction m as [|[k0 v0] m IH]; [done |].
  rewrite !fmap_cons, not_elem_of_cons. intros [Hne Hm]. rewrite IH by done.
  f_equal. unfold Spec.renamedEntry. simpl.
  by destruct (String.eqb_spec k0 old).
Qed.

Lemma renamedEntry_moved (old new : string) (rels : list Relationship) :
  Spec.renamedEntry old new (old, rels)
  = (new, retarget old new <$> (moveSource old new <$> rels)).
Proof.
  unfold Spec.renamedEntry. simpl. rewrite String.eqb_refl. f_equal.
  by rewrite <- list_fmap_compose.
Qed.

Lemma total_length_perm (m m' : list (string * list Relationship)) :
  m ≡ₚ m' -> length (getAllRelationships m) = length (getAllRelationships m').
Proof.
  intros Hp. unfold getAllRelationships, JSMap.values. by rewrite Hp.
Qed.

Lemma total_length_renamedEntry (old new : string) (m : list (string * list Relationship)) :
  length (getAllRelationships (Spec.renamedEntry old new <$> m))
  = length (getAllRelationships m).
Proof.
  unfold getAllRelationships, JSMap.values.
  induction m as [|[k0 v0] m IH]; [done |].
  rewrite !fmap_cons.
  change (length ((Spec.renamedEntry old new (k0, v0)).2
                  ++ mjoin (Spec.renamedEntry old new <$> m).*2)
          = length (v0 ++ mjoin m.*2)).
  rewrite !length_app, IH. f_equal.
  unfold Spec.renamedEntry. simpl.
  destruct (String.eqb k0 old); simpl; by rewrite length_fmap.
Qed.

(** The state after the first half of [renameFile] when an entry moves to a
    key that is free (or to its own key). *)
Lemma rename_structure (st : state) (old new : string) (rels : list Relationship) :
  JSMap.wf st -> JSMap.get st old = Some rels ->
  new = old \/ JSMap.get st new = None ->
  exists m1 m2,
    st = m1 ++ (old, rels) :: m2
    /\ (old ∉ JSMap.keys m1) /\ (old ∉ JSMap.keys m2)
    /\ JSMap.set (JSMap.delete st old) new (moveSource old new <$> rels)
       = m1 ++ m2 ++ [(new, moveSource old new <$> rels)].
Proof.
  intros Hwf Hget Hnew.
  destruct (delete_split st old rels Hwf Hget) as (m1 & m2 & Hst & Hdel & H1 & H2).
  exists m1, m2. split_and!; try done.
  rewrite Hdel, app_assoc. apply set_not_key.
  intros Hin. destruct Hnew as [->|Hnone].
  - unfold JSMap.keys in *. rewrite fmap_app, elem_of_app in Hin. tauto.
  - apply get_None_not_key in Hnone. apply Hnone. rewrite Hst.
    unfold JSMap.keys in *. rewrite fmap_app, elem_of_app in Hin.
    rewrite fmap_app, elem_of_app, fmap_cons, elem_of_cons. tauto.
Qed.

End RenameFacts.

Lemma Forall2_fmap_graph {A B : Type} (P : A -> B -> Prop) (f : A -> B)
    (l : list A) :
  (forall a, P a (f a)) -> Forall2 P l (f <$> l).
Proof. intros HP. induction l; csimpl; constructor; auto. Qed.

(** C1 (amended). When the rename does not move an entry onto the key of
    another entry, and the new identifier holds no dollar sign:
    the entry of the old identifier is afterwards the entry of the new
    identifier, each of its relationships has the new identifier as
    [sourceFile] and an id in which the new identifier stands for the old
    one; in every other entry a relationship that targeted the old
    identifier targets the new one and is otherwise unchanged (its id too);
    the entries after the rename are the entries before it, each renamed,
    so that no relationship is lost or duplicated. *)
Theorem renameFile_moves_entry_and_retargets
    (st : RelationshipIndex.state) (oldName newName : string) :
  let oldId := RelationshipIndex.stripExtension oldName in
  let newId := RelationshipIndex.stripExtension newName in
  let st' := RelationshipIndex.renameFile st oldName newName in
  JSMap.wf st ->
  Spec.noDollar newId = true ->
  (JSMap.get st oldId = None \/ newId = oldId \/ JSMap.get st newId = None) ->
  (forall rels,
      JSMap.get st oldId = Some rels ->
      (newId <> oldId -> JSMap.get st' oldId = None)
      /\ exists rels',
           JSMap.get st' newId = Some rels'
           /\ Forall2
                (fun r r' =>
                   sourceFile r' = newId
                   /\ (forall ln k,
                          id r = Parser.generateId oldId ln k ->
                          id r' = Parser.generateId newId ln k)
                   /\ targetFile r'
                      = (if String.eqb (targetFile r) oldId then newId
                         else targetFile r)
                   /\ direction r' = direction r
                   /\ label r' = label r
                   /\ line r' = line r)
                rels rels')
  /\ (forall k rels,
         k <> oldId -> JSMap.get st k = Some rels ->
         exists rels',
           JSMap.get st' k = Some rels'
           /\ Forall2
                (fun r r' =>
                   r' = if String.eqb (targetFile r) oldId
                        then Spec.withTarget r newId else r)
                rels rels')
  /\ st' ≡ₚ Spec.renamedEntry oldId newId <$> st
  /\ length (RelationshipIndex.getAllRelationships st')
     = length (RelationshipIndex.getAllRelationships st).
Proof.
  intros oldId newId st' Hwf Hdollar Hfree.
  assert (st' ≡ₚ Spec.renamedEntry oldId newId <$> st) as Hperm.
  { subst st'. unfold RelationshipIndex.renameFile. fold oldId newId.
    destruct (JSMap.get st oldId) as [rels|] eqn:Hget.
    - assert (newId = oldId \/ JSMap.get st newId = None) as Hfree'
        by (destruct Hfree as [?|?]; [done | done]).
      destruct (rename_structure st oldId newId rels Hwf Hget Hfree')
        as (m1 & m2 & Hst & H1 & H2 & ->).
      rewrite Hst, !fmap_app, !fmap_cons.
      rewrite !renamedEntry_other by done. rewrite renamedEntry_moved. simpl.
      apply Permutation_app_head. symmetry. apply Permutation_cons_append.
    - apply get_None_not_key in Hget. by rewrite renamedEntry_other. }
  split_and!.
  - intros rels Hget. subst st'. unfold RelationshipIndex.renameFile.
    fold oldId newId. rewrite Hget. rewrite !get_retargetEntry. split.
    + intros Hne. rewrite get_set_ne by done. by rewrite get_delete_eq.
    + rewrite get_set_eq. simpl. eexists. split; [done |].
      rewrite <- list_fmap_compose. apply Forall2_fmap_graph.
      intros r. simpl. unfold RelationshipIndex.retarget. simpl.
      destruct (String.eqb (targetFile r) oldId); simpl; split_and!; try done.
      * intros ln k ->. by apply replace_generateId.
      * intros ln k ->. by apply replace_generateId.
  - intros k rels Hk Hget. subst st'. unfold RelationshipIndex.renameFile.
    fold oldId newId. rewrite get_retargetEntry.
    assert (JSMap.get
              (match JSMap.get st oldId with
               | Some rels0 =>
                   JSMap.set (JSMap.delete st oldId) newId
                     (RelationshipIndex.moveSource oldId newId <$> rels0)
               | None => st
               end) k = Some rels) as ->.
    { destruct (JSMap.get st oldId) as [rels0|] eqn:Hold; [| done].
      destruct (decide (k = newId)) as [->|Hkn].
      - destruct Hfree as [?|[?|?]]; congruence.
      - rewrite get_set_ne by done. by rewrite get_delete_ne. }
    simpl. eexists. split; [done |]. by apply Forall2_fmap_graph.
  - done.
  - rewrite (total_length_perm _ _ Hperm). apply total_length_renamedEntry.
Qed.


(** C1 as stated fails: renaming [A] to the name of the indexed note [B]
    overwrites the entry of [B]; the relationship of [B] to [Y] is gone. *)
Lemma renameFile_onto_existing_key_loses_entry :
  JSMap.wf Examples.twoNotes
  /\ RelationshipIndex.getAllRelationships Examples.twoNotes
     = [ mkRelationship "A:1:0" "A" "X" outgoing None 1;
         mkRelationship "B:1:0" "B" "Y" outgoing None 1 ]
  /\ RelationshipIndex.getAllRelationships
       (RelationshipIndex.renameFile Examples.twoNotes "A.md" "B.md")
     = [ mkRelationship "B:1:0" "B" "X" outgoing None 1 ]
  /\ length (RelationshipIndex.getAllRelationships
               (RelationshipIndex.renameFile Examples.twoNotes "A.md" "B.md"))
     <> length (RelationshipIndex.getAllRelationships Examples.twoNotes).
Proof.
  split_and!.
  - apply (bool_decide_unpack _). by vm_compute.
  - by vm_compute.
  - by vm_compute.
  - by vm_compute.
Qed.

(** A dollar sign in the new name is read by [replace] as a replacement
    pattern: the recomputed id is not the id of the new name. *)
Lemma renameFile_dollar_in_new_name :
  RelationshipIndex.getRelationshipsForFile
    (RelationshipIndex.renameFile Examples.twoNotes "A.md" "C$$D.md") "C$$D"
  = [ mkRelationship "C$D:1:0" "C$$D" "X" outgoing None 1 ]
  /\ Parser.generateId "C$$D" 1 0 = "C$$D:1:0".
Proof. split; by vm_compute. Qed.

Lemma renameFile_moves_entry_and_retargets_witness :
  JSMap.wf Examples.vault
  /\ Spec.noDollar "NewName" = true
  /\ RelationshipIndex.renameFile Examples.vault "OldName.md" "NewName.md"
     ≡ₚ Spec.renamedEntry "OldName" "NewName" <$> Examples.vault
  /\ length (RelationshipIndex.getAllRelationships
               (RelationshipIndex.renameFile Examples.vault
                  "OldName.md" "NewName.md"))
     = length (RelationshipIndex.getAllRelationships Examples.vault).
Proof.
  assert (JSMap.wf Examples.vault) as Hwf
    by (apply (bool_decide_unpack _); by vm_compute).
  assert (Spec.noDollar "NewName" = true) as Hd by reflexivity.
  split; [exact Hwf |]. split; [exact Hd |].
  apply (renameFile_moves_entry_and_retargets
           Examples.vault "OldName.md" "NewName.md" Hwf Hd).
  right; right. by vm_compute.
Defined.

(** ** Parallel edges *)

Section LinkFacts.

Import GraphRenderer.

#[local] Abbreviation chars := list_ascii_of_string.

(** The offset of the [i]-th link is the spacing times the number of
    earlier relationships with the same key. *)
Lemma buildLinks_lookup (rs : list Relationship) (edgeCounts : gmap string nat)
    (i : nat) (r : Relationship) :
  rs !! i = Some r ->
  exists lk,
    buildLinks edgeCounts rs !! i = Some lk
    /\ relationship lk = r
    /\ source lk = sourceFile r /\ target lk = targetFile r
    /\ curveOffset lk
       = (default 0 (edgeCounts !! edgeKey r) + GraphSpec.earlierOfKey rs i r)
         * GraphSpec.C.
Proof.
  revert edgeCounts i. induction rs as [|r0 rs IH]; intros m [|i]; simpl; try done.
  - intros [= ->]. eexists. split; [done |]. simpl. split_and!; try done.
    unfold GraphSpec.earlierOfKey. simpl. by rewrite Nat.add_0_r.
  - intros Hi.
    destruct (IH (<[edgeKey r0 := default 0 (m !! edgeKey r0) + 1]> m) i Hi)
      as (lk & Hlk & Hrel & Hs & Ht & Hoff).
    exists lk. split_and!; try done. rewrite Hoff. f_equal.
    unfold GraphSpec.earlierOfKey. simpl.
    destruct (String.eqb_spec (edgeKey r0) (edgeKey r)) as [E|Hne].
    + rewrite E, lookup_insert_eq. simpl. lia.
    + by rewrite lookup_insert_ne.
Qed.

Lemma buildLinks_length (rs : list Relationship) (edgeCounts : gmap string nat) :
  length (buildLinks edgeCounts rs) = length rs.
Proof.
  revert edgeCounts. induction rs as [|r rs IH]; intros m; simpl; [done |].
  by rewrite IH.
Qed.

Lemma ltb_asym (a b : string) : String.ltb a b = true -> String.ltb b a = false.
Proof.
  unfold String.ltb. rewrite (String.compare_antisym a b).
  by destruct (String.compare b a).
Qed.

Lemma ltb_total (a b : string) :
  String.ltb a b = false -> String.ltb b a = false -> a = b.
Proof.
  unfold String.ltb. rewrite (String.compare_antisym a b).
  destruct (String.compare b a) eqn:E; simpl; try done.
  intros _ _. symmetry. by apply String.compare_eq_iff.
Qed.

Lemma sortPair_comm (a b : string) : JS.sortPair a b = JS.sortPair b a.
Proof.
  unfold JS.sortPair.
  destruct (String.ltb b a) eqn:Hba, (String.ltb a b) eqn:Hab; try done.
  - apply ltb_asym in Hba. congruence.
  - by rewrite (ltb_total a b).
Qed.

Lemma sortPair_elems (a b : string) :
  JS.sortPair a b = (a, b) \/ JS.sortPair a b = (b, a).
Proof. unfold JS.sortPair. destruct (String.ltb b a); auto. Qed.

Lemma dashFree_no_dash (s : string) :
  GraphSpec.dashFree s = true -> "-"%char ∉ chars s.
Proof.
  unfold GraphSpec.dashFree. induction s as [|c s IH]; simpl.
  - intros _. apply not_elem_of_nil.
  - intros [Hc Hs]%andb_prop. apply not_elem_of_cons. split; [| auto].
    apply negb_true_iff, Ascii.eqb_neq in Hc. congruence.
Qed.

Lemma split_at_dash (a a' b b' : list ascii) :
  "-"%char ∉ a -> "-"%char ∉ a' ->
  a ++ "-"%char :: b = a' ++ "-"%char :: b' -> a = a' /\ b = b'.
Proof.
  revert a'. induction a as [|x a IH]; intros [|x' a']; simpl.
  - intros _ _ [= ->]. done.
  - intros _ Hn [= <- _]. exfalso. apply Hn. apply elem_of_cons; by left.
  - intros Hn _ [= -> _]. exfalso. apply Hn. apply elem_of_cons; by left.
  - rewrite !not_elem_of_cons. intros [_ Ha] [_ Ha'] [= -> E].
    destruct (IH a' Ha Ha' E) as [-> ->]. done.
Qed.

Lemma joined_inj (a b a' b' : string) :
  GraphSpec.dashFree a = true -> GraphSpec.dashFree a' = true ->
  a +:+ "--" +:+ b = a' +:+ "--" +:+ b' -> a = a' /\ b = b'.
Proof.
  intros Ha Ha' E. apply (f_equal chars) in E. rewrite !chars_app in E.
  simpl in E.
  apply split_at_dash in E as [E1 E2]; try by apply dashFree_no_dash.
  injection E2 as E2. split; by apply chars_inj.
Qed.

(** Between identifiers without dash the key identifies the unordered
    pair. *)
Lemma edgeKey_samePair (r r' : Relationship) :
  GraphSpec.dashFreeEnds r = true -> GraphSpec.dashFreeEnds r' = true ->
  String.eqb (edgeKey r) (edgeKey r') = GraphSpec.samePair r r'.
Proof.
  unfold GraphSpec.dashFreeEnds, GraphSpec.samePair, edgeKey.
  intros [Hs Ht]%andb_prop [Hs' Ht']%andb_prop.
  apply eq_true_iff_eq. rewrite String.eqb_eq, orb_true_iff, !andb_true_iff,
    !String.eqb_eq.
  split.
  - intros E.
    destruct (sortPair_elems (sourceFile r) (targetFile r)) as [H1|H1],
      (sortPair_elems (sourceFile r') (targetFile r')) as [H2|H2];
      rewrite H1, H2 in E; apply joined_inj in E as [??]; auto.
  - intros [[E1 E2]|[E1 E2]].
    + by rewrite E1, E2.
    + by rewrite E1, E2, sortPair_comm.
Qed.

Lemma earlierOfKey_earlierOfPair (rs : list Relationship) (i : nat) (r : Relationship) :
  Forall (fun r' => GraphSpec.dashFreeEnds r' = true) rs ->
  GraphSpec.dashFreeEnds r = true ->
  GraphSpec.earlierOfKey rs i r = GraphSpec.earlierOfPair rs i r.
Proof.
  intros Hrs Hr. unfold GraphSpec.earlierOfKey, GraphSpec.earlierOfPair.
  f_equal. apply List.filter_ext_in. intros r' Hin.
  apply edgeKey_samePair; [| done].
  rewrite Forall_forall in Hrs. apply Hrs.
  apply list_elem_of_In in Hin. apply elem_of_take in Hin as (j & Hj & _).
  by apply list_elem_of_lookup_2 in Hj.
Qed.

(** Between identifiers without dash, the [k]-th relationship of an
    unordered pair gets the offset [k * C]. *)
Lemma curveOffset_of_pair (rs : list Relationship) (i : nat) (r : Relationship) :
  Forall (fun r' => GraphSpec.dashFreeEnds r' = true) rs ->
  rs !! i = Some r ->
  exists lk,
    buildLinks ∅ rs !! i = Some lk /\ relationship lk = r
    /\ curveOffset lk = GraphSpec.earlierOfPair rs i r * GraphSpec.C.
Proof.
  intros Hrs Hi.
  destruct (buildLinks_lookup rs ∅ i r Hi) as (lk & Hlk & Hrel & _ & _ & Hoff).
  exists lk. split_and!; try done.
  rewrite Hoff, lookup_empty. simpl. f_equal.
  apply earlierOfKey_earlierOfPair; [done |].
  rewrite Forall_forall in Hrs. apply Hrs. by apply list_elem_of_lookup_2 in Hi.
Qed.

End LinkFacts.

(** C8. The key of a pair is the two identifiers, sorted and joined by
    [--]; identifiers that hold a dash make different pairs share a key.
    The notes [a] and [a--b] declare one relationship each, to [b--c] and
    to [c]: two different pairs, one key, and the second edge is bent by one
    step although it is the only edge of its pair. *)
Theorem curveOffset_key_collision :
  let r1 := mkRelationship "a:1:0" "a" "b--c" outgoing None 1 in
  let r2 := mkRelationship "a--b:1:0" "a--b" "c" outgoing None 1 in
  RelationshipIndex.getAllRelationships
    (RelationshipIndex.fullScan Parser.parseRelationships
       [ ("a", "<<-+>>[[b--c]]"); ("a--b", "<<-+>>[[c]]") ])
  = [r1; r2]
  /\ GraphSpec.samePair r1 r2 = false
  /\ GraphRenderer.edgeKey r1 = "a--b--c"
  /\ GraphRenderer.edgeKey r2 = "a--b--c"
  /\ GraphSpec.earlierOfPair [r1; r2] 1 r2 = 0
  /\ GraphRenderer.curveOffset <$> GraphRenderer.buildLinks ∅ [r1; r2]
     = [0; 30].
Proof. split_and!; by vm_compute. Qed.

(** ** Layout continuity *)

Section NodeFacts.

Import GraphRenderer.

Context {num : Type} `{JSNumber num}.

Implicit Types (n : GraphNode num) (ns : list (GraphNode num)).

Lemma oldNodeMap_fold_absent ns (m : gmap string (GraphNode num)) (name : string) :
  name ∉ GraphRenderer.id <$> ns ->
  foldl (fun m n => <[GraphRenderer.id n := n]> m) m ns !! name = m !! name.
Proof.
  revert m. induction ns as [|n0 ns IH]; intros m; [done |].
  rewrite fmap_cons, not_elem_of_cons. intros [Hne Hns]. cbn [foldl].
  rewrite IH by done. by rewrite lookup_insert_ne.
Qed.

Lemma oldNodeMap_fold_present ns (m : gmap string (GraphNode num)) n :
  NoDup (GraphRenderer.id <$> ns) -> n ∈ ns ->
  foldl (fun m n => <[GraphRenderer.id n := n]> m) m ns !! GraphRenderer.id n = Some n.
Proof.
  revert m. induction ns as [|n0 ns IH]; intros m Hnd Hin.
  - by apply elem_of_nil in Hin.
  - rewrite fmap_cons in Hnd. apply NoDup_cons in Hnd as [Hn0 Hnd].
    cbn [foldl]. apply elem_of_cons in Hin as [->|Hin].
    + rewrite oldNodeMap_fold_absent by done. apply lookup_insert_eq.
    + by apply IH.
Qed.

(** [oldNodeMap.get(name)] is the previous node of that name. *)
Lemma oldNodeMap_present ns n :
  NoDup (GraphRenderer.id <$> ns) -> n ∈ ns ->
  buildOldNodeMap ns !! GraphRenderer.id n = Some n.
Proof. apply oldNodeMap_fold_present. Qed.


(** The node [makeNode] appends, as a function of the counter of random
    draws. *)
Lemma makeNode_spec (st : state num) (random : nat -> num)
    (m : gmap string (GraphNode num)) (out : list (GraphNode num)) (c : nat)
    (name : string) :
  exists n' c',
    makeNode st random m (out, c) name = (out ++ [n'], c')
    /\ GraphRenderer.id n' = name
    /\ isGhost n' = negb (bool_decide (name ∈ existingFiles st))
    /\ match m !! name with
       | Some n =>
           vx n' = vx n /\ vy n' = vy n
           /\ (is_Some (x n) -> x n' = x n)
           /\ (is_Some (y n) -> y n' = y n)
       | None =>
           exists i j,
             x n' = Some (seed (width st) (random i))
             /\ y n' = Some (seed (height st) (random j))
             /\ vx n' = None /\ vy n' = None
       end.
Proof.
  unfold makeNode.
  destruct (orSeed random (m !! name ≫= x) (width st) c) as [x' c1] eqn:Hx.
  destruct (orSeed random (m !! name ≫= y) (height st) c1) as [y' c2] eqn:Hy.
  eexists _, _. split; [done |]. simpl. split_and!; try done.
  destruct (m !! name) as [n|]; simpl in *.
  - split_and!; try done.
    + intros [v Hv]. rewrite Hv in Hx. simpl in Hx. by injection Hx as <- _.
    + intros [v Hv]. rewrite Hv in Hy. simpl in Hy. by injection Hy as <- _.
  - injection Hx as <- <-. injection Hy as <- _. by exists c, (S c).
Qed.

Lemma makeNode_fold_elem (st : state num) (random : nat -> num)
    (m : gmap string (GraphNode num)) (names : list string)
    (out : list (GraphNode num)) (c : nat) (n' : GraphNode num) :
  n' ∈ fst (foldl (makeNode st random m) (out, c) names) ->
  n' ∈ out
  \/ exists out0 c0 c1,
       makeNode st random m (out0, c0) (GraphRenderer.id n') = (out0 ++ [n'], c1)
       /\ GraphRenderer.id n' ∈ names.
Proof.
  revert out c. induction names as [|name names IH]; intros out c; cbn [foldl].
  - by left.
  - destruct (makeNode_spec st random m out c name)
      as (n1 & c1 & Hmk & Hid & _).
    rewrite Hmk. intros Hin. apply IH in Hin as [Hin|(out0 & c0 & c2 & Hmk' & Hin)].
    + apply elem_of_app in Hin as [Hin|Hin]; [by left |].
      apply list_elem_of_singleton in Hin as ->. right.
      exists out, c, c1. rewrite Hid. split; [done |]. apply elem_of_cons; by left.
    + right. exists out0, c0, c2. split; [done |]. apply elem_of_cons; by right.
Qed.

Lemma makeNode_fold_ids (st : state num) (random : nat -> num)
    (m : gmap string (GraphNode num)) (names : list string)
    (out : list (GraphNode num)) (c : nat) :
  GraphRenderer.id <$> fst (foldl (makeNode st random m) (out, c) names)
  = (GraphRenderer.id <$> out) ++ names.
Proof.
  revert out c. induction names as [|name names IH]; intros out c; cbn [foldl].
  - by rewrite app_nil_r.
  - destruct (makeNode_spec st random m out c name)
      as (n1 & c1 & Hmk & Hid & _).
    rewrite Hmk, IH, fmap_app. simpl. rewrite Hid. by rewrite <- app_assoc.
Qed.

Lemma buildNodeSet_NoDup (nodeNames : list string) (filtered : list Relationship) :
  NoDup (buildNodeSet nodeNames filtered).
Proof.
  unfold buildNodeSet.
  assert (forall (l : list string) (s : JSSet.t),
             NoDup s -> NoDup (foldl JSSet.add s l)) as Hnames.
  { induction l as [|a l IH]; intros s Hs; cbn [foldl]; [done |].
    by apply IH, JSSet_add_NoDup. }
  assert (forall (l : list Relationship) (s : JSSet.t),
             NoDup s ->
             NoDup (foldl (fun s r => JSSet.add (JSSet.add s (sourceFile r))
                                        (targetFile r)) s l)) as Hrels.
  { induction l as [|a l IH]; intros s Hs; cbn [foldl]; [done |].
    by apply IH, JSSet_add_NoDup, JSSet_add_NoDup. }
  apply Hrels, Hnames. constructor.
Qed.

Lemma buildNodeSet_names (nodeNames : list string) (filtered : list Relationship)
    (name : string) :
  name ∈ nodeNames -> name ∈ buildNodeSet nodeNames filtered.
Proof.
  intros Hin. unfold buildNodeSet. apply nodes_fold_elem. left.
  revert Hin. generalize (@nil string).
  induction nodeNames as [|a l IH]; intros s Hin; cbn [foldl].
  - by apply elem_of_nil in Hin.
  - apply elem_of_cons in Hin as [->|Hin]; [| by apply IH].
    assert (forall (l' : list string) (s' : JSSet.t) (y : string),
               y ∈ s' -> y ∈ foldl JSSet.add s' l') as Hkeep.
    { induction l' as [|b l' IHl]; intros s' y Hy; cbn [foldl]; [done |].
      apply IHl, JSSet_add_elem. by left. }
    apply Hkeep, JSSet_add_elem. by right.
Qed.

(** Every name handed to [update] becomes a node, and a node is a ghost
    exactly when its name is not an existing file. *)
Lemma update_node_of_name (st : state num) (random : nat -> num)
    (nodeNames : list string) (relationships : list Relationship)
    (name : string) :
  name ∈ nodeNames ->
  exists n',
    n' ∈ nodes (update st random nodeNames relationships)
    /\ GraphRenderer.id n' = name
    /\ isGhost n' = negb (bool_decide (name ∈ existingFiles st)).
Proof.
  intros Hin. unfold update, buildNodes. simpl.
  set (names := buildNodeSet nodeNames _).
  set (m := buildOldNodeMap (nodes st)).
  assert (name ∈ GraphRenderer.id <$> (foldl (makeNode st random m) ([], 0) names).1)
    as (n' & Hid & Hn')%list_elem_of_fmap.
  { rewrite makeNode_fold_ids. simpl. by apply buildNodeSet_names. }
  exists n'. split_and!; [done | done |].
  apply makeNode_fold_elem in Hn' as [Hn'|(o & c0 & c1 & Hmk & _)];
    [by apply elem_of_nil in Hn' |].
  destruct (makeNode_spec st random m o c0 (GraphRenderer.id n'))
    as (n1 & c1' & Hmk' & _ & Hghost & _).
  rewrite Hmk in Hmk'. injection Hmk' as Hn1%app_inv_head _.
  injection Hn1 as <-. by rewrite Hid.
Qed.

End NodeFacts.



(** ** Removal and ghost nodes *)

(** C7. [removeFile] deletes the entry keyed by the (extension-stripped)
    identifier and nothing else: every other entry is unchanged, so a
    relationship of another source that targets the removed identifier is
    still stored, the identifier is still a node of the graph, and the graph
    built from the index shows it as a ghost once it is no longer an
    existing file. *)
Theorem removeFile_deletes_only_own_entry {num : Type} `{JSNumber num}
    (st : RelationshipIndex.state) (sourceId : string)
    (view : GraphRenderer.state num) (random : nat -> num) :
  let key := RelationshipIndex.stripExtension sourceId in
  let st' := RelationshipIndex.removeFile st sourceId in
  JSMap.get st' key = None
  /\ (forall k, k <> key -> JSMap.get st' k = JSMap.get st k)
  /\ (forall k rels r,
         k <> key -> JSMap.get st k = Some rels -> r ∈ rels ->
         targetFile r = key ->
         r ∈ RelationshipIndex.getAllRelationships st'
         /\ key ∈ RelationshipIndex.getAllNodes st'
         /\ (key ∉ GraphRenderer.existingFiles view ->
             exists n,
               n ∈ GraphRenderer.nodes
                     (GraphRenderer.update view random
                        (RelationshipIndex.getAllNodes st')
                        (RelationshipIndex.getAllRelationships st'))
               /\ GraphRenderer.id n = key
               /\ GraphRenderer.isGhost n = true)).
Proof.
  intros key st'. subst st'. unfold RelationshipIndex.removeFile. fold key.
  split_and!.
  - apply get_delete_eq.
  - intros k Hk. by apply get_delete_ne.
  - intros k rels r Hk Hget Hr Ht.
    assert (r ∈ RelationshipIndex.getAllRelationships (JSMap.delete st key)) as Hin.
    { apply getAllRelationships_elem. exists k, rels. split; [| done].
      apply get_Some_elem. by rewrite get_delete_ne. }
    assert (key ∈ RelationshipIndex.getAllNodes (JSMap.delete st key)) as Hnode.
    { apply getAllNodes_elem. exists r. split; [done | by right]. }
    split_and!; [done | done |].
    intros Hghost.
    destruct (update_node_of_name view random _
                (RelationshipIndex.getAllRelationships (JSMap.delete st key))
                key Hnode) as (n & Hn & Hid & Hg).
    exists n. split_and!; [done | done |].
    rewrite Hg. by rewrite bool_decide_eq_false_2.
Qed.

Lemma removeFile_deletes_only_own_entry_witness :
  let st' := RelationshipIndex.removeFile Examples.vault "OldName.md" in
  JSMap.get st' "OldName" = None
  /\ JSMap.get st' "Awal" = JSMap.get Examples.vault "Awal"
  /\ "OldName" ∈ RelationshipIndex.getAllNodes st'
  /\ exists n,
       n ∈ GraphRenderer.nodes
             (GraphRenderer.update Examples.layout Examples.random
                (RelationshipIndex.getAllNodes st')
                (RelationshipIndex.getAllRelationships st'))
       /\ GraphRenderer.id n = "OldName"
       /\ GraphRenderer.isGhost n = true.
Proof.
  intros st'.
  destruct (removeFile_deletes_only_own_entry Examples.vault "OldName.md"
              Examples.layout Examples.random) as (Hgone & Hother & Htarget).
  assert ("Awal" <> "OldName") as Hne by discriminate.
  destruct (Htarget "Awal"
              [ mkRelationship "Awal:1:0" "Awal" "OldName" outgoing None 1;
                mkRelationship "Awal:1:1" "Awal" "Other" undirected (Some "uses") 1 ]
              (mkRelationship "Awal:1:0" "Awal" "OldName" outgoing None 1)
              Hne eq_refl (list_elem_of_here _ _) eq_refl)
    as (_ & Hnode & Hghost).
  split; [exact Hgone |]. split; [exact (Hother "Awal" Hne) |].
  split; [exact Hnode |].
  apply Hghost. simpl. intros Hin. apply elem_of_singleton in Hin. discriminate.
Defined.

(** * Further properties *)

(** ** The shape of a match *)

Section MatchFacts.

Import Regex MatchSpec.

Lemma stripPrefix_sound (l s s' : string) :
  stripPrefix l s = Some s' -> s = l +:+ s'.
Proof.
  revert s. induction l as [|a l IH]; intros s; simpl.
  - by intros [= ->].
  - destruct s as [|b s]; [done|].
    destruct (Ascii.eqb_spec a b) as [->|]; [|done].
    intros Hs. rewrite string_app_cons. f_equal. by apply IH.
Qed.

Lemma starLazy_sound {R : Type} (p : ascii -> bool)
    (k : string -> nat -> option R) (s : string) (pos : nat) (r : R) :
  starLazy p k s pos = Some r ->
  exists a s', s = a +:+ s' /\ Decl.all p a = true
               /\ k s' (pos + String.length a) = Some r.
Proof.
  revert pos. induction s as [|c s IH]; intros pos; simpl.
  - destruct (k "" pos) eqn:Hk; [|done]. intros [= ->].
    exists "", "". by rewrite Nat.add_0_r.
  - destruct (k (String c s) pos) eqn:Hk.
    + intros [= ->]. exists "", (String c s). by rewrite Nat.add_0_r.
    + destruct (p c) eqn:Hp; [|done]. intros Hs.
      destruct (IH _ Hs) as (a & s' & -> & Ha & Hk').
      exists (String c a), s'. rewrite string_app_cons. simpl.
      rewrite Hp, Ha. split; [done|]. split; [done|].
      by replace (pos + S (String.length a)) with (S pos + String.length a) by lia.
Qed.

Lemma starGreedy_sound {R : Type} (p : ascii -> bool)
    (k : string -> nat -> option R) (s : string) (pos : nat) (r : R) :
  starGreedy p k s pos = Some r ->
  exists a s', s = a +:+ s' /\ Decl.all p a = true
               /\ k s' (pos + String.length a) = Some r.
Proof.
  revert pos. induction s as [|c s IH]; intros pos; simpl.
  - intros Hk. exists "", "". by rewrite Nat.add_0_r.
  - assert (Hhere : k (String c s) pos = Some r ->
      exists a s', String c s = a +:+ s' /\ Decl.all p a = true
                   /\ k s' (pos + String.length a) = Some r).
    { intros Hk. exists "", (String c s). by rewrite Nat.add_0_r. }
    destruct (p c) eqn:Hp; [|done].
    destruct (starGreedy p k s (S pos)) eqn:Hs; [|done].
    intros [= ->]. destruct (IH _ Hs) as (a & s' & -> & Ha & Hk').
    exists (String c a), s'. rewrite string_app_cons. simpl.
    rewrite Hp, Ha. split; [done|]. split; [done|].
    by replace (pos + S (String.length a)) with (S pos + String.length a) by lia.
Qed.

Lemma matchHere_accepts (r : regex) (marks : list nat) (s : string) (pos : nat)
    (res : nat * list nat) :
  matchHere r marks s pos = Some res -> accepts r marks s pos res.
Proof.
  revert marks s pos.
  induction r as [|[l|p|p|p|] r IH]; intros marks s pos; cbn [matchHere accepts].
  - by intros [= <-].
  - destruct (stripPrefix l s) as [s'|] eqn:Hl; [|done]. intros Hm.
    exists s'. split; [by apply stripPrefix_sound | by apply IH].
  - destruct s as [|c s]; [done|]. destruct (p c) eqn:Hp; [|done]. intros Hm.
    exists c, s. split; [done|]. split; [done | by apply IH].
  - intros Hm. destruct (starGreedy_sound _ _ _ _ _ Hm) as (a & s' & -> & Ha & Hk).
    exists a, s'. split; [done|]. split; [done | by apply IH].
  - intros Hm. destruct (starLazy_sound _ _ _ _ _ Hm) as (a & s' & -> & Ha & Hk).
    exists a, s'. split; [done|]. split; [done | by apply IH].
  - intros Hm. by apply IH.
Qed.

(** Every match the scan reports is a match of the pattern at its offset,
    and the matches follow one another. *)
Lemma scan_elem (re : regex) (content s : string) (pos skip : nat)
    (m : RegExpMatch) :
  m ∈ scan re content s pos skip ->
  exists pre rest res,
    s = pre +:+ rest /\ index m = pos + String.length pre
    /\ matchHere re [] rest (index m) = Some res
    /\ m = mkGroups content (index m) res.
Proof.
  revert pos skip. induction s as [|c s IH]; intros pos skip.
  - destruct skip as [|skip]; simpl; [|by intros ?%elem_of_nil].
    destruct (matchHere re [] "" pos) as [res|] eqn:Hm;
      [|by intros ?%elem_of_nil].
    intros ->%list_elem_of_singleton. exists "", "", res.
    destruct res as [e ms]. simpl. by rewrite Nat.add_0_r.
  - assert (Hrest : forall k, m ∈ scan re content s (S pos) k ->
      exists pre rest res,
        String c s = pre +:+ rest /\ index m = pos + String.length pre
        /\ matchHere re [] rest (index m) = Some res
        /\ m = mkGroups content (index m) res).
    { intros k Hk. destruct (IH _ _ Hk) as (pre & rest & res & -> & Hi & Hm & Hg).
      exists (String c pre), rest, res. rewrite string_app_cons. simpl.
      split; [done|]. split; [lia | done]. }
    destruct skip as [|skip]; simpl; [|by apply Hrest].
    destruct (matchHere re [] (String c s) pos) as [res|] eqn:Hm;
      [|by apply Hrest].
    intros [->|Hin]%elem_of_cons; [|by eapply Hrest].
    exists "", (String c s), res. destruct res as [e ms]. simpl.
    by rewrite Nat.add_0_r.
Qed.

Lemma chained_mono (content : string) (i j : nat) (ms : list RegExpMatch) :
  j <= i -> chained content i ms -> chained content j ms.
Proof. destruct ms as [|m ms]; simpl; [done|]. intros Hj (Hi & Hm & Hc). repeat split; try lia; done. Qed.

Lemma scan_chained (re : regex) (content s : string) (pos skip : nat) :
  neverEmpty re ->
  pos + String.length s = String.length content ->
  chained content (pos + skip) (scan re content s pos skip).
Proof.
  intros Hne. revert pos skip. induction s as [|c s IH]; intros pos skip Hlen.
  - destruct skip as [|skip]; simpl; [|done].
    destruct (matchHere re [] "" pos) as [res|] eqn:Hm; [|done].
    pose proof (Hne _ _ _ Hm). pose proof (matchHere_bounds _ _ _ _ _ Hm).
    simpl in *. lia.
  - simpl in Hlen. destruct skip as [|skip]; simpl.
    + destruct (matchHere re [] (String c s) pos) as [res|] eqn:Hm.
      * pose proof (Hne _ _ _ Hm) as Hlt.
        pose proof (matchHere_bounds _ _ _ _ _ Hm) as Hb.
        destruct res as [e ms]. simpl in *.
        split; [lia|]. split; [lia|].
        replace e with (S pos + (e - pos - 1)) at 1 by lia.
        apply IH. lia.
      * eapply chained_mono; [|apply (IH (S pos) 0); lia]. lia.
    + replace (pos + S skip) with (S pos + skip) by lia. apply IH. lia.
Qed.

Lemma execAll_chained (re : regex) (content : string) :
  neverEmpty re -> chained content 0 (execAll re content).
Proof.
  intros Hne. rewrite execAll_scan by done.
  by apply (scan_chained re content content 0 0).
Qed.

Lemma execAll_elem (re : regex) (content : string) (m : RegExpMatch) :
  neverEmpty re ->
  m ∈ execAll re content ->
  exists pre rest res,
    content = pre +:+ rest /\ index m = String.length pre
    /\ matchHere re [] rest (index m) = Some res
    /\ m = mkGroups content (index m) res.
Proof.
  intros Hne. rewrite execAll_scan by done. intros Hin.
  destruct (scan_elem _ _ _ _ _ _ Hin) as (pre & rest & res & ? & ? & ? & ?).
  by exists pre, rest, res.
Qed.

End MatchFacts.

Section ShapeFacts.

Import JS Regex MatchSpec.

Lemma between_at (content pre mid post : string) (a b : nat) :
  content = pre +:+ mid +:+ post ->
  a = String.length pre -> b = a + String.length mid ->
  between content a b = mid.
Proof. intros -> -> ->. apply between_mid. Qed.

Lemma double_match_shape (content : string) (m : RegExpMatch) :
  m ∈ execAll Parser.RELATIONSHIP_REGEX content ->
  exists pre d ws1 t ws2 post, Found.double content m pre d ws1 t ws2 post.
Proof.
  intros Hin.
  destruct (execAll_elem _ _ _ RELATIONSHIP_REGEX_neverEmpty Hin)
    as (pre & rest & res & Hc & Hi & Hm & Hg).
  apply matchHere_accepts in Hm. unfold Parser.RELATIONSHIP_REGEX in Hm.
  cbn [accepts] in Hm.
  destruct Hm as (s1 & -> & d & s2 & -> & Hd & s3 & -> & s4 & ->
                  & ws1 & s5 & -> & Hws1 & t & s6 & -> & Ht
                  & ws2 & s7 & -> & Hws2 & post & -> & ->).
  exists pre, d, ws1, t, ws2, post.
  rewrite Hi in Hg. rewrite Hg. unfold Found.double.
  cbn [mkGroups index lastIndex group1 group2 app lookup_total
       list_lookup_total String.length].
  rewrite Hc. repeat split; try done.
  - rewrite !string_app_length. simpl. lia.
  - eapply (between_at _ (pre +:+ "<<") d); [by rewrite !string_app_assoc | |].
    + rewrite string_app_length. simpl. lia.
    + lia.
  - eapply (between_at _ (pre +:+ "<<" +:+ d +:+ ">>[[" +:+ ws1) t);
      [by rewrite !string_app_assoc | |].
    + rewrite !string_app_length. simpl. lia.
    + lia.
Qed.

Lemma single_match_shape (content : string) (m : RegExpMatch) :
  m ∈ execAll SingleDelimiter.RELATIONSHIP_REGEX content ->
  exists pre a mid b ws0 ws1 t ws2 post,
    Found.single content m pre a mid b ws0 ws1 t ws2 post.
Proof.
  intros Hin.
  destruct (execAll_elem _ _ _ single_delimiter_neverEmpty Hin)
    as (pre & rest & res & Hc & Hi & Hm & Hg).
  apply matchHere_accepts in Hm. unfold SingleDelimiter.RELATIONSHIP_REGEX in Hm.
  cbn [accepts] in Hm.
  destruct Hm as (s1 & -> & a & s2 & -> & Ha & mid & s3 & -> & Hmid
                  & b & s4 & -> & Hb & s5 & -> & ws0 & s6 & -> & Hws0
                  & s7 & -> & ws1 & s8 & -> & Hws1 & t & s9 & -> & Ht
                  & ws2 & s10 & -> & Hws2 & post & -> & ->).
  exists pre, a, mid, b, ws0, ws1, t, ws2, post.
  rewrite Hi in Hg. rewrite Hg. unfold Found.single.
  cbn [mkGroups index lastIndex group1 group2 app lookup_total
       list_lookup_total String.length].
  rewrite Hc.
  assert (Hnorm : forall x,
    pre +:+ "<" +:+ String a (mid +:+ String b "") +:+ x
    = pre +:+ "<" +:+ String a (mid +:+ String b x)).
  { intros x. by rewrite (string_app_cons a), string_app_assoc,
      (string_app_cons b), string_app_nil_l. }
  repeat split; try done.
  - rewrite !string_app_length. simpl. rewrite !string_app_length. simpl. lia.
  - eapply (between_at _ (pre +:+ "<") _
              (">" +:+ ws0 +:+ "[[" +:+ ws1 +:+ t +:+ ws2 +:+ "]]" +:+ post)).
    + by rewrite string_app_assoc, Hnorm.
    + rewrite string_app_length. simpl. lia.
    + simpl. rewrite string_app_length. simpl. lia.
  - eapply (between_at _
              (pre +:+ "<" +:+ String a (mid +:+ String b "") +:+ ">" +:+ ws0
               +:+ "[[" +:+ ws1) t (ws2 +:+ "]]" +:+ post)).
    + by rewrite !string_app_assoc, Hnorm.
    + rewrite !string_app_length. simpl. rewrite !string_app_length. simpl. lia.
    + lia.
Qed.

End ShapeFacts.

(** ** Line numbers *)

Section LineFacts.

Import JS Regex MatchSpec.

Lemma splitLines_cons (s : string) : exists l ls, splitLines s = l :: ls.
Proof.
  destruct s as [|c s]; simpl; [by eexists _, _|].
  destruct (Ascii.eqb c "010"); [by eexists _, _|].
  destruct (splitLines s); by eexists _, _.
Qed.

Lemma lineLoop_shift (c : ascii) (l : string) (ls : list string)
    (i charCount matchPos : nat) :
  ParseLoop.lineLoop (String c l :: ls) i charCount matchPos
  = ParseLoop.lineLoop (l :: ls) i (S charCount) matchPos.
Proof.
  simpl. by replace (charCount + S (String.length l) + 1)
    with (S (charCount + String.length l + 1)) by lia.
Qed.

Lemma lineLoop_prefix (pre rest : string) (i charCount : nat) :
  ParseLoop.lineLoop (splitLines (pre +:+ rest)) i charCount
    (charCount + String.length pre)
  = i + 1 + lineFeeds pre.
Proof.
  revert i charCount. induction pre as [|c pre IH]; intros i charCount.
  - rewrite string_app_nil_l. destruct (splitLines_cons rest) as (l & ls & ->).
    simpl. replace (charCount + 0 <? charCount + String.length l + 1) with true.
    + lia.
    + symmetry. apply Nat.ltb_lt. lia.
  - rewrite string_app_cons. cbn [splitLines lineFeeds String.length].
    destruct (Ascii.eqb c "010").
    + cbn [ParseLoop.lineLoop String.length].
      replace (charCount + S (String.length pre) <? charCount + 0 + 1) with false
        by (symmetry; apply Nat.ltb_ge; lia).
      replace (charCount + S (String.length pre))
        with (charCount + 0 + 1 + String.length pre) by lia.
      rewrite IH. lia.
    + destruct (splitLines_cons (pre +:+ rest)) as (l & ls & Hl).
      specialize (IH i (S charCount)). rewrite Hl in *.
      rewrite lineLoop_shift.
      replace (charCount + S (String.length pre))
        with (S charCount + String.length pre) by lia.
      rewrite IH. lia.
Qed.

(** The line of an offset is one more than the number of line feeds
    before it. *)
Lemma lineNumberOf_prefix (pre rest : string) :
  ParseLoop.lineNumberOf (splitLines (pre +:+ rest)) (String.length pre)
  = 1 + lineFeeds pre.
Proof. apply (lineLoop_prefix pre rest 0 0). Qed.

Lemma lineFeeds_app (s t : string) :
  lineFeeds (s +:+ t) = lineFeeds s + lineFeeds t.
Proof.
  induction s as [|c s IH]; [by rewrite string_app_nil_l|].
  rewrite string_app_cons. simpl. rewrite IH. lia.
Qed.

End LineFacts.

(** ** Every relationship comes from a declaration *)

Section SoundFacts.

Import JS Regex MatchSpec.

Variable re : regex.
Variable parseDescriptor : string -> option (Direction * option string).

Lemma parseRelationships_elem (content sourceId : string) (r : Relationship) :
  r ∈ ParseLoop.parseRelationships re parseDescriptor content sourceId ->
  exists k m,
    m ∈ execAll re content
    /\ ParseSpec.emitted parseDescriptor sourceId (splitLines content) k m
       = Some r.
Proof.
  rewrite parseRelationships_numbered.
  intros ([k m] & Hin & Hr)%list_elem_of_omap. exists k, m. split; [|done].
  unfold ParseSpec.numbered in Hin. by apply elem_of_zip_r in Hin.
Qed.

Lemma emitted_fields (sourceId : string) (lines : list string) (k : nat)
    (m : RegExpMatch) (r : Relationship) :
  ParseSpec.emitted parseDescriptor sourceId lines k m = Some r ->
  parseDescriptor (group1 m) = Some (direction r, label r)
  /\ targetFile r = trim (group2 m) /\ targetFile r <> ""
  /\ sourceFile r = sourceId
  /\ line r = ParseLoop.lineNumberOf lines (index m)
  /\ id r = ParseLoop.generateId sourceId (line r) k.
Proof.
  unfold ParseSpec.emitted.
  destruct (String.eqb_spec (trim (group2 m)) "") as [|Hne]; [done|].
  destruct (parseDescriptor (group1 m)) as [[dir lbl]|]; [|done].
  by intros [= <-].
Qed.

End SoundFacts.

(** ** The single-delimiter descriptor *)

Section SingleDescriptorFacts.

Import JS Regex.

Lemma plusOrDash_cases (a : ascii) :
  SingleDelimiter.plusOrDash a = true -> a = "+"%char \/ a = "-"%char.
Proof.
  unfold SingleDelimiter.plusOrDash.
  destruct (Ascii.eqb_spec a "+"); [by left|].
  destruct (Ascii.eqb_spec a "-"); [by right | done].
Qed.

Lemma get_last (s : string) (b : ascii) :
  String.get (String.length s) (s +:+ String b "") = Some b.
Proof.
  induction s as [|c s IH]; [done|]. by rewrite string_app_cons.
Qed.

Lemma ends_trim_fixed (a : ascii) (mid : string) (b : ascii) :
  isWhiteSpace a = false -> isWhiteSpace b = false ->
  trim (String a (mid +:+ String b "")) = String a (mid +:+ String b "").
Proof.
  intros Ha Hb. apply trim_fixed; [done|].
  cbn [list_ascii_of_string]. rewrite chars_app. simpl.
  by rewrite rev_app_distr.
Qed.

Lemma single_parseDescriptor_ends (a : ascii) (mid : string) (b : ascii) :
  SingleDelimiter.plusOrDash a = true ->
  SingleDelimiter.plusOrDash b = true ->
  SingleDelimiter.parseDescriptor (String a (mid +:+ String b ""))
  = Some (Grammar.ends a b, Grammar.interior mid).
Proof.
  intros Ha Hb.
  assert (Hwa : isWhiteSpace a = false)
    by (by destruct (plusOrDash_cases _ Ha) as [->| ->]).
  assert (Hwb : isWhiteSpace b = false)
    by (by destruct (plusOrDash_cases _ Hb) as [->| ->]).
  unfold SingleDelimiter.parseDescriptor. rewrite ends_trim_fixed by done.
  cbn [String.length]. rewrite string_app_length. cbn [String.length].
  replace (S (String.length mid + 1) <? 2) with false
    by (symmetry; apply Nat.ltb_ge; lia).
  replace (S (String.length mid + 1) - 1) with (S (String.length mid)) by lia.
  unfold SingleDelimiter.charAt. cbn [String.get]. rewrite get_last.
  assert (Hlabel :
    (if 2 <? S (String.length mid + 1)
     then Some (trim (slice (String a (mid +:+ String b "")) 1 (-1)))
     else None)
    = if String.eqb mid "" then None else Some (trim mid)).
  { change (String a (mid +:+ String b "")) with (String a mid +:+ String b "").
    rewrite slice_interior. destruct mid as [|c mid]; [done|].
    replace (2 <? S (String.length (String c mid) + 1)) with true; [done|].
    symmetry. apply Nat.ltb_lt. simpl. lia. }
  rewrite Hlabel. unfold Grammar.interior, Grammar.ends.
  assert (Hlbl :
    match (if String.eqb mid "" then None else Some (trim mid)) with
    | Some t => if 0 <? String.length t then Some t else None
    | None => None
    end = if String.eqb (trim mid) "" then None else Some (trim mid)).
  { destruct mid as [|c mid]; [done|].
    change (String.eqb (String c mid) "") with false. cbv iota.
    by destruct (trim (String c mid)). }
  rewrite Hlbl.
  by destruct (plusOrDash_cases _ Ha) as [->| ->],
              (plusOrDash_cases _ Hb) as [->| ->].
Qed.

End SingleDescriptorFacts.

(** ** What the parser returns *)

Section ParserSoundness.

Import JS Regex MatchSpec.

Lemma all_app (p : ascii -> bool) (s t : string) :
  Decl.all p (s +:+ t) = Decl.all p s && Decl.all p t.
Proof.
  induction s as [|c s IH]; [by rewrite string_app_nil_l|].
  rewrite string_app_cons. simpl. rewrite IH. by rewrite andb_assoc.
Qed.

Lemma all_trim (p : ascii -> bool) (s : string) :
  Decl.all p s = true -> Decl.all p (trim s) = true.
Proof.
  destruct (trim_decompose s) as (lead & trail & Hs & _).
  rewrite Hs at 1. rewrite !all_app, !andb_true_iff. tauto.
Qed.

Lemma parseDescriptor_label (descriptor : string) (dir : Direction)
    (lbl : option string) :
  Parser.parseDescriptor descriptor = Some (dir, lbl) ->
  (forall l, lbl = Some l -> l <> "" /\ trim l = l)
  /\ (dir = undirected -> exists l, lbl = Some l /\ Parser.hasAlnum l = true).
Proof.
  rewrite parseDescriptor_unfold. cbv zeta.
  destruct (String.eqb_spec (trim descriptor) "") as [|Hne]; [done|].
  destruct (String.eqb (trim descriptor) "-+");
    [by intros [= <- <-]; split; [|done] |].
  destruct (String.eqb (trim descriptor) "+-");
    [by intros [= <- <-]; split; [|done] |].
  destruct (String.eqb (trim descriptor) "++");
    [by intros [= <- <-]; split; [|done] |].
  destruct (Parser.allDashes (trim descriptor)); [done|].
  assert (Hlabelled : forall text dir0,
    (if String.eqb (trim text) "" then None
     else Some (dir0, Some (trim text))) = Some (dir, lbl) ->
    dir0 <> undirected ->
    (forall l, lbl = Some l -> l <> "" /\ trim l = l)
    /\ (dir = undirected -> exists l, lbl = Some l /\ Parser.hasAlnum l = true)).
  { intros text dir0.
    destruct (String.eqb_spec (trim text) "") as [|Hne']; [done|].
    intros [= <- <-] Hdir. split; [|done].
    intros l [= <-]. split; [done | apply trim_idempotent]. }
  destruct (_ && _ && _); [intros H; by eapply Hlabelled|].
  destruct (_ && _); [intros H; by eapply Hlabelled|].
  destruct (_ && _); [intros H; by eapply Hlabelled|].
  destruct (Parser.hasAlnum (trim descriptor)) eqn:Halnum; [|done].
  intros [= <- <-]. split.
  - intros l [= <-]. split; [done | apply trim_idempotent].
  - intros _. by eexists.
Qed.


End ParserSoundness.

(** X1. Every relationship returned by [parseRelationships] comes from a
    declaration that stands in the text: the text is some [pre], then
    [<<d>>[[], white space, [t], white space, []]], then some [post], where
    [d] holds no [>] and [t] no line terminator; the direction and the label
    are those [parseDescriptor] gives for [d], the target is [t] trimmed,
    the source is the identifier passed in and the line is one more than the
    number of line feeds of [pre]. *)
Theorem parseRelationships_sound (content sourceId : string) (r : Relationship) :
  r ∈ Parser.parseRelationships content sourceId ->
  exists pre d ws1 t ws2 post,
    content
    = pre +:+ "<<" +:+ d +:+ ">>[[" +:+ ws1 +:+ t +:+ ws2 +:+ "]]" +:+ post
    /\ Decl.all Parser.notGt d = true
    /\ Decl.all JS.isWhiteSpace ws1 = true
    /\ Decl.all Parser.dot t = true
    /\ Decl.all JS.isWhiteSpace ws2 = true
    /\ Parser.parseDescriptor d = Some (direction r, label r)
    /\ targetFile r = JS.trim t
    /\ sourceFile r = sourceId
    /\ line r = 1 + MatchSpec.lineFeeds pre.
Proof.
  intros Hr.
  destruct (parseRelationships_elem _ _ _ _ _ Hr) as (k & m & Hm & He).
  apply emitted_fields in He as (Hd & Ht & _ & Hs & Hl & _).
  destruct (double_match_shape _ _ Hm)
    as (pre & d & ws1 & t & ws2 & post & Hc & ? & ? & ? & ? & Hi & _ & Hg1 & Hg2).
  exists pre, d, ws1, t, ws2, post. rewrite Hg1 in Hd. rewrite Hg2 in Ht.
  split_and!; try done.
  rewrite Hl, Hi. rewrite Hc at 1. apply lineNumberOf_prefix.
Qed.

Lemma parseRelationships_sound_witness :
  let r := mkRelationship "Awal:2:3" "Awal" "Gamma" undirected (Some "uses") 2 in
  exists pre d ws1 t ws2 post,
    Examples.mixedNote
    = pre +:+ "<<" +:+ d +:+ ">>[[" +:+ ws1 +:+ t +:+ ws2 +:+ "]]" +:+ post
    /\ Decl.all Parser.notGt d = true
    /\ Decl.all JS.isWhiteSpace ws1 = true
    /\ Decl.all Parser.dot t = true
    /\ Decl.all JS.isWhiteSpace ws2 = true
    /\ Parser.parseDescriptor d = Some (direction r, label r)
    /\ targetFile r = JS.trim t
    /\ sourceFile r = "Awal"
    /\ line r = 1 + MatchSpec.lineFeeds pre.
Proof.
  intros r. apply (parseRelationships_sound Examples.mixedNote "Awal" r).
  vm_compute. apply list_elem_of_further, list_elem_of_here.
Defined.

Section OrderFacts.

Import JS Regex MatchSpec.

Lemma split_at (n : nat) (s : string) :
  n <= String.length s ->
  exists pre rest, s = pre +:+ rest /\ String.length pre = n.
Proof.
  revert n. induction s as [|c s IH]; intros [|n] Hn; simpl in Hn.
  - by exists "", "".
  - lia.
  - by exists "", (String c s).
  - destruct (IH n) as (pre & rest & -> & Hlen); [lia|].
    exists (String c pre), rest. rewrite string_app_cons. simpl.
    by rewrite Hlen.
Qed.

Lemma lineNumberOf_mono (content : string) (p q : nat) :
  p <= q <= String.length content ->
  ParseLoop.lineNumberOf (splitLines content) p
  <= ParseLoop.lineNumberOf (splitLines content) q.
Proof.
  intros [Hpq Hq].
  destruct (split_at p content) as (pre & rest & -> & Hp); [lia|].
  rewrite string_app_length in Hq.
  destruct (split_at (q - p) rest) as (mid & rest' & -> & Hm); [lia|].
  rewrite <- Hp at 1. rewrite lineNumberOf_prefix.
  rewrite <- string_app_assoc.
  replace q with (String.length (pre +:+ mid))
    by (rewrite string_app_length; lia).
  rewrite lineNumberOf_prefix, lineFeeds_app. lia.
Qed.

Lemma lineNumberOf_range (content : string) (p : nat) :
  p <= String.length content ->
  1 <= ParseLoop.lineNumberOf (splitLines content) p <= 1 + lineFeeds content.
Proof.
  intros Hp. destruct (split_at p content) as (pre & rest & -> & Hlen); [done|].
  rewrite <- Hlen, lineNumberOf_prefix, lineFeeds_app. lia.
Qed.

Variable parseDescriptor : string -> option (Direction * option string).

Lemma emitted_chained_sorted (content sourceId : string) (i start : nat)
    (ms : list RegExpMatch) :
  chained content i ms ->
  let lines := splitLines content in
  let rs :=
    omap (fun km => ParseSpec.emitted parseDescriptor sourceId lines km.1 km.2)
      (ParseSpec.numbered start ms) in
  StronglySorted (fun r1 r2 => line r1 <= line r2) rs
  /\ Forall (fun r => ParseLoop.lineNumberOf lines i <= line r) rs.
Proof.
  revert i start. induction ms as [|m ms IH]; intros i start Hc; simpl.
  - split; constructor.
  - destruct Hc as (Hi & Hm & Hc).
    destruct (IH _ (S start) Hc) as [Hsorted Hall].
    unfold ParseSpec.numbered. simpl.
    fold (ParseSpec.numbered (S start) ms).
    assert (Hstep : ParseLoop.lineNumberOf (splitLines content) (index m)
                    <= ParseLoop.lineNumberOf (splitLines content) (lastIndex m))
      by (apply lineNumberOf_mono; lia).
    assert (Hi' : ParseLoop.lineNumberOf (splitLines content) i
                  <= ParseLoop.lineNumberOf (splitLines content) (index m))
      by (apply lineNumberOf_mono; lia).
    assert (Htail : Forall
      (fun r => ParseLoop.lineNumberOf (splitLines content) i <= line r)
      (omap (fun km => ParseSpec.emitted parseDescriptor sourceId
                         (splitLines content) km.1 km.2)
         (ParseSpec.numbered (S start) ms))).
    { eapply Forall_impl; [exact Hall|]. simpl. intros r Hr. lia. }
    destruct (ParseSpec.emitted parseDescriptor sourceId (splitLines content)
                start m) as [r|] eqn:Hr; [|done].
    apply emitted_fields in Hr as (_ & _ & _ & _ & Hl & _).
    split.
    + constructor; [done|]. eapply Forall_impl; [exact Hall|].
      simpl. intros r' Hr'. lia.
    + constructor; [lia | done].
Qed.

End OrderFacts.

(** X2. The fields of a returned relationship are in normal form: the
    target is not empty, is trimmed and holds no line terminator; a label,
    when there is one, is not empty and is trimmed; an undirected
    relationship always has a label, with a letter or a digit in it; the
    line lies between 1 and the number of lines of the text. *)
Theorem parseRelationships_fields_normal (content sourceId : string)
    (r : Relationship) :
  r ∈ Parser.parseRelationships content sourceId ->
  targetFile r <> ""
  /\ JS.trim (targetFile r) = targetFile r
  /\ Decl.all Parser.dot (targetFile r) = true
  /\ (forall l, label r = Some l -> l <> "" /\ JS.trim l = l)
  /\ (direction r = undirected ->
      exists l, label r = Some l /\ Parser.hasAlnum l = true)
  /\ 1 <= line r <= 1 + MatchSpec.lineFeeds content.
Proof.
  intros Hr.
  destruct (parseRelationships_elem _ _ _ _ _ Hr) as (k & m & Hm & He).
  apply emitted_fields in He as (Hd & Ht & Hne & _ & Hl & _).
  destruct (double_match_shape _ _ Hm)
    as (pre & d & ws1 & t & ws2 & post & Hc & _ & _ & Hdot & _ & Hi & _ & _ & Hg2).
  destruct (parseDescriptor_label _ _ _ Hd) as [Hlabel Hund].
  split_and!; try done.
  - rewrite Ht. apply trim_idempotent.
  - rewrite Ht, Hg2. by apply all_trim.
  - rewrite Hl. apply lineNumberOf_range. rewrite Hi, Hc, string_app_length. lia.
  - rewrite Hl. apply lineNumberOf_range. rewrite Hi, Hc, string_app_length. lia.
Qed.

Lemma parseRelationships_fields_normal_witness :
  let r := mkRelationship "Awal:2:3" "Awal" "Gamma" undirected (Some "uses") 2 in
  targetFile r <> ""
  /\ JS.trim (targetFile r) = targetFile r
  /\ Decl.all Parser.dot (targetFile r) = true
  /\ (forall l, label r = Some l -> l <> "" /\ JS.trim l = l)
  /\ (direction r = undirected ->
      exists l, label r = Some l /\ Parser.hasAlnum l = true)
  /\ 1 <= line r <= 1 + MatchSpec.lineFeeds Examples.mixedNote.
Proof.
  intros r. apply (parseRelationships_fields_normal Examples.mixedNote "Awal" r).
  vm_compute. apply list_elem_of_further, list_elem_of_here.
Defined.

(** X3. Both parsers return the relationships in the order of their
    declarations: along the returned list the line numbers never
    decrease. *)
Theorem parseRelationships_document_order (content sourceId : string) :
  StronglySorted (fun r1 r2 => line r1 <= line r2)
    (Parser.parseRelationships content sourceId)
  /\ StronglySorted (fun r1 r2 => line r1 <= line r2)
       (SingleDelimiter.parseRelationships content sourceId).
Proof.
  split.
  - unfold Parser.parseRelationships. rewrite parseRelationships_numbered.
    eapply emitted_chained_sorted, execAll_chained, RELATIONSHIP_REGEX_neverEmpty.
  - unfold SingleDelimiter.parseRelationships. rewrite parseRelationships_numbered.
    eapply emitted_chained_sorted, execAll_chained, single_delimiter_neverEmpty.
Qed.



Section RefusalFacts.

Import JS Regex MatchSpec.

Variable parseDescriptor : string -> option (Direction * option string).

Lemma emitted_length (sourceId : string) (lines : list string) (start : nat)
    (ms : list RegExpMatch) :
  Forall (fun m => is_Some (parseDescriptor (group1 m))) ms ->
  length (omap (fun km => ParseSpec.emitted parseDescriptor sourceId lines
                            km.1 km.2)
            (ParseSpec.numbered start ms))
  = length (filter (fun m => trim (group2 m) <> "") ms).
Proof.
  revert start. induction ms as [|m ms IH]; intros start Hall; [done|].
  apply Forall_cons in Hall as [[[dir lbl] Hm] Hall].
  unfold ParseSpec.numbered. simpl. fold (ParseSpec.numbered (S start) ms).
  rewrite filter_cons. unfold ParseSpec.emitted at 1. simpl. rewrite Hm.
  destruct (String.eqb_spec (trim (group2 m)) "") as [Ht|Ht].
  - rewrite decide_False by (by intros ?). by apply IH.
  - rewrite decide_True by done. simpl. f_equal. by apply IH.
Qed.

End RefusalFacts.

(** X5. The single-delimiter parser refuses no descriptor the pattern lets
    through: every match has a descriptor [parseDescriptor] accepts, so that
    the relationships returned are as many as the matches whose target is
    not blank. *)
Theorem single_delimiter_refuses_no_descriptor (content sourceId : string) :
  let ms := Regex.execAll SingleDelimiter.RELATIONSHIP_REGEX content in
  (forall m, m ∈ ms -> is_Some (SingleDelimiter.parseDescriptor (Regex.group1 m)))
  /\ length (SingleDelimiter.parseRelationships content sourceId)
     = length (filter (fun m => JS.trim (Regex.group2 m) <> "") ms).
Proof.
  intros ms.
  assert (Hall : forall m, m ∈ ms ->
            is_Some (SingleDelimiter.parseDescriptor (Regex.group1 m))).
  { intros m Hm. destruct (single_match_shape _ _ Hm)
      as (pre & a & mid & b & ws0 & ws1 & t & ws2 & post & Hshape).
    destruct Hshape as (_ & Ha & Hb & _ & _ & _ & _ & _ & _ & _ & Hg1 & _).
    rewrite Hg1, single_parseDescriptor_ends by done. by eexists. }
  split; [done|].
  unfold SingleDelimiter.parseRelationships.
  rewrite parseRelationships_numbered. apply emitted_length.
  by apply Forall_forall.
Qed.

(** ** The editor overlays *)

(** X6. The overlay of the editor reads a descriptor exactly as the
    single-delimiter parser does: it draws no arrow for a descriptor the
    parser refuses, and for an accepted one it draws the arrow of the
    parsed direction and shows the parsed label (nothing when there is
    none). *)
Theorem overlay_agrees_with_parser (descriptor : string) :
  match SingleDelimiter.parseDescriptor descriptor with
  | Some (dir, lbl) =>
      EditorExtension.getArrowForDescriptor descriptor = Grammar.glyph dir
      /\ EditorExtension.getLabelForDescriptor descriptor = Grammar.labelText lbl
  | None => EditorExtension.getArrowForDescriptor descriptor = ""
  end.
Proof.
  unfold SingleDelimiter.parseDescriptor, EditorExtension.getArrowForDescriptor,
    EditorExtension.getLabelForDescriptor.
  cbv zeta. set (d := JS.trim descriptor).
  destruct (String.length d <? 2) eqn:Hlen; [done|].
  apply Nat.ltb_ge in Hlen.
  destruct (_ || _); [done|].
  split.
  - by repeat (destruct (_ && _)).
  - destruct (Nat.ltb_spec 2 (String.length d)) as [Hlt|Hge].
    + replace (String.length d <=? 2) with false
        by (symmetry; apply Nat.leb_gt; lia).
      by destruct (JS.trim (JS.slice d 1 (-1))).
    + by replace (String.length d <=? 2) with true
        by (symmetry; apply Nat.leb_le; lia).
Qed.

Section DoubleOverlayFacts.

Import JS.

Lemma allDashes_no_plus (d : string) :
  Parser.allDashes d = true -> startsWith d "+" = false /\ endsWith d "+" = false.
Proof.
  intros Hd. split.
  - destruct d as [|c d]; [done|]. simpl in Hd.
    apply andb_prop in Hd as [->%Ascii.eqb_eq _]. by destruct d.
  - destruct (endsWith d "+") eqn:He; [|done].
    apply endsWith_iff in He as [r ->]. by rewrite allDashes_app_plus in Hd.
Qed.

Lemma plus_ends_short (d : string) :
  startsWith d "+" = true -> endsWith d "+" = true ->
  (2 <? String.length d) = false -> d = "+" \/ d = "++".
Proof.
  intros [r ->]%startsWith_iff He Hlen. apply Nat.ltb_ge in Hlen.
  destruct r as [|c [|c' r]]; [by left | | simpl in Hlen; lia].
  right. apply endsWith_iff in He as [r He].
  destruct r as [|a [|b r]]; [done | | ].
  - by injection He as -> ->.
  - destruct r; done.
Qed.

End DoubleOverlayFacts.

(** X7. The earlier overlay follows the double-delimiter parser on every
    descriptor the parser accepts: same arrow, same label.  A descriptor
    the parser refuses gets no arrow unless it starts or ends with a plus;
    then the overlay still draws one. *)
Theorem double_overlay_follows_parser (descriptor : string) :
  match Parser.parseDescriptor descriptor with
  | Some (dir, lbl) =>
      DoubleOverlay.getArrowForDescriptor descriptor = Grammar.glyph dir
      /\ DoubleOverlay.getLabelForDescriptor descriptor = Grammar.labelText lbl
  | None =>
      DoubleOverlay.getArrowForDescriptor descriptor = ""
      <-> JS.startsWith (JS.trim descriptor) "+"
          || JS.endsWith (JS.trim descriptor) "+" = false
  end.
Proof.
  rewrite parseDescriptor_unfold.
  unfold DoubleOverlay.getArrowForDescriptor, DoubleOverlay.getLabelForDescriptor.
  cbv zeta. remember (JS.trim descriptor) as d eqn:Heqd. clear Heqd.
  destruct (String.eqb_spec d "") as [->|Hne]; [done|].
  destruct (String.eqb d "-+"); [done|].
  destruct (String.eqb d "+-"); [done|].
  destruct (String.eqb_spec d "++") as [->|Hpp]; [done|].
  cbn [orb].
  destruct (Parser.allDashes d) eqn:Hdash.
  { destruct (allDashes_no_plus _ Hdash) as [-> ->].
    by rewrite (allDashes_hasAlnum _ Hdash). }
  destruct (JS.startsWith d "+") eqn:Hsw, (JS.endsWith d "+") eqn:Hew;
    cbn [andb negb orb].
  - destruct (2 <? String.length d) eqn:Hlen.
    + by destruct (String.eqb (JS.trim (JS.slice d 1 (-1))) "").
    + destruct (plus_ends_short d Hsw Hew Hlen) as [->|]; done.
  - by destruct (String.eqb (JS.trim (JS.sliceFrom d 1)) "").
  - by destruct (String.eqb (JS.trim (JS.slice d 0 (-1))) "").
  - by destruct (Parser.hasAlnum d).
Qed.

Section DecorationFacts.

Import JS Regex MatchSpec EditorExtension.

Lemma length_between (content : string) (a b : nat) :
  b <= String.length content ->
  String.length (between content a b) = b - a.
Proof.
  intros Hb. unfold between.
  rewrite chars_length, chars_substring, length_take, length_drop.
  rewrite <- chars_length. lia.
Qed.

Lemma disjointFrom_mono (limit i j : nat) (ds : list decoration) :
  j <= i -> Ranges.disjointFrom limit i ds -> Ranges.disjointFrom limit j ds.
Proof.
  destruct ds as [|d ds]; simpl; [done|]. intros Hj (Hi & Hd & Hds).
  split_and!; try done; lia.
Qed.

Lemma disjointFrom_app (limit i j : nat) (l1 l2 : list decoration) :
  i <= j <= limit ->
  Ranges.disjointFrom j i l1 -> Ranges.disjointFrom limit j l2 ->
  Ranges.disjointFrom limit i (l1 ++ l2).
Proof.
  revert i. induction l1 as [|d l1 IH]; intros i Hij; simpl.
  - intros _ H2. eapply disjointFrom_mono; [|exact H2]. lia.
  - intros (Hi & Hd & H1) H2. split_and!; try lia. apply IH; [lia | done..].
Qed.

Lemma chained_decorations (text : string) (off i : nat)
    (f : RegExpMatch -> option decoration) (ms : list RegExpMatch) :
  (forall m d, f m = Some d ->
     from d = off + index m
     /\ to d = off + index m + String.length (JSMore.match0 text m)) ->
  chained text i ms ->
  Ranges.disjointFrom (off + String.length text) (off + i) (omap f ms).
Proof.
  intros Hf. revert i. induction ms as [|m ms IH]; intros i; simpl; [done|].
  intros (Hi & Hm & Hc). specialize (IH _ Hc).
  destruct (f m) as [d|] eqn:Hd.
  - destruct (Hf _ _ Hd) as [Hfrom Hto].
    unfold JSMore.match0 in Hto. rewrite length_between in Hto by lia.
    simpl. split_and!; try lia.
    replace (to d) with (off + lastIndex m) by lia. done.
  - eapply disjointFrom_mono; [|exact IH]. lia.
Qed.

Lemma buildMarkDecorations_ordered (text : string) :
  Ranges.disjointFrom (String.length text) 0 (buildMarkDecorations text).
Proof.
  apply (chained_decorations text 0 0).
  - intros m d. cbv beta zeta. destruct (String.eqb _ ""); [done|].
    by intros [= <-].
  - apply execAll_chained, single_delimiter_neverEmpty.
Qed.

Lemma replaceDecorationsIn_ordered (doc : string) (f t : nat) :
  f <= t <= String.length doc ->
  Ranges.disjointFrom t f (replaceDecorationsIn doc (f, t)).
Proof.
  intros Hft. unfold replaceDecorationsIn.
  match goal with
  | |- Ranges.disjointFrom _ _ (omap ?fn ?ms) =>
      pose proof (chained_decorations (between doc f t) f 0 fn ms) as Hds
  end.
  rewrite length_between, Nat.add_0_r in Hds by lia.
  replace (f + (t - f)) with t in Hds by lia.
  apply Hds.
  - intros m d. cbv beta zeta. destruct (String.eqb _ ""); [done|].
    by intros [= <-].
  - apply execAll_chained, single_delimiter_neverEmpty.
Qed.

Lemma buildReplaceDecorations_ordered (doc : string) (i : nat)
    (ranges : list (nat * nat)) :
  i <= String.length doc ->
  Ranges.visibleFrom (String.length doc) i ranges ->
  Ranges.disjointFrom (String.length doc) i (buildReplaceDecorations doc ranges).
Proof.
  unfold buildReplaceDecorations.
  revert i. induction ranges as [|[f t] ranges IH]; intros i Hi; [done|].
  intros (Hf & Ht & Hrest). rewrite fmap_cons. simpl.
  eapply disjointFrom_mono; [exact Hf|].
  apply (disjointFrom_app _ f t); [lia | | ].
  - by apply replaceDecorationsIn_ordered.
  - apply IH; [lia | done].
Qed.

End DecorationFacts.

(** X8. The decorations of the overlay are built in the order a
    [RangeSetBuilder] asks for: every range is non-empty and inside the
    document, and each starts at or after the end of the one before.  This
    holds for the mark decorations of the whole document and, when the
    visible ranges are themselves in order and inside the document, for
    the replacing widgets. *)
Theorem decorations_are_ordered (doc : string) (ranges : list (nat * nat)) :
  Ranges.disjointFrom (String.length doc) 0
    (EditorExtension.buildMarkDecorations doc)
  /\ (Ranges.visibleFrom (String.length doc) 0 ranges ->
      Ranges.disjointFrom (String.length doc) 0
        (EditorExtension.buildReplaceDecorations doc ranges)).
Proof.
  split.
  - apply buildMarkDecorations_ordered.
  - apply buildReplaceDecorations_ordered. lia.
Qed.

Lemma decorations_are_ordered_witness :
  Ranges.disjointFrom (String.length Samples.singleNote) 0
    (EditorExtension.buildReplaceDecorations Samples.singleNote
       Samples.visibleRanges).
Proof.
  apply (decorations_are_ordered Samples.singleNote Samples.visibleRanges).
  vm_compute. lia.
Defined.

(** ** Invariants of the index *)

Section OwnershipFacts.

Import RelationshipIndex.

Lemma owned_spec (st : state) :
  IndexSpec.owned st = true
  <-> forall k rels r, (k, rels) ∈ st -> r ∈ rels -> sourceFile r = k.
Proof.
  unfold IndexSpec.owned. rewrite forallb_forall. split.
  - intros Hall k rels r Hin Hr.
    specialize (Hall (k, rels)). rewrite <- list_elem_of_In in Hall.
    specialize (Hall Hin). rewrite forallb_forall in Hall.
    specialize (Hall r). rewrite <- list_elem_of_In in Hall.
    by apply String.eqb_eq, Hall.
  - intros Hall [k rels] Hin%list_elem_of_In. apply forallb_forall.
    intros r Hr%list_elem_of_In. apply String.eqb_eq. simpl. by eapply Hall.
Qed.

Lemma elem_set {V : Type} (m : JSMap.t V) (k : string) (v : V)
    (entry : string * V) :
  entry ∈ JSMap.set m k v -> entry ∈ m \/ entry = (k, v).
Proof.
  induction m as [|[k' v'] m IH]; simpl.
  - intros ->%list_elem_of_singleton. by right.
  - destruct (String.eqb k' k).
    + intros [->|Hin]%elem_of_cons; [by right|]. left. by apply elem_of_cons; right.
    + intros [->|Hin]%elem_of_cons; [left; by apply elem_of_cons; left|].
      destruct (IH Hin) as [?|?]; [left | by right].
      by apply elem_of_cons; right.
Qed.

Lemma elem_delete {V : Type} (m : JSMap.t V) (k : string) (entry : string * V) :
  entry ∈ JSMap.delete m k -> entry ∈ m /\ entry.1 <> k.
Proof.
  induction m as [|[k' v'] m IH]; simpl; [by intros ?%elem_of_nil|].
  destruct (String.eqb_spec k' k) as [->|Hne].
  - intros Hin. destruct (IH Hin). split; [by apply elem_of_cons; right | done].
  - intros [->|Hin]%elem_of_cons.
    + split; [by apply elem_of_cons; left | done].
    + destruct (IH Hin). split; [by apply elem_of_cons; right | done].
Qed.

Lemma retarget_source (old new : string) (r : Relationship) :
  sourceFile (retarget old new r) = sourceFile r.
Proof. unfold retarget. by destruct (String.eqb _ _). Qed.

Lemma retarget_target (old new : string) (r : Relationship) :
  old <> new -> targetFile (retarget old new r) <> old.
Proof.
  intros Hne. unfold retarget.
  destruct (String.eqb_spec (targetFile r) old); simpl; congruence.
Qed.

(** The entries of the index after a rename, before the targets are
    rewritten. *)
Lemma renameFile_entries (st : state) (oldName newName : string)
    (k : string) (rels : list Relationship) :
  (k, rels) ∈ renameFile st oldName newName ->
  exists rels0,
    rels = retarget (stripExtension oldName) (stripExtension newName) <$> rels0
    /\ (((k, rels0) ∈ st
         /\ (k <> stripExtension oldName
             \/ JSMap.get st (stripExtension oldName) = None))
        \/ (k = stripExtension newName
            /\ exists moved, JSMap.get st (stripExtension oldName) = Some moved
               /\ rels0 = moveSource (stripExtension oldName)
                            (stripExtension newName) <$> moved)).
Proof.
  unfold renameFile. cbv zeta.
  intros ([k0 rels0] & [= -> ->] & Hin)%list_elem_of_fmap.
  exists rels0. split; [done|].
  destruct (JSMap.get st (stripExtension oldName)) as [moved|] eqn:Hget.
  - apply elem_set in Hin as [Hin|[= -> ->]].
    + apply elem_delete in Hin as [Hin Hne]. left. split; [done | by left].
    + right. split; [done|]. by exists moved.
  - left. split; [done | by right].
Qed.

End OwnershipFacts.

Section OwnershipSteps.

Import RelationshipIndex.

Variable parse : string -> string -> list Relationship.
Hypothesis parse_source :
  forall content sourceId r, r ∈ parse content sourceId -> sourceFile r = sourceId.

Lemma owned_reindexFile (st : state) (filename content : string) :
  IndexSpec.owned st = true ->
  IndexSpec.owned (reindexFile parse st filename content) = true.
Proof.
  rewrite !owned_spec. intros Hst k rels r Hin Hr.
  apply elem_set in Hin as [Hin|[= -> ->]]; [by eapply Hst|].
  by eapply parse_source.
Qed.

Lemma owned_fullScan_from (st : state) (vault : list (string * string)) :
  IndexSpec.owned st = true ->
  IndexSpec.owned
    (foldl (fun st '(basename, content) => reindexFile parse st basename content)
       st vault) = true.
Proof.
  revert st. induction vault as [|[b c] vault IH]; intros st Hst; [done|].
  simpl. by apply IH, owned_reindexFile.
Qed.

End OwnershipSteps.

Lemma owned_removeFile (st : RelationshipIndex.state) (filename : string) :
  IndexSpec.owned st = true ->
  IndexSpec.owned (RelationshipIndex.removeFile st filename) = true.
Proof.
  rewrite !owned_spec. intros Hst k rels r Hin Hr.
  apply elem_delete in Hin as [Hin _]. by eapply Hst.
Qed.

Lemma owned_renameFile (st : RelationshipIndex.state) (oldName newName : string) :
  IndexSpec.owned st = true ->
  IndexSpec.owned (RelationshipIndex.renameFile st oldName newName) = true.
Proof.
  rewrite !owned_spec. intros Hst k rels r Hin Hr.
  apply renameFile_entries in Hin as (rels0 & -> & Hfrom).
  apply list_elem_of_fmap in Hr as (r0 & -> & Hr0). rewrite retarget_source.
  destruct Hfrom as [[Hin _]|(-> & moved & _ & ->)]; [by eapply Hst|].
  by apply list_elem_of_fmap in Hr0 as (r1 & -> & _).
Qed.

Lemma parseRelationships_source (content sourceId : string) (r : Relationship) :
  r ∈ Parser.parseRelationships content sourceId -> sourceFile r = sourceId.
Proof.
  intros Hr. destruct (parseRelationships_elem _ _ _ _ _ Hr) as (k & m & _ & He).
  by apply emitted_fields in He as (_ & _ & _ & Hs & _).
Qed.

(** X9. Every operation of the index keeps each entry the owner of its
    relationships: if the [sourceFile] of every relationship is the key of
    the entry that holds it, this is still so after [reindexFile],
    [removeFile] and [renameFile]; and it is so after any [fullScan]. *)
Theorem index_entries_own_their_relationships (st : RelationshipIndex.state)
    (filename content oldName newName : string)
    (vault : list (string * string)) :
  IndexSpec.owned st = true ->
  IndexSpec.owned
    (RelationshipIndex.reindexFile Parser.parseRelationships st filename content)
  = true
  /\ IndexSpec.owned (RelationshipIndex.removeFile st filename) = true
  /\ IndexSpec.owned (RelationshipIndex.renameFile st oldName newName) = true
  /\ IndexSpec.owned
       (RelationshipIndex.fullScan Parser.parseRelationships vault) = true.
Proof.
  intros Hst. split_and!.
  - by apply owned_reindexFile; [apply parseRelationships_source|].
  - by apply owned_removeFile.
  - by apply owned_renameFile.
  - by apply owned_fullScan_from; [apply parseRelationships_source|].
Qed.

Lemma index_entries_own_their_relationships_witness :
  IndexSpec.owned
    (RelationshipIndex.reindexFile Parser.parseRelationships Examples.vault
       "Awal.md" "<<+-cites>>[[Other]]")
  = true
  /\ IndexSpec.owned (RelationshipIndex.removeFile Examples.vault "Awal.md") = true
  /\ IndexSpec.owned
       (RelationshipIndex.renameFile Examples.vault "OldName.md" "NewName.md")
     = true
  /\ IndexSpec.owned
       (RelationshipIndex.fullScan Parser.parseRelationships
          [ ("Awal", "<<-+>>[[Other]]") ]) = true.
Proof.
  apply (index_entries_own_their_relationships Examples.vault).
  by vm_compute.
Defined.

Section QueryFacts.

Import RelationshipIndex.

Lemma filter_source_all (k : string) (rels : list Relationship) :
  (forall r, r ∈ rels -> sourceFile r = k) ->
  filter (fun r => sourceFile r = k) rels = rels.
Proof.
  induction rels as [|r rels IH]; intros Hall; [done|].
  rewrite filter_cons, decide_True by (apply Hall, elem_of_cons; by left).
  f_equal. apply IH. intros r' Hr'. apply Hall, elem_of_cons. by right.
Qed.

Lemma filter_source_none (k : string) (rels : list Relationship) :
  (forall r, r ∈ rels -> sourceFile r <> k) ->
  filter (fun r => sourceFile r = k) rels = [].
Proof.
  induction rels as [|r rels IH]; intros Hall; [done|].
  rewrite filter_cons, decide_False by (apply Hall, elem_of_cons; by left).
  apply IH. intros r' Hr'. apply Hall, elem_of_cons. by right.
Qed.

Lemma get_is_filter (st : state) (key : string) :
  JSMap.wf st -> IndexSpec.owned st = true ->
  default [] (JSMap.get st key)
  = filter (fun r => sourceFile r = key) (getAllRelationships st).
Proof.
  rewrite owned_spec. unfold getAllRelationships, JSMap.values, JSMap.wf, JSMap.keys.
  induction st as [|[k rels] st IH]; intros Hwf Hown; [done|].
  rewrite !fmap_cons in *. simpl in Hwf. apply NoDup_cons in Hwf as [Hk Hwf].
  cbn [mjoin list_join snd]. rewrite filter_app.
  assert (Hrels : forall r, r ∈ rels -> sourceFile r = k)
    by (intros r Hr; eapply Hown; [apply list_elem_of_here | done]).
  assert (Hown' : forall k' rels' r, (k', rels') ∈ st -> r ∈ rels' -> sourceFile r = k').
  { intros k' rels' r Hin Hr. eapply Hown; [|done]. by apply list_elem_of_further. }
  simpl. destruct (String.eqb_spec k key) as [->|Hne].
  - rewrite filter_source_all by done.
    rewrite filter_source_none; [by rewrite app_nil_r|].
    intros r (rels' & Hr & Hin)%list_elem_of_join.
    apply list_elem_of_fmap in Hin as ([k' rels''] & -> & Hin).
    rewrite (Hown' _ _ _ Hin Hr). intros ->. apply Hk.
    apply list_elem_of_fmap. by exists (key, rels'').
  - rewrite filter_source_none by (intros r Hr; by rewrite (Hrels r Hr)).
    by apply IH.
Qed.

End QueryFacts.

(** X10. In an index whose entries own their relationships,
    [getRelationshipsForFile] returns exactly the relationships of
    [getAllRelationships] whose source is the file, in the same order; a
    file that is not indexed gets the empty list. *)
Theorem getRelationshipsForFile_is_filter (st : RelationshipIndex.state)
    (filename : string) :
  JSMap.wf st -> IndexSpec.owned st = true ->
  RelationshipIndex.getRelationshipsForFile st filename
  = filter (fun r => sourceFile r = RelationshipIndex.stripExtension filename)
      (RelationshipIndex.getAllRelationships st).
Proof. intros Hwf Hown. by apply get_is_filter. Qed.

Lemma getRelationshipsForFile_is_filter_witness :
  RelationshipIndex.getRelationshipsForFile Examples.vault "Awal.md"
  = filter (fun r => sourceFile r = RelationshipIndex.stripExtension "Awal.md")
      (RelationshipIndex.getAllRelationships Examples.vault).
Proof.
  apply (getRelationshipsForFile_is_filter Examples.vault "Awal.md").
  - apply (bool_decide_unpack _). by vm_compute.
  - by vm_compute.
Defined.

Lemma renameFile_forgets_old_name (st : RelationshipIndex.state)
    (oldName newName : string) :
  RelationshipIndex.stripExtension oldName
  <> RelationshipIndex.stripExtension newName ->
  IndexSpec.owned st = true ->
  let oldKey := RelationshipIndex.stripExtension oldName in
  let st' := RelationshipIndex.renameFile st oldName newName in
  (oldKey ∉ JSMap.keys st')
  /\ (forall r, r ∈ RelationshipIndex.getAllRelationships st' ->
        sourceFile r <> oldKey /\ targetFile r <> oldKey)
  /\ (oldKey ∉ RelationshipIndex.getAllNodes st').
Proof.
  intros Hne Hown oldKey st'.
  assert (Hkey : forall rels, (oldKey, rels) ∉ st').
  { intros rels (rels0 & _ & Hfrom)%renameFile_entries.
    destruct Hfrom as [[Hin [?|Hnone]]|[? _]]; [done | | done].
    apply get_None_not_key in Hnone. apply Hnone.
    apply list_elem_of_fmap. by exists (oldKey, rels0). }
  assert (Hrels : forall r, r ∈ RelationshipIndex.getAllRelationships st' ->
            sourceFile r <> oldKey /\ targetFile r <> oldKey).
  { intros r (k & rels & Hin & Hr)%getAllRelationships_elem. split.
    - pose proof (owned_renameFile st oldName newName Hown) as Hown'.
      rewrite owned_spec in Hown'. rewrite (Hown' _ _ _ Hin Hr).
      intros ->. by apply (Hkey rels).
    - apply renameFile_entries in Hin as (rels0 & -> & _).
      apply list_elem_of_fmap in Hr as (r0 & -> & _).
      by apply retarget_target. }
  split_and!; [|done|].
  - intros ([k rels] & Hk & Hin)%list_elem_of_fmap. simpl in Hk. subst k.
    by apply (Hkey rels).
  - intros (r & Hr & Hx)%getAllNodes_elem.
    destruct (Hrels r Hr) as [Hs Ht]. by destruct Hx as [Hx|Hx].
Qed.

(** X11. After a rename to a different name nothing in the index refers to
    the old name any more, provided the entries owned their relationships
    before: the old name is no key, no relationship has it as source or as
    target, and it is no node of the graph. *)
Theorem renameFile_leaves_no_trace (st : RelationshipIndex.state)
    (oldName newName : string) :
  RelationshipIndex.stripExtension oldName
  <> RelationshipIndex.stripExtension newName ->
  IndexSpec.owned st = true ->
  let oldKey := RelationshipIndex.stripExtension oldName in
  let st' := RelationshipIndex.renameFile st oldName newName in
  (oldKey ∉ JSMap.keys st')
  /\ (forall r, r ∈ RelationshipIndex.getAllRelationships st' ->
        sourceFile r <> oldKey /\ targetFile r <> oldKey)
  /\ (oldKey ∉ RelationshipIndex.getAllNodes st').
Proof. apply renameFile_forgets_old_name. Qed.

Lemma renameFile_leaves_no_trace_witness :
  let st' := RelationshipIndex.renameFile Examples.vault "OldName.md" "NewName.md" in
  ("OldName" ∉ JSMap.keys st')
  /\ (forall r, r ∈ RelationshipIndex.getAllRelationships st' ->
        sourceFile r <> "OldName" /\ targetFile r <> "OldName")
  /\ ("OldName" ∉ RelationshipIndex.getAllNodes st').
Proof.
  apply (renameFile_leaves_no_trace Examples.vault "OldName.md" "NewName.md").
  - by vm_compute.
  - by vm_compute.
Defined.

Section ResourceFacts.

Import JS Regex RelationshipIndex.

Variable re : regex.
Variable parseDescriptor : string -> option (Direction * option string).

Lemma emitted_moveSource (old new : string) (lines : list string) (k : nat)
    (m : RegExpMatch) :
  Spec.noDollar new = true ->
  moveSource old new <$> ParseSpec.emitted parseDescriptor old lines k m
  = ParseSpec.emitted parseDescriptor new lines k m.
Proof.
  intros Hd. unfold ParseSpec.emitted.
  destruct (String.eqb (trim (group2 m)) ""); [done|].
  destruct (parseDescriptor (group1 m)) as [[dir lbl]|]; [|done].
  simpl. unfold moveSource. simpl. by rewrite replace_generateId.
Qed.

(** Moving the relationships of a text to another source gives what
    parsing the text for that source gives. *)
Lemma parseRelationships_moveSource (content old new : string) :
  Spec.noDollar new = true ->
  moveSource old new <$> ParseLoop.parseRelationships re parseDescriptor content old
  = ParseLoop.parseRelationships re parseDescriptor content new.
Proof.
  intros Hd. rewrite !parseRelationships_numbered, list_fmap_omap.
  apply list_omap_ext, Forall2_same_length_lookup. split; [done|].
  intros i km km' Hi Hi'. simplify_eq. by apply emitted_moveSource.
Qed.

End ResourceFacts.

(** X12. Renaming a note that has just been indexed leaves under the new
    name what indexing its text under the new name gives, with the
    references of the note to its own old name following the rename;
    this for a new name without a dollar sign. *)
Theorem rename_after_reindex (st : RelationshipIndex.state)
    (oldName newName content : string) :
  let oldKey := RelationshipIndex.stripExtension oldName in
  let newKey := RelationshipIndex.stripExtension newName in
  Spec.noDollar newKey = true ->
  RelationshipIndex.getRelationshipsForFile
    (RelationshipIndex.renameFile
       (RelationshipIndex.reindexFile Parser.parseRelationships st oldName content)
       oldName newName)
    newName
  = RelationshipIndex.retarget oldKey newKey
    <$> Parser.parseRelationships content newKey.
Proof.
  intros oldKey newKey Hd.
  unfold RelationshipIndex.getRelationshipsForFile, RelationshipIndex.renameFile,
    RelationshipIndex.reindexFile.
  cbv zeta. fold oldKey newKey.
  rewrite get_retargetEntry, get_set_eq, get_set_eq. simpl.
  unfold Parser.parseRelationships. by rewrite parseRelationships_moveSource.
Qed.

Lemma rename_after_reindex_witness :
  RelationshipIndex.getRelationshipsForFile
    (RelationshipIndex.renameFile
       (RelationshipIndex.reindexFile Parser.parseRelationships Examples.vault
          "OldName.md" "<<+-owes>>[[OldName]] <<-+>>[[Awal]]")
       "OldName.md" "NewName.md")
    "NewName.md"
  = RelationshipIndex.retarget "OldName" "NewName"
    <$> Parser.parseRelationships "<<+-owes>>[[OldName]] <<-+>>[[Awal]]" "NewName".
Proof.
  apply (rename_after_reindex Examples.vault "OldName.md" "NewName.md"
           "<<+-owes>>[[OldName]] <<-+>>[[Awal]]").
  by vm_compute.
Defined.

Section FullScanFacts.

Import RelationshipIndex.

Variable parse : string -> string -> list Relationship.

Lemma fullScan_get_from (st : state) (vault : list (string * string))
    (key : string) :
  JSMap.get
    (foldl (fun st '(basename, content) => reindexFile parse st basename content)
       st vault) key
  = match IndexSpec.lastDocument vault key with
    | Some content => Some (parse content key)
    | None => JSMap.get st key
    end.
Proof.
  revert st. induction vault as [|[b c] vault IH]; intros st; [done|].
  cbn [foldl]. rewrite IH. unfold IndexSpec.lastDocument.
  rewrite filter_cons. simpl.
  destruct (decide (stripExtension b = key)) as [<-|Hne].
  - rewrite last_cons.
    destruct (last (filter _ vault)) as [[b' c']|]; simpl; [done|].
    unfold reindexFile. by rewrite get_set_eq.
  - destruct (last (filter _ vault)) as [[b' c']|]; simpl; [done|].
    unfold reindexFile. by rewrite get_set_ne.
Qed.

Lemma fullScan_wf_from (st : state) (vault : list (string * string)) :
  JSMap.wf st ->
  JSMap.wf
    (foldl (fun st '(basename, content) => reindexFile parse st basename content)
       st vault).
Proof.
  revert st. induction vault as [|[b c] vault IH]; intros st Hwf; [done|].
  cbn [foldl]. by apply IH, wf_set.
Qed.

End FullScanFacts.

(** X13. After [fullScan] the index holds, for each key, the relationships
    of one document: the last document of the vault whose basename gives
    that key, parsed under that key.  Documents that share a basename
    therefore shadow one another, and a key no document gives has no entry.
    No key is held twice. *)
Theorem fullScan_last_document_wins
    (parse : string -> string -> list Relationship)
    (vault : list (string * string)) (key : string) :
  JSMap.wf (RelationshipIndex.fullScan parse vault)
  /\ JSMap.get (RelationshipIndex.fullScan parse vault) key
     = (fun content => parse content key) <$> IndexSpec.lastDocument vault key.
Proof.
  split.
  - apply fullScan_wf_from. constructor.
  - unfold RelationshipIndex.fullScan. rewrite fullScan_get_from.
    by destruct (IndexSpec.lastDocument vault key).
Qed.

Section NodeSetFacts.

Import RelationshipIndex.

Lemma nodes_fold_NoDup (rs : list Relationship) (acc : JSSet.t) :
  NoDup acc ->
  NoDup (foldl (fun nodes r =>
                  JSSet.add (JSSet.add nodes (sourceFile r)) (targetFile r))
           acc rs).
Proof.
  revert acc. induction rs as [|r rs IH]; intros acc Hacc; [done|].
  simpl. by apply IH, JSSet_add_NoDup, JSSet_add_NoDup.
Qed.

End NodeSetFacts.

(** X14. [getAllNodes] lists each node once, and its nodes are exactly the
    sources and the targets of the relationships of the index. *)
Theorem getAllNodes_are_the_endpoints (st : RelationshipIndex.state) :
  NoDup (RelationshipIndex.getAllNodes st)
  /\ forall x,
       x ∈ RelationshipIndex.getAllNodes st
       <-> exists r, r ∈ RelationshipIndex.getAllRelationships st
                     /\ (x = sourceFile r \/ x = targetFile r).
Proof.
  split.
  - apply nodes_fold_NoDup. constructor.
  - intros x. apply getAllNodes_elem.
Qed.

(** ** The graph after an update *)

Section GraphFacts.

Import GraphRenderer.

Context {num : Type} `{JSNumber num}.

Implicit Types (n : GraphNode num) (ns : list (GraphNode num)).

Lemma names_fold_elem (l : list string) (s : JSSet.t) (x : string) :
  x ∈ foldl JSSet.add s l <-> x ∈ s \/ x ∈ l.
Proof.
  revert s. induction l as [|a l IH]; intros s; cbn [foldl].
  - rewrite elem_of_nil. tauto.
  - rewrite IH, JSSet_add_elem, elem_of_cons. tauto.
Qed.

Lemma buildNodeSet_elem (nodeNames : list string) (filtered : list Relationship)
    (x : string) :
  x ∈ buildNodeSet nodeNames filtered
  <-> x ∈ nodeNames
      \/ exists r, r ∈ filtered /\ (x = sourceFile r \/ x = targetFile r).
Proof.
  unfold buildNodeSet. rewrite nodes_fold_elem, names_fold_elem, elem_of_nil.
  tauto.
Qed.

Lemma JSSet_add_present (s : JSSet.t) (x : string) : x ∈ s -> JSSet.add s x = s.
Proof. intros Hx. unfold JSSet.add, JSSet.has. by rewrite bool_decide_true. Qed.

Lemma JSSet_add_fresh (s : JSSet.t) (x : string) : x ∉ s -> JSSet.add s x = s ++ [x].
Proof. intros Hx. unfold JSSet.add, JSSet.has. by rewrite bool_decide_false. Qed.

Lemma names_fold_fresh (l : list string) (s : JSSet.t) :
  NoDup (s ++ l) -> foldl JSSet.add s l = s ++ l.
Proof.
  revert s. induction l as [|a l IH]; intros s Hnd; cbn [foldl].
  - by rewrite app_nil_r.
  - assert (a ∉ s) as Ha.
    { apply NoDup_app in Hnd as (_ & Hdis & _). intros Hs.
      apply (Hdis a Hs), list_elem_of_here. }
    rewrite JSSet_add_fresh by done.
    rewrite IH; rewrite <- app_assoc; done.
Qed.

Lemma nodes_fold_present (rs : list Relationship) (s : JSSet.t) :
  (forall r, r ∈ rs -> sourceFile r ∈ s /\ targetFile r ∈ s) ->
  foldl (fun s r => JSSet.add (JSSet.add s (sourceFile r)) (targetFile r)) s rs
  = s.
Proof.
  induction rs as [|r rs IH]; intros Hin; cbn [foldl]; [done|].
  destruct (Hin r) as [Hs Ht]; [apply list_elem_of_here|].
  rewrite (JSSet_add_present s (sourceFile r)) by done.
  rewrite (JSSet_add_present s (targetFile r)) by done.
  apply IH. intros r' Hr'. apply Hin. by apply list_elem_of_further.
Qed.

(** A node set that already holds the end points is its own node set. *)
Lemma buildNodeSet_fixed (s : list string) (filtered : list Relationship) :
  NoDup s ->
  (forall r, r ∈ filtered -> sourceFile r ∈ s /\ targetFile r ∈ s) ->
  buildNodeSet s filtered = s.
Proof.
  intros Hnd Hin. unfold buildNodeSet.
  rewrite (names_fold_fresh s []) by done. by apply nodes_fold_present.
Qed.

Lemma buildLinks_relationships (rs : list Relationship)
    (edgeCounts : gmap string nat) :
  relationship <$> buildLinks edgeCounts rs = rs.
Proof.
  revert edgeCounts. induction rs as [|r rs IH]; intros edgeCounts; [done|].
  cbn [buildLinks]. rewrite fmap_cons. simpl. by rewrite IH.
Qed.

Lemma buildLinks_ends (rs : list Relationship) (edgeCounts : gmap string nat)
    (l : GraphLink) :
  l ∈ buildLinks edgeCounts rs ->
  source l = sourceFile (relationship l)
  /\ target l = targetFile (relationship l)
  /\ relationship l ∈ rs.
Proof.
  revert edgeCounts. induction rs as [|r rs IH]; intros edgeCounts.
  - by intros ?%elem_of_nil.
  - cbn [buildLinks]. intros [->|Hl]%elem_of_cons.
    + simpl. split_and!; [done | done | apply list_elem_of_here].
    + destruct (IH _ Hl) as (? & ? & ?).
      split_and!; [done | done | by apply list_elem_of_further].
Qed.

Lemma filterByLabel_subset (f : string) (rs : list Relationship) (r : Relationship) :
  r ∈ filterByLabel f rs -> r ∈ rs.
Proof.
  unfold filterByLabel. destruct (negb _); [|done].
  rewrite !list_elem_of_In, filter_In. tauto.
Qed.

Lemma filter_filter_same {A : Type} (p : A -> bool) (l : list A) :
  List.filter p (List.filter p l) = List.filter p l.
Proof.
  induction l as [|a l IH]; [done|]. simpl.
  destruct (p a) eqn:Hp; [|done]. simpl. by rewrite Hp, IH.
Qed.

Lemma filterByLabel_idempotent (f : string) (rs : list Relationship) :
  filterByLabel f (filterByLabel f rs) = filterByLabel f rs.
Proof.
  unfold filterByLabel. destruct (negb _); [|done]. apply filter_filter_same.
Qed.

Lemma update_ids (st : state num) (random : nat -> num)
    (nodeNames : list string) (relationships : list Relationship) :
  GraphRenderer.id <$> nodes (update st random nodeNames relationships)
  = buildNodeSet nodeNames (filterByLabel (labelFilter st) relationships).
Proof. unfold update, buildNodes. simpl. by rewrite makeNode_fold_ids. Qed.

Lemma makeNode_fold_shape (st : state num) (random : nat -> num)
    (m : gmap string (GraphNode num)) (names : list string)
    (out : list (GraphNode num)) (c : nat) :
  Forall (fun n' =>
            isGhost n'
            = negb (bool_decide (GraphRenderer.id n' ∈ existingFiles st))
            /\ is_Some (x n') /\ is_Some (y n')) out ->
  Forall (fun n' =>
            isGhost n'
            = negb (bool_decide (GraphRenderer.id n' ∈ existingFiles st))
            /\ is_Some (x n') /\ is_Some (y n'))
    (fst (foldl (makeNode st random m) (out, c) names)).
Proof.
  revert out c. induction names as [|name names IH]; intros out c Hout; [done|].
  cbn [foldl]. unfold makeNode at 2.
  destruct (orSeed random (m !! name ≫= x) (width st) c) as [x' c1].
  destruct (orSeed random (m !! name ≫= y) (height st) c1) as [y' c2].
  apply IH. apply Forall_app. split; [done|].
  constructor; [|constructor]. simpl. by split_and!.
Qed.

End GraphFacts.

Section RebuildFacts.

Import GraphRenderer.

Context {num : Type} `{JSNumber num}.

Implicit Types (n : GraphNode num) (ns : list (GraphNode num)).

Lemma makeNode_fold_fixed (st : state num) (random : nat -> num)
    (m : gmap string (GraphNode num)) (names : list string) ns
    (out : list (GraphNode num)) (c : nat) :
  Forall2 (fun name n =>
             m !! name = Some n /\ GraphRenderer.id n = name
             /\ isGhost n = negb (bool_decide (name ∈ existingFiles st))
             /\ is_Some (x n) /\ is_Some (y n)) names ns ->
  foldl (makeNode st random m) (out, c) names = (out ++ ns, c).
Proof.
  intros Hall. revert out c.
  induction Hall as [|name n names ns (Hm & Hid & Hg & [vx0 Hx] & [vy0 Hy]) _ IH];
    intros out c; cbn [foldl].
  - by rewrite app_nil_r.
  - unfold makeNode at 2. rewrite Hm. simpl. rewrite Hx, Hy. simpl.
    rewrite IH, <- app_assoc. simpl. do 3 f_equal.
    destruct n; simpl in *. by subst.
Qed.

(** Rebuilding the nodes from their own names gives the same nodes, and
    takes no value of [Math.random]. *)
Lemma rebuild_nodes (st : state num) (random : nat -> num) :
  NoDup (GraphRenderer.id <$> nodes st) ->
  Forall (fun n =>
            isGhost n
            = negb (bool_decide (GraphRenderer.id n ∈ existingFiles st))
            /\ is_Some (x n) /\ is_Some (y n)) (nodes st) ->
  foldl (makeNode st random (buildOldNodeMap (nodes st))) ([], 0)
    (GraphRenderer.id <$> nodes st)
  = (nodes st, 0).
Proof.
  intros Hnd Hshape. apply (makeNode_fold_fixed _ _ _ _ (nodes st) [] 0).
  apply Forall2_fmap_l, Forall_Forall2_diag.
  rewrite Forall_forall in Hshape. apply Forall_forall. intros n Hn.
  destruct (Hshape n Hn) as (Hg & Hx & Hy).
  split_and!; try done. by apply oldNodeMap_present.
Qed.

Lemma update_nodes_NoDup (st : state num) (random : nat -> num)
    (nodeNames : list string) (relationships : list Relationship) :
  NoDup (GraphRenderer.id <$> nodes (update st random nodeNames relationships)).
Proof. rewrite update_ids. apply buildNodeSet_NoDup. Qed.

Lemma update_nodes_shape (st : state num) (random : nat -> num)
    (nodeNames : list string) (relationships : list Relationship) :
  Forall (fun n =>
            isGhost n
            = negb (bool_decide (GraphRenderer.id n ∈ existingFiles st))
            /\ is_Some (x n) /\ is_Some (y n))
    (nodes (update st random nodeNames relationships)).
Proof. unfold update, buildNodes. simpl. by apply makeNode_fold_shape. Qed.

(** An update with the names of the nodes and relationships that pass
    the filter, on a state that has just been updated, changes nothing. *)
Lemma update_settled (st : state num) (random0 random : nat -> num)
    (nodeNames names' : list string) (relationships rels' : list Relationship) :
  let st1 := update st random0 nodeNames relationships in
  filterByLabel (labelFilter st) rels' = relationship <$> links st1 ->
  buildNodeSet names' (relationship <$> links st1)
  = GraphRenderer.id <$> nodes st1 ->
  update st1 random names' rels' = st1.
Proof.
  intros st1 Hrels Hnames.
  pose proof (rebuild_nodes st1 random
                (update_nodes_NoDup st random0 nodeNames relationships)
                (update_nodes_shape st random0 nodeNames relationships))
    as Hnodes.
  unfold update at 1. unfold buildNodes.
  change (labelFilter st1) with (labelFilter st).
  rewrite Hrels, Hnames, Hnodes.
  unfold st1 at 1 2 3 4 5. unfold update. simpl.
  by rewrite buildLinks_relationships.
Qed.

End RebuildFacts.

Section KeepFacts.

Import GraphRenderer.

Context {num : Type} `{JSNumber num}.

Implicit Types (n : GraphNode num) (ns : list (GraphNode num)).

Lemma update_keeps_node (st : state num) (random : nat -> num)
    (nodeNames : list string) (relationships : list Relationship) n n' :
  NoDup (GraphRenderer.id <$> nodes st) ->
  n ∈ nodes st ->
  n' ∈ nodes (update st random nodeNames relationships) ->
  GraphRenderer.id n = GraphRenderer.id n' ->
  vx n' = vx n /\ vy n' = vy n
  /\ (is_Some (x n) -> x n' = x n) /\ (is_Some (y n) -> y n' = y n).
Proof.
  intros Hnd Hn Hn' Hid. unfold update, buildNodes in Hn'. simpl in Hn'.
  apply makeNode_fold_elem in Hn' as [Hn'|(o & c0 & c1 & Hmk & _)];
    [by apply elem_of_nil in Hn'|].
  destruct (makeNode_spec st random (buildOldNodeMap (nodes st)) o c0
              (GraphRenderer.id n')) as (n1 & c1' & Hmk' & _ & _ & Hcase).
  rewrite Hmk in Hmk'. injection Hmk' as Hn1%app_inv_head _.
  injection Hn1 as <-.
  by rewrite <- Hid, (oldNodeMap_present _ n Hnd Hn) in Hcase.
Qed.

End KeepFacts.

(** X15. The graph [update] builds is closed: there is one link for each
    relationship that passes the label filter, in the same order, with the
    end points of that relationship; both end points of every link are
    nodes; the nodes are the names passed in together with the end points,
    each once; and a node is a ghost exactly when its name is not an
    existing file. *)
Theorem update_graph_is_closed {num : Type} `{JSNumber num}
    (st : GraphRenderer.state num) (random : nat -> num)
    (nodeNames : list string) (relationships : list Relationship) :
  let st' := GraphRenderer.update st random nodeNames relationships in
  let filtered :=
    GraphRenderer.filterByLabel (GraphRenderer.labelFilter st) relationships in
  GraphRenderer.relationship <$> GraphRenderer.links st' = filtered
  /\ (forall l, l ∈ GraphRenderer.links st' ->
        GraphRenderer.source l = sourceFile (GraphRenderer.relationship l)
        /\ GraphRenderer.target l = targetFile (GraphRenderer.relationship l)
        /\ GraphRenderer.source l ∈ GraphRenderer.id <$> GraphRenderer.nodes st'
        /\ GraphRenderer.target l ∈ GraphRenderer.id <$> GraphRenderer.nodes st')
  /\ NoDup (GraphRenderer.id <$> GraphRenderer.nodes st')
  /\ (forall name,
        name ∈ GraphRenderer.id <$> GraphRenderer.nodes st'
        <-> name ∈ nodeNames
            \/ exists r, r ∈ filtered /\ (name = sourceFile r \/ name = targetFile r))
  /\ Forall (fun n =>
               GraphRenderer.isGhost n = true
               <-> GraphRenderer.id n ∉ GraphRenderer.existingFiles st)
       (GraphRenderer.nodes st').
Proof.
  intros st' filtered.
  assert (Hids : forall name,
    name ∈ GraphRenderer.id <$> GraphRenderer.nodes st'
    <-> name ∈ nodeNames
        \/ exists r, r ∈ filtered /\ (name = sourceFile r \/ name = targetFile r)).
  { intros name. unfold st'. rewrite update_ids. apply buildNodeSet_elem. }
  split_and!.
  - apply buildLinks_relationships.
  - intros l Hl. apply buildLinks_ends in Hl as (Hs & Ht & Hr).
    split_and!; [done | done | |]; apply Hids; right;
      exists (GraphRenderer.relationship l); auto.
  - apply update_nodes_NoDup.
  - exact Hids.
  - eapply Forall_impl; [apply update_nodes_shape|].
    intros n (Hg & _). simpl in Hg. rewrite Hg.
    rewrite negb_true_iff, bool_decide_eq_false. done.
Qed.

(** X16. A second [update] with the same names and relationships, right
    after the first, changes nothing: every node keeps its position and
    velocity and no value of [Math.random] is used.  The same holds for
    [updateSettings] with an unchanged label filter, which rebuilds the
    graph from the nodes and links it finds. *)
Theorem update_twice_changes_nothing {num : Type} `{JSNumber num}
    (st : GraphRenderer.state num) (random0 random : nat -> num)
    (nodeNames : list string) (relationships : list Relationship) :
  let st1 := GraphRenderer.update st random0 nodeNames relationships in
  GraphRenderer.update st1 random nodeNames relationships = st1
  /\ Rerender.updateSettings st1 random (GraphRenderer.labelFilter st1) = st1.
Proof.
  intros st1.
  assert (Hlinks : GraphRenderer.relationship <$> GraphRenderer.links st1
                   = GraphRenderer.filterByLabel (GraphRenderer.labelFilter st)
                       relationships) by apply buildLinks_relationships.
  assert (Hids : GraphRenderer.id <$> GraphRenderer.nodes st1
                 = GraphRenderer.buildNodeSet nodeNames
                     (GraphRenderer.filterByLabel (GraphRenderer.labelFilter st)
                        relationships)) by apply update_ids.
  split.
  - apply (update_settled st random0 random nodeNames nodeNames
             relationships relationships).
    + fold st1. by rewrite Hlinks.
    + fold st1. by rewrite Hlinks, Hids.
  - unfold Rerender.updateSettings.
    change (Rerender.withLabelFilter st1 (GraphRenderer.labelFilter st1)) with st1.
    apply (update_settled st random0 random nodeNames
             (GraphRenderer.id <$> GraphRenderer.nodes st1) relationships
             (GraphRenderer.relationship <$> GraphRenderer.links st1)).
    + fold st1. rewrite Hlinks. apply filterByLabel_idempotent.
    + fold st1. apply buildNodeSet_fixed; [apply update_nodes_NoDup|].
      intros r Hr. rewrite Hlinks in Hr. rewrite Hids.
      split; apply buildNodeSet_elem; right; exists r; auto.
Qed.

(** X17. [refreshGraphView] shows the whole index: after it the nodes are
    the nodes of the index, in that order (the label filter hides links,
    never nodes); there is one link for each relationship that passes the
    new label filter; ghosts are told by the new set of files; and a node
    that was on display before keeps its velocity and, where it had one,
    its position, through both rebuilds. *)
Theorem refreshGraphView_shows_index {num : Type} `{JSNumber num}
    (st : GraphRenderer.state num) (random1 random2 : nat -> num)
    (labelFilter' : string) (files : gset string)
    (index : RelationshipIndex.state) :
  NoDup (GraphRenderer.id <$> GraphRenderer.nodes st) ->
  let st' :=
    Rerender.refreshGraphView st random1 random2 labelFilter' files index in
  GraphRenderer.id <$> GraphRenderer.nodes st'
  = RelationshipIndex.getAllNodes index
  /\ GraphRenderer.relationship <$> GraphRenderer.links st'
     = GraphRenderer.filterByLabel labelFilter'
         (RelationshipIndex.getAllRelationships index)
  /\ Forall (fun n =>
               GraphRenderer.isGhost n = true <-> GraphRenderer.id n ∉ files)
       (GraphRenderer.nodes st')
  /\ (forall n n',
        n ∈ GraphRenderer.nodes st -> n' ∈ GraphRenderer.nodes st' ->
        GraphRenderer.id n = GraphRenderer.id n' ->
        GraphRenderer.vx n' = GraphRenderer.vx n
        /\ GraphRenderer.vy n' = GraphRenderer.vy n
        /\ (is_Some (GraphRenderer.x n) ->
            GraphRenderer.x n' = GraphRenderer.x n)
        /\ (is_Some (GraphRenderer.y n) ->
            GraphRenderer.y n' = GraphRenderer.y n)).
Proof.
  intros Hnd st'. unfold Rerender.refreshGraphView, Rerender.refresh in st'.
  set (st0 := Rerender.withLabelFilter st labelFilter') in *.
  set (mid := Rerender.updateSettings st random1 labelFilter') in *.
  set (st2 := Rerender.updateExistingFiles mid files) in *.
  split_and!.
  - unfold st'. rewrite update_ids.
    apply buildNodeSet_fixed; [apply nodes_fold_NoDup; constructor|].
    intros r Hr%filterByLabel_subset.
    split; apply getAllNodes_elem; exists r; auto.
  - apply buildLinks_relationships.
  - eapply Forall_impl; [apply update_nodes_shape|].
    intros n (Hg & _). simpl in Hg. rewrite Hg.
    by rewrite negb_true_iff, bool_decide_eq_false.
  - intros n n' Hn Hn' Hid.
    destruct (update_node_of_name st0 random1
                (GraphRenderer.id <$> GraphRenderer.nodes st0)
                (GraphRenderer.relationship <$> GraphRenderer.links st0)
                (GraphRenderer.id n)) as (n1 & Hn1 & Hid1 & _).
    { apply list_elem_of_fmap. by exists n. }
    fold (Rerender.updateSettings st random1 labelFilter') in Hn1. fold mid in Hn1.
    destruct (update_keeps_node st0 random1 _ _ n n1 Hnd Hn Hn1 (eq_sym Hid1))
      as (Hvx & Hvy & Hx & Hy).
    assert (Hshape : is_Some (GraphRenderer.x n1) /\ is_Some (GraphRenderer.y n1)).
    { pose proof (update_nodes_shape st0 random1
                    (GraphRenderer.id <$> GraphRenderer.nodes st0)
                    (GraphRenderer.relationship <$> GraphRenderer.links st0))
        as Hall.
      rewrite Forall_forall in Hall. by destruct (Hall n1 Hn1) as (_ & ? & ?). }
    destruct Hshape as [Hx1 Hy1].
    assert (Hnd2 : NoDup (GraphRenderer.id <$> GraphRenderer.nodes st2))
      by apply update_nodes_NoDup.
    destruct (update_keeps_node st2 random2 _ _ n1 n' Hnd2 Hn1 Hn')
      as (Hvx' & Hvy' & Hx' & Hy'); [congruence|].
    split_and!; [congruence | congruence | |].
    + intros Hs. rewrite Hx' by done. by apply Hx.
    + intros Hs. rewrite Hy' by done. by apply Hy.
Qed.

Lemma refreshGraphView_shows_index_witness :
  let st' :=
    Rerender.refreshGraphView Examples.layout Examples.random Examples.random
      "uses" {[ "Awal"; "Other" ]} Examples.vault in
  GraphRenderer.id <$> GraphRenderer.nodes st'
  = RelationshipIndex.getAllNodes Examples.vault
  /\ GraphRenderer.relationship <$> GraphRenderer.links st'
     = GraphRenderer.filterByLabel "uses"
         (RelationshipIndex.getAllRelationships Examples.vault)
  /\ Forall (fun n =>
               GraphRenderer.isGhost n = true
               <-> GraphRenderer.id n ∉ ({[ "Awal"; "Other" ]} : gset string))
       (GraphRenderer.nodes st')
  /\ (forall n n',
        n ∈ GraphRenderer.nodes Examples.layout -> n' ∈ GraphRenderer.nodes st' ->
        GraphRenderer.id n = GraphRenderer.id n' ->
        GraphRenderer.vx n' = GraphRenderer.vx n
        /\ GraphRenderer.vy n' = GraphRenderer.vy n
        /\ (is_Some (GraphRenderer.x n) ->
            GraphRenderer.x n' = GraphRenderer.x n)
        /\ (is_Some (GraphRenderer.y n) ->
            GraphRenderer.y n' = GraphRenderer.y n)).
Proof.
  apply (refreshGraphView_shows_index Examples.layout Examples.random
           Examples.random "uses" {[ "Awal"; "Other" ]} Examples.vault).
  apply (bool_decide_unpack _). by vm_compute.
Defined.

(** ** Edge styling *)

(** X18. The markers an edge refers to exist and have its colour: the six
    markers [createMarkers] defines have distinct ids; whenever
    [getMarkerEnd] or [getMarkerStart] gives a reference, it is the
    reference of one of these markers, and that marker is filled with the
    colour [getEdgeColor] gives the edge.  With arrows switched on, an edge
    has an end marker exactly when it is outgoing or bidirectional and a
    start marker exactly when it is incoming or bidirectional; with arrows
    switched off it has neither. *)
Theorem edge_markers_are_defined (s : GraphStyle.settings) (r : Relationship) :
  NoDup (GraphStyle.marker_id <$> GraphStyle.createMarkers s)
  /\ (forall ref,
        ref = GraphStyle.getMarkerEnd s r \/ ref = GraphStyle.getMarkerStart s r ->
        ref <> "" ->
        exists m,
          m ∈ GraphStyle.createMarkers s
          /\ ref = "url(#" +:+ GraphStyle.marker_id m +:+ ")"
          /\ GraphStyle.fill m = GraphStyle.getEdgeColor s r)
  /\ (GraphStyle.getMarkerEnd s r <> ""
      <-> GraphStyle.showArrows s = true
          /\ (direction r = outgoing \/ direction r = bidirectional))
  /\ (GraphStyle.getMarkerStart s r <> ""
      <-> GraphStyle.showArrows s = true
          /\ (direction r = incoming \/ direction r = bidirectional)).
Proof.
  split_and!.
  - apply (bool_decide_unpack _). by vm_compute.
  - unfold GraphStyle.getMarkerEnd, GraphStyle.getMarkerStart,
      GraphStyle.getEdgeColor.
    intros ref Href Hne.
    destruct (GraphStyle.showArrows s), (direction r); simpl in Href;
      destruct Href as [->| ->]; try done;
      unfold GraphStyle.createMarkers;
      cbn [mjoin fmap list_fmap list_join app];
      let pick skip :=
        (eexists; split;
         [ skip; apply list_elem_of_here | split; reflexivity ]) in
      first [ pick ltac:(idtac)
            | pick ltac:(do 1 apply list_elem_of_further)
            | pick ltac:(do 2 apply list_elem_of_further)
            | pick ltac:(do 3 apply list_elem_of_further)
            | pick ltac:(do 4 apply list_elem_of_further)
            | pick ltac:(do 5 apply list_elem_of_further) ].
  - unfold GraphStyle.getMarkerEnd.
    destruct (GraphStyle.showArrows s), (direction r); simpl;
      (split;
       [ intros Hne;
         first [ by destruct Hne
               | split; [done | first [by left | by right]] ]
       | intros [Hs [Hd|Hd]]; done ]).
  - unfold GraphStyle.getMarkerStart.
    destruct (GraphStyle.showArrows s), (direction r); simpl;
      (split;
       [ intros Hne;
         first [ by destruct Hne
               | split; [done | first [by left | by right]] ]
       | intros [Hs [Hd|Hd]]; done ]).
Qed.

(** ** The plugin *)

Section PluginFacts.

Import JS.

Lemma stripExtension_md (name : string) :
  RelationshipIndex.stripExtension (name +:+ ".md") = name.
Proof.
  unfold RelationshipIndex.stripExtension.
  replace (endsWith (name +:+ ".md") ".md") with true
    by (symmetry; apply endsWith_iff; by exists name).
  rewrite string_app_length. simpl.
  replace (String.length name + 3 - 3) with (String.length name) by lia.
  apply substring_app_l.
Qed.

Lemma splitOn_without (sep : ascii) (s : string) :
  MatchSpec.holds sep s = false -> JSMore.splitOn sep s = [s].
Proof.
  induction s as [|c s IH]; simpl; [done|].
  intros [Hc Hs]%orb_false_elim. rewrite Hc. by rewrite IH.
Qed.

Lemma splitOn_app (sep : ascii) (a b : string) :
  exists p pre,
    JSMore.splitOn sep (a +:+ String sep b) = (p :: pre) ++ JSMore.splitOn sep b.
Proof.
  induction a as [|c a (p & pre & IH)].
  - exists "", []. rewrite string_app_nil_l. simpl. by rewrite Ascii.eqb_refl.
  - rewrite string_app_cons. simpl. rewrite IH.
    destruct (Ascii.eqb c sep); [by exists "", (p :: pre)|].
    by exists (String c p), pre.
Qed.

Lemma pop_splitOn (sep : ascii) (a name : string) :
  MatchSpec.holds sep name = false ->
  JSMore.pop (JSMore.splitOn sep (a +:+ String sep name)) = Some name.
Proof.
  intros Hname. destruct (splitOn_app sep a name) as (p & pre & ->).
  unfold JSMore.pop. rewrite last_app, splitOn_without by done. done.
Qed.

End PluginFacts.

Lemma oldBasename_of_path (dir name : string) :
  MatchSpec.holds "/" name = false ->
  Plugin.oldBasename (name +:+ ".md") = name
  /\ Plugin.oldBasename (dir +:+ "/" +:+ name +:+ ".md") = name.
Proof.
  intros Hname. unfold Plugin.oldBasename. split.
  - by rewrite stripExtension_md, splitOn_without.
  - replace (dir +:+ "/" +:+ name +:+ ".md")
      with ((dir +:+ "/" +:+ name) +:+ ".md") by (by rewrite !string_app_assoc).
    rewrite stripExtension_md.
    change (dir +:+ "/" +:+ name) with (dir +:+ String "/" name).
    by rewrite pop_splitOn.
Qed.

(** X19. The rename handler recovers the old basename from the old path:
    for a name without a slash, the path [name.md] and every path
    [dir/name.md] give [name], whatever the directory part holds. *)
Theorem oldBasename_recovers_basename (dir name : string) :
  MatchSpec.holds "/" name = false ->
  Plugin.oldBasename (name +:+ ".md") = name
  /\ Plugin.oldBasename (dir +:+ "/" +:+ name +:+ ".md") = name.
Proof. apply oldBasename_of_path. Qed.

Lemma oldBasename_recovers_basename_witness :
  Plugin.oldBasename ("Old Name" +:+ ".md") = "Old Name"
  /\ Plugin.oldBasename ("notes/2024.md/drafts" +:+ "/" +:+ "Old Name" +:+ ".md")
     = "Old Name".
Proof.
  apply (oldBasename_recovers_basename "notes/2024.md/drafts" "Old Name").
  by vm_compute.
Defined.

Section AutocompleteFacts.

Import JS.

Lemma clampIndex_nat (len n : nat) :
  clampIndex len (Z.of_nat n) = Nat.min n len.
Proof.
  unfold clampIndex.
  replace (Z.of_nat n <? 0)%Z with false by (symmetry; apply Z.ltb_ge; lia).
  by rewrite Nat2Z.id.
Qed.

Lemma slice_before (before after : string) :
  slice (before +:+ after) 0 (Z.of_nat (String.length before)) = before.
Proof.
  unfold slice. rewrite clampIndex_nat. change 0%Z with (Z.of_nat 0).
  rewrite clampIndex_nat, string_app_length. simpl.
  replace (String.length before `min` (String.length before + String.length after) - 0)
    with (String.length before) by lia.
  apply substring_app_l.
Qed.

Lemma sliceFrom_after (before after : string) :
  sliceFrom (before +:+ after) (Z.of_nat (String.length before)) = after.
Proof.
  unfold sliceFrom, slice. rewrite !clampIndex_nat, string_app_length.
  replace (String.length before `min` (String.length before + String.length after))
    with (String.length before) by lia.
  replace ((String.length before + String.length after)
             `min` (String.length before + String.length after)
           - String.length before)
    with (String.length after) by lia.
  apply substring_app_r.
Qed.

Lemma endsWith_app (s p : string) : endsWith (s +:+ p) p = true.
Proof. apply endsWith_iff. by exists s. Qed.

Lemma endsWith_bracket (p : string) :
  endsWith (p +:+ ">[[") "->[[" = endsWith p "-".
Proof.
  unfold endsWith. rewrite string_rev_app.
  change (String.rev ">[[") with "[[>". change (String.rev "->[[") with "[[>-".
  change (String.rev "-") with "-".
  rewrite !string_app_cons, string_app_nil_l. simpl.
  by destruct (String.rev p).
Qed.

Lemma slice_drop3 (p : string) : slice (p +:+ ">[[") 0 (-3) = p.
Proof.
  unfold slice. change 0%Z with (Z.of_nat 0). rewrite clampIndex_nat.
  unfold clampIndex. simpl. rewrite string_app_length. simpl.
  replace (Z.to_nat (Z.max (Z.of_nat (String.length p + 3) + -3) 0) - 0)
    with (String.length p) by lia.
  apply substring_app_l.
Qed.

(** The listener on a line that is [before] up to the cursor and [after]
    from it. *)
Lemma autocomplete_at (before after : string) :
  Plugin.autocomplete (before +:+ after) (String.length before)
  = if endsWith before ">[[" && negb (endsWith before "->[[")
    then
      let p := slice before 0 (-3) in
      (p +:+ "<-->[[" +:+ after, String.length (p +:+ "<-->[["))
    else (before +:+ after, String.length before).
Proof.
  unfold Plugin.autocomplete. rewrite slice_before.
  destruct (endsWith before ">[[") eqn:He; [|done].
  destruct (endsWith before "->[[") eqn:He'; [done|]. simpl.
  apply endsWith_iff in He as [p ->].
  rewrite sliceFrom_after, slice_drop3.
  replace (String.length (p +:+ ">[[") - 3) with (String.length p)
    by (rewrite string_app_length; simpl; lia).
  rewrite string_app_assoc, slice_before.
  f_equal. rewrite string_app_length. done.
Qed.

End AutocompleteFacts.

(** X20. The autocompletion of the editor fires once.  On a line that reads
    [p>[[] up to the cursor, [p] not ending with a dash, the three
    characters before the cursor become [<-->[[] and the cursor stands
    right after them; the text after the cursor is kept.  On any other
    line nothing changes.  In both cases the listener, called again on the
    result (the replacement is itself an editor change), changes
    nothing. *)
Theorem autocomplete_expands_once (before after : string) :
  let result := Plugin.autocomplete (before +:+ after) (String.length before) in
  (forall p, before = p +:+ ">[[" -> JS.endsWith p "-" = false ->
     result = (p +:+ "<-->[[" +:+ after, String.length (p +:+ "<-->[[")))
  /\ (JS.endsWith before ">[[" = false \/ JS.endsWith before "->[[" = true ->
      result = (before +:+ after, String.length before))
  /\ Plugin.autocomplete result.1 result.2 = result.
Proof.
  intros result. unfold result. rewrite autocomplete_at. split_and!.
  - intros p Hb Hp. subst before.
    by rewrite endsWith_app, endsWith_bracket, Hp, slice_drop3.
  - intros [Hc|Hc]; rewrite Hc; [done|]. by rewrite andb_false_r.
  - destruct (JS.endsWith before ">[[" && negb (JS.endsWith before "->[["))
      eqn:Hc; cbv zeta; cbn [fst snd].
    + rewrite <- string_app_assoc, autocomplete_at.
      replace (JS.endsWith (JS.slice before 0 (-3) +:+ "<-->[[") "->[[") with true.
      * by rewrite andb_false_r.
      * symmetry. apply endsWith_iff. exists (JS.slice before 0 (-3) +:+ "<-").
        by rewrite string_app_assoc.
    + by rewrite autocomplete_at, Hc.
Qed.

Lemma autocomplete_expands_once_witness :
  Plugin.autocomplete ("see >[[" +:+ "]] more") (String.length "see >[[")
  = ("see " +:+ "<-->[[" +:+ "]] more", String.length ("see " +:+ "<-->[[")).
Proof.
  apply (autocomplete_expands_once "see >[[" "]] more"); by vm_compute.
Defined.

(** ** The debounced re-index *)

Section DebounceFacts.

Lemma onModify_fold_index (st : Plugin.state) (files : list Plugin.TFile) :
  Plugin.index (foldl Plugin.onModify st files) = Plugin.index st
  /\ Plugin.existingFiles (foldl Plugin.onModify st files)
     = Plugin.existingFiles st.
Proof.
  revert st. induction files as [|f files IH]; intros st; [done|].
  cbn [foldl]. destruct (IH (Plugin.onModify st f)) as [-> ->].
  unfold Plugin.onModify. by destruct (Plugin.isMarkdown f).
Qed.

End DebounceFacts.

(** X21. The debounce keeps one timer for all files: when markdown files
    are modified one after the other before the timer runs out, the
    callback re-parses the last one only.  The entries of the files
    modified before it are left as they were, and the set of existing
    files is not touched. *)
Theorem debounce_reindexes_last_file_only
    (parse : string -> string -> list Relationship)
    (st : Plugin.state) (earlier : list Plugin.TFile) (file : Plugin.TFile)
    (content : Plugin.TFile -> string) :
  Plugin.isMarkdown file = true ->
  let st' :=
    Plugin.onTimer parse (foldl Plugin.onModify st (earlier ++ [file])) content in
  Plugin.index st'
  = RelationshipIndex.reindexFile parse (Plugin.index st)
      (Plugin.basename file) (content file)
  /\ Plugin.existingFiles st' = Plugin.existingFiles st
  /\ Plugin.debounceTimer st' = None.
Proof.
  intros Hmd st'. unfold st'. rewrite foldl_app. cbn [foldl].
  destruct (onModify_fold_index st earlier) as [Hi He].
  assert (Hm : Plugin.onModify (foldl Plugin.onModify st earlier) file
               = Plugin.debouncedReindex (foldl Plugin.onModify st earlier) file)
    by (unfold Plugin.onModify; by rewrite Hmd).
  rewrite Hm. unfold Plugin.onTimer, Plugin.debouncedReindex. simpl.
  by rewrite Hi, He.
Qed.

Lemma debounce_reindexes_last_file_only_witness :
  let st' :=
    Plugin.onTimer Parser.parseRelationships
      (foldl Plugin.onModify Samples.plugin ([Samples.noteA] ++ [Samples.noteB]))
      Samples.cachedRead in
  Plugin.index st'
  = RelationshipIndex.reindexFile Parser.parseRelationships
      (Plugin.index Samples.plugin) (Plugin.basename Samples.noteB)
      (Samples.cachedRead Samples.noteB)
  /\ Plugin.existingFiles st' = Plugin.existingFiles Samples.plugin
  /\ Plugin.debounceTimer st' = None.
Proof.
  apply (debounce_reindexes_last_file_only Parser.parseRelationships
           Samples.plugin [Samples.noteA] Samples.noteB Samples.cachedRead).
  by vm_compute.
Defined.

(** ** Vault events *)



Section EventFacts.

Import RelationshipIndex.

Lemma keys_retargetEntry (st : state) (old new : string) :
  JSMap.keys (retargetEntry old new <$> st) = JSMap.keys st.
Proof.
  unfold JSMap.keys. rewrite <- list_fmap_compose.
  apply list_fmap_ext. by intros _ [k rels] _.
Qed.

Lemma wf_renameFile (st : state) (oldName newName : string) :
  JSMap.wf st -> JSMap.wf (renameFile st oldName newName).
Proof.
  intros Hwf. unfold renameFile, JSMap.wf. rewrite keys_retargetEntry.
  destruct (JSMap.get st (stripExtension oldName)); [|done].
  by apply wf_set, wf_delete.
Qed.

Lemma handle_keeps_index_sound (st : Plugin.state) (e : Plugin.event) :
  IndexSpec.owned (Plugin.index st) = true /\ JSMap.wf (Plugin.index st) ->
  IndexSpec.owned
    (Plugin.index (Plugin.handle Parser.parseRelationships st e)) = true
  /\ JSMap.wf (Plugin.index (Plugin.handle Parser.parseRelationships st e)).
Proof.
  intros [Hown Hwf]. destruct e as [file|file|file oldPath|file|content]; simpl.
  - unfold Plugin.onModify. by destruct (Plugin.isMarkdown file).
  - unfold Plugin.onDelete. destruct (Plugin.isMarkdown file); [|done]. simpl.
    split; [by apply owned_removeFile | by apply wf_delete].
  - unfold Plugin.onRename. destruct (Plugin.isMarkdown file); [|done]. simpl.
    split; [by apply owned_renameFile | by apply wf_renameFile].
  - unfold Plugin.onCreate. by destruct (Plugin.isMarkdown file).
  - unfold Plugin.onTimer. destruct (Plugin.debounceTimer st); [|done]. simpl.
    split; [|by apply wf_set].
    by apply owned_reindexFile; [apply parseRelationships_source|].
Qed.

Lemma run_keeps_index_sound (st : Plugin.state) (events : list Plugin.event) :
  IndexSpec.owned (Plugin.index st) = true /\ JSMap.wf (Plugin.index st) ->
  IndexSpec.owned
    (Plugin.index (foldl (Plugin.handle Parser.parseRelationships) st events))
  = true
  /\ JSMap.wf
       (Plugin.index (foldl (Plugin.handle Parser.parseRelationships) st events)).
Proof.
  revert st. induction events as [|e events IH]; intros st Hst; [done|].
  cbn [foldl]. by apply IH, handle_keeps_index_sound.
Qed.

Lemma performFullScan_sound (vault : list (Plugin.TFile * string)) :
  IndexSpec.owned
    (Plugin.index (Plugin.performFullScan Parser.parseRelationships vault)) = true
  /\ JSMap.wf
       (Plugin.index (Plugin.performFullScan Parser.parseRelationships vault)).
Proof.
  split.
  - by apply owned_fullScan_from; [apply parseRelationships_source|].
  - apply fullScan_wf_from. constructor.
Qed.

End EventFacts.

(** X23. In every state the plugin reaches, from the full scan of any
    vault through any sequence of vault events and timer callbacks, each
    entry of the index owns its relationships and no key is held twice;
    so at any time [getRelationshipsForFile] gives exactly the
    relationships of the index that have the file as their source. *)
Theorem plugin_index_stays_sound (vault : list (Plugin.TFile * string))
    (events : list Plugin.event) (filename : string) :
  let st :=
    foldl (Plugin.handle Parser.parseRelationships)
      (Plugin.performFullScan Parser.parseRelationships vault) events in
  IndexSpec.owned (Plugin.index st) = true
  /\ JSMap.wf (Plugin.index st)
  /\ RelationshipIndex.getRelationshipsForFile (Plugin.index st) filename
     = filter (fun r => sourceFile r = RelationshipIndex.stripExtension filename)
         (RelationshipIndex.getAllRelationships (Plugin.index st)).
Proof.
  intros st.
  destruct (run_keeps_index_sound _ events (performFullScan_sound vault))
    as [Hown Hwf].
  split_and!; [done | done |]. by apply get_is_filter.
Qed.

(** ** Documents of well-formed declarations *)

Section DocumentFacts.

Import JS Regex Parser MatchSpec.

#[local] Abbreviation chars := list_ascii_of_string.

(** A well-formed declaration is matched where it stands, whatever
    follows it. *)
Lemma matchHere_declaration_at (d lead core trail more : string) (pos : nat) :
  Decl.all notGt d = true ->
  allWs (chars lead) -> allWs (chars trail) ->
  core <> "" ->
  Decl.all (fun c => dot c && negb (Ascii.eqb c "]")) core = true ->
  headNonWs (chars core) -> headNonWs (rev (chars core)) ->
  matchHere RELATIONSHIP_REGEX []
    ("<<" +:+ d +:+ ">>" +:+ "[[" +:+ lead +:+ core +:+ trail +:+ "]]" +:+ more)
    pos
  = Some (pos + 2 + String.length d + 2 + 2 + String.length lead
          + String.length core + String.length trail + 2,
          [ pos + 2; pos + 2 + String.length d;
            pos + 2 + String.length d + 2 + 2 + String.length lead;
            pos + 2 + String.length d + 2 + 2 + String.length lead
            + String.length core ]).
Proof.
  intros Hd Hlead Htrail Hcore Hplain Hhead Hlast.
  unfold RELATIONSHIP_REGEX.
  rewrite matchHere_Lit, matchHere_Mark, matchHere_StarLazy.
  rewrite starLazy_skip.
  2: { by apply all_Forall. }
  2: { intros a1 a2 -> Ha2. destruct a2 as [|c a2]; [done |].
       apply all_Forall in Hd. rewrite chars_app in Hd.
       apply Forall_app in Hd as [_ Hd]. inversion Hd as [|?? Hc _]; subst.
       rewrite string_app_cons, matchHere_Mark.
       apply matchHere_Lit_mismatch. unfold notGt in Hc.
       by apply negb_true_iff in Hc. }
  apply starLazy_here.
  rewrite matchHere_Mark, !matchHere_Lit, matchHere_StarGreedy.
  apply starGreedy_run; [done | |].
  { destruct core as [|c core]; [done |]. by rewrite string_app_cons. }
  rewrite matchHere_Mark, matchHere_StarLazy.
  apply all_Forall in Hplain.
  rewrite starLazy_skip.
  2: { eapply Forall_impl; [exact Hplain |]. simpl. by intros c [??]%andb_prop. }
  2: { intros a1 a2 Hsplit Ha2.
       rewrite matchHere_Mark, matchHere_StarGreedy. apply close_fails.
       - rewrite Hsplit, chars_app in Hplain.
         apply Forall_app in Hplain as [_ Hplain].
         eapply Forall_impl; [exact Hplain |]. simpl.
         intros c [_ Hc]%andb_prop. by apply negb_true_iff in Hc.
       - rewrite Hsplit in Hlast. by apply (suffix_last_nonws a1 a2). }
  apply starLazy_here.
  rewrite matchHere_Mark, matchHere_StarGreedy.
  apply starGreedy_run; [done | done |].
  rewrite matchHere_Lit.
  cbn [matchHere].
  reflexivity.
Qed.

Lemma skipChars_app (a b : string) : skipChars (String.length a) (a +:+ b) = b.
Proof. induction a as [|c a IH]; [by destruct b|]. by rewrite string_app_cons. Qed.

(** The scan steps over a text without an opening angle bracket. *)
Lemma scan_gap (content gap s : string) (pos : nat) :
  holds "<" gap = false ->
  scan RELATIONSHIP_REGEX content (gap +:+ s) pos 0
  = scan RELATIONSHIP_REGEX content s (pos + String.length gap) 0.
Proof.
  revert pos. induction gap as [|c gap IH]; intros pos Hgap.
  - by rewrite string_app_nil_l, Nat.add_0_r.
  - simpl in Hgap. apply orb_false_elim in Hgap as [Hc Hgap].
    rewrite string_app_cons. cbn [scan].
    unfold RELATIONSHIP_REGEX at 1. rewrite matchHere_Lit_mismatch by done.
    rewrite IH by done. f_equal. simpl. lia.
Qed.

(** The scan reports a well-formed declaration where it stands and goes on
    after it. *)
Lemma scan_declaration (before d t more : string) :
  Decl.descriptorText d = true ->
  Decl.targetText t = true ->
  scan RELATIONSHIP_REGEX (before +:+ Decl.declaration d t +:+ more)
    (Decl.declaration d t +:+ more) (String.length before) 0
  = {| index := String.length before;
       lastIndex := String.length (before +:+ Decl.declaration d t);
       group1 := d;
       group2 := trim t |}
    :: scan RELATIONSHIP_REGEX (before +:+ Decl.declaration d t +:+ more) more
         (String.length (before +:+ Decl.declaration d t)) 0.
Proof.
  intros Hd [Hne Hplain]%andb_prop.
  apply negb_true_iff, String.eqb_neq in Hne.
  destruct (trim_decompose t)
    as (lead & trail & Ht & Hlead & Htrail & Hhead & Hlast).
  set (core := trim t) in *.
  assert (Hdecl : forall x,
    Decl.declaration d t +:+ x
    = "<<" +:+ d +:+ ">>" +:+ "[[" +:+ lead +:+ core +:+ trail +:+ "]]" +:+ x).
  { intros x. unfold Decl.declaration. rewrite Ht at 1.
    by rewrite !string_app_assoc. }
  assert (Hlen : String.length (Decl.declaration d t)
                 = 2 + String.length d + 2 + 2 + String.length lead
                   + String.length core + String.length trail + 2).
  { rewrite <- (string_app_nil_r (Decl.declaration d t)), Hdecl.
    rewrite !string_app_length. simpl. lia. }
  pose proof (matchHere_declaration_at d lead core trail more
                (String.length before) Hd Hlead Htrail Hne Hplain Hhead Hlast)
    as Hm.
  rewrite <- Hdecl in Hm.
  set (content := before +:+ Decl.declaration d t +:+ more) in *.
  set (decl' := "<" +:+ d +:+ ">>[[" +:+ t +:+ "]]").
  assert (Hcons : Decl.declaration d t +:+ more = String "<" (decl' +:+ more))
    by reflexivity.
  assert (Hlen' : String.length decl'
                  = 1 + String.length d + 2 + 2 + String.length lead
                    + String.length core + String.length trail + 2).
  { change (String.length (Decl.declaration d t)) with (S (String.length decl'))
      in Hlen. lia. }
  rewrite Hcons in Hm |- *.
  rewrite (scan_match _ _ _ _ _ _ Hm). cbn [fst].
  rewrite scan_skip by (rewrite string_app_length; lia).
  replace (String.length before + 2 + String.length d + 2 + 2
           + String.length lead + String.length core + String.length trail + 2
           - String.length before - 1)
    with (String.length decl') by lia.
  rewrite skipChars_app.
  replace (S (String.length before) + String.length decl')
    with (String.length (before +:+ Decl.declaration d t))
    by (rewrite string_app_length, Hlen; lia).
  f_equal. unfold mkGroups.
  cbn [lookup_total list_lookup_total].
  f_equal.
  - rewrite string_app_length, Hlen. lia.
  - eapply (between_at _ (before +:+ "<<") d).
    + unfold content. rewrite Hdecl. by rewrite !string_app_assoc.
    + rewrite string_app_length. simpl. lia.
    + lia.
  - eapply (between_at _ (before +:+ "<<" +:+ d +:+ ">>" +:+ "[[" +:+ lead) core).
    + unfold content. rewrite Hdecl. by rewrite !string_app_assoc.
    + rewrite !string_app_length. simpl. lia.
    + lia.
Qed.


Lemma numbered_cons (k : nat) (m : RegExpMatch) (ms : list RegExpMatch) :
  ParseSpec.numbered k (m :: ms) = (k, m) :: ParseSpec.numbered (S k) ms.
Proof. reflexivity. Qed.

Lemma omap_cons {A B : Type} (f : A -> option B) (x : A) (l : list A) :
  omap f (x :: l)
  = match f x with Some y => y :: omap f l | None => omap f l end.
Proof. reflexivity. Qed.

Lemma scan_document (sourceId before gap : string) (items : list Document.item)
    (k : nat) :
  holds "<" gap = false ->
  forallb Document.wellFormed items = true ->
  omap (fun km =>
          ParseSpec.emitted parseDescriptor sourceId
            (splitLines (before +:+ Document.text gap items)) km.1 km.2)
    (ParseSpec.numbered k
       (scan RELATIONSHIP_REGEX (before +:+ Document.text gap items)
          (Document.text gap items) (String.length before) 0))
  = Document.relationships sourceId before k gap items.
Proof.
  revert before gap k. induction items as [|it items IH]; intros before gap k Hgap Hwf.
  - cbn [Document.text Document.relationships].
    rewrite <- (string_app_nil_r gap) at 2. by rewrite scan_gap.
  - cbn [forallb] in Hwf. apply andb_prop in Hwf as [Hit Hwf].
    unfold Document.wellFormed in Hit.
    apply andb_prop in Hit as [[Hd Ht]%andb_prop Hafter%negb_true_iff].
    cbn [Document.text Document.relationships]. cbv zeta.
    set (d := Document.descriptor it) in *. set (t := Document.target it) in *.
    set (more := Document.text (Document.after it) items).
    rewrite scan_gap by done.
    replace (before +:+ gap +:+ Decl.declaration d t +:+ more)
      with ((before +:+ gap) +:+ Decl.declaration d t +:+ more)
      by (by rewrite !string_app_assoc).
    rewrite <- string_app_length, scan_declaration by done.
    pose proof (IH ((before +:+ gap) +:+ Decl.declaration d t)
                  (Document.after it) (S k) Hafter Hwf) as Htail.
    fold more in Htail.
    replace (((before +:+ gap) +:+ Decl.declaration d t) +:+ more)
      with ((before +:+ gap) +:+ Decl.declaration d t +:+ more) in Htail
      by (by rewrite !string_app_assoc).
    rewrite numbered_cons, omap_cons, Htail.
    unfold ParseSpec.emitted. cbn [fst snd index group1 group2].
    rewrite trim_idempotent, lineNumberOf_prefix.
    apply andb_prop in Ht as [Hne _]. apply negb_true_iff in Hne. rewrite Hne.
    by destruct (parseDescriptor d) as [[dir lbl]|].
Qed.

End DocumentFacts.

(** X24. On a document made of well-formed declarations, with any text
    that holds no opening angle bracket before, between and after them,
    [parseRelationships] returns exactly one relationship for each
    declaration whose descriptor [parseDescriptor] accepts, in order; each
    has the direction and label of its descriptor, its target trimmed, the
    line its declaration starts on, and in its id the rank of the
    declaration among all declarations of the document, refused ones
    counted. *)
Theorem parseRelationships_complete (gap : string)
    (items : list Document.item) (sourceId : string) :
  MatchSpec.holds "<" gap = false ->
  forallb Document.wellFormed items = true ->
  Parser.parseRelationships (Document.text gap items) sourceId
  = Document.relationships sourceId "" 0 gap items.
Proof.
  intros Hgap Hwf. unfold Parser.parseRelationships.
  rewrite parseRelationships_numbered.
  rewrite (execAll_scan _ RELATIONSHIP_REGEX_neverEmpty).
  by apply (scan_document sourceId "" gap items 0).
Qed.

Lemma parseRelationships_complete_witness :
  Parser.parseRelationships (Document.text "See " Samples.items) "Awal"
  = Document.relationships "Awal" "" 0 "See " Samples.items.
Proof.
  apply (parseRelationships_complete "See " Samples.items "Awal"); by vm_compute.
Defined.

(** ** Documents of single-delimiter declarations *)

Section SingleDocumentFacts.

Import JS Regex MatchSpec.

#[local] Abbreviation chars := list_ascii_of_string.

Lemma matchHere_Class (p : ascii -> bool) (r : regex) (marks : list nat)
    (c : ascii) (s : string) (pos : nat) :
  p c = true ->
  matchHere (Class p :: r) marks (String c s) pos = matchHere r marks s (S pos).
Proof. intros Hp. cbn [matchHere]. by rewrite Hp. Qed.

Lemma matchHere_Class_refused (p : ascii -> bool) (r : regex)
    (marks : list nat) (c : ascii) (s : string) (pos : nat) :
  p c = false -> matchHere (Class p :: r) marks (String c s) pos = None.
Proof. intros Hp. cbn [matchHere]. by rewrite Hp. Qed.

Lemma plusOrDash_notGt (c : ascii) :
  SingleDelimiter.plusOrDash c = true -> Ascii.eqb c ">" = false.
Proof. by intros [->| ->]%plusOrDash_cases. Qed.

Lemma plusOrDash_nonWs (c : ascii) :
  SingleDelimiter.plusOrDash c = true -> isWhiteSpace c = false.
Proof. by intros [->| ->]%plusOrDash_cases. Qed.

(** A well-formed single-delimiter declaration is matched where it
    stands, whatever follows it. *)
Lemma matchHere_single_at (a : ascii) (mid : string) (b : ascii)
    (ws0 lead core trail more : string) (pos : nat) :
  SingleDelimiter.plusOrDash a = true ->
  SingleDelimiter.plusOrDash b = true ->
  Decl.all Parser.notGt mid = true ->
  allWs (chars ws0) -> allWs (chars lead) -> allWs (chars trail) ->
  core <> "" ->
  Decl.all (fun c => Parser.dot c && negb (Ascii.eqb c "]")) core = true ->
  headNonWs (chars core) -> headNonWs (rev (chars core)) ->
  matchHere SingleDelimiter.RELATIONSHIP_REGEX []
    ("<" +:+ String a (mid +:+ String b (">" +:+ ws0 +:+ "[[" +:+ lead +:+ core
                                           +:+ trail +:+ "]]" +:+ more)))
    pos
  = Some (S (S (pos + 1) + String.length mid) + 1 + String.length ws0 + 2
          + String.length lead + String.length core + String.length trail + 2,
          [ pos + 1; S (S (pos + 1) + String.length mid);
            S (S (pos + 1) + String.length mid) + 1 + String.length ws0 + 2
            + String.length lead;
            S (S (pos + 1) + String.length mid) + 1 + String.length ws0 + 2
            + String.length lead + String.length core ]).
Proof.
  intros Ha Hb Hmid Hws0 Hlead Htrail Hcore Hplain Hhead Hlast.
  unfold SingleDelimiter.RELATIONSHIP_REGEX.
  rewrite matchHere_Lit, matchHere_Mark, matchHere_Class by done.
  rewrite matchHere_StarLazy, starLazy_skip.
  2: { by apply all_Forall. }
  2: { intros a1 a2 -> Ha2. destruct a2 as [|c a2]; [done |].
       apply all_Forall in Hmid. rewrite chars_app in Hmid.
       apply Forall_app in Hmid as [_ Hmid].
       inversion Hmid as [|?? Hc Hmid']; subst.
       rewrite string_app_cons.
       destruct (SingleDelimiter.plusOrDash c) eqn:Hpc;
         [|by apply matchHere_Class_refused].
       rewrite matchHere_Class, matchHere_Mark by done.
       destruct a2 as [|c' a2].
       - rewrite string_app_nil_l. apply matchHere_Lit_mismatch.
         by apply plusOrDash_notGt.
       - rewrite string_app_cons. apply matchHere_Lit_mismatch.
         inversion Hmid' as [|?? Hc' _]; subst. unfold Parser.notGt in Hc'.
         by apply negb_true_iff in Hc'. }
  apply starLazy_here.
  rewrite matchHere_Class, matchHere_Mark, matchHere_Lit by done.
  rewrite matchHere_StarGreedy.
  apply starGreedy_run; [done | done |].
  rewrite matchHere_Lit, matchHere_StarGreedy.
  apply starGreedy_run; [done | |].
  { destruct core as [|c core]; [done |]. by rewrite string_app_cons. }
  rewrite matchHere_Mark, matchHere_StarLazy.
  apply all_Forall in Hplain.
  rewrite starLazy_skip.
  2: { eapply Forall_impl; [exact Hplain |]. simpl. by intros c [??]%andb_prop. }
  2: { intros a1 a2 Hsplit Ha2.
       rewrite matchHere_Mark, matchHere_StarGreedy. apply close_fails.
       - rewrite Hsplit, chars_app in Hplain.
         apply Forall_app in Hplain as [_ Hplain].
         eapply Forall_impl; [exact Hplain |]. simpl.
         intros c [_ Hc]%andb_prop. by apply negb_true_iff in Hc.
       - rewrite Hsplit in Hlast. by apply (suffix_last_nonws a1 a2). }
  apply starLazy_here.
  rewrite matchHere_Mark, matchHere_StarGreedy.
  apply starGreedy_run; [done | done |].
  rewrite matchHere_Lit.
  cbn [matchHere].
  reflexivity.
Qed.

Lemma scan_single_gap (content gap s : string) (pos : nat) :
  holds "<" gap = false ->
  scan SingleDelimiter.RELATIONSHIP_REGEX content (gap +:+ s) pos 0
  = scan SingleDelimiter.RELATIONSHIP_REGEX content s (pos + String.length gap) 0.
Proof.
  revert pos. induction gap as [|c gap IH]; intros pos Hgap.
  - by rewrite string_app_nil_l, Nat.add_0_r.
  - simpl in Hgap. apply orb_false_elim in Hgap as [Hc Hgap].
    rewrite string_app_cons. cbn [scan].
    unfold SingleDelimiter.RELATIONSHIP_REGEX at 1.
    rewrite matchHere_Lit_mismatch by done.
    rewrite IH by done. f_equal. simpl. lia.
Qed.

Lemma scan_single_declaration (before more : string) (it : SingleDocument.item) :
  SingleDelimiter.plusOrDash (SingleDocument.first it) = true ->
  SingleDelimiter.plusOrDash (SingleDocument.last it) = true ->
  Decl.all Parser.notGt (SingleDocument.middle it) = true ->
  Decl.all isWhiteSpace (SingleDocument.space it) = true ->
  Decl.targetText (SingleDocument.target it) = true ->
  scan SingleDelimiter.RELATIONSHIP_REGEX
    (before +:+ SingleDocument.declaration it +:+ more)
    (SingleDocument.declaration it +:+ more) (String.length before) 0
  = {| index := String.length before;
       lastIndex := String.length (before +:+ SingleDocument.declaration it);
       group1 := SingleDocument.descriptor it;
       group2 := trim (SingleDocument.target it) |}
    :: scan SingleDelimiter.RELATIONSHIP_REGEX
         (before +:+ SingleDocument.declaration it +:+ more) more
         (String.length (before +:+ SingleDocument.declaration it)) 0.
Proof.
  destruct it as [a mid b ws0 t gap]. cbn [SingleDocument.first
    SingleDocument.last SingleDocument.middle SingleDocument.space
    SingleDocument.target].
  intros Ha Hb Hmid Hws0 [Hne Hplain]%andb_prop.
  apply negb_true_iff, String.eqb_neq in Hne. apply all_Forall in Hws0.
  destruct (trim_decompose t)
    as (lead & trail & Ht & Hlead & Htrail & Hhead & Hlast).
  set (core := trim t) in *.
  set (it := SingleDocument.mkItem a mid b ws0 t gap).
  set (d := SingleDocument.descriptor it).
  assert (Hdecl : forall x,
    SingleDocument.declaration it +:+ x
    = "<" +:+ d +:+ ">" +:+ ws0 +:+ "[[" +:+ lead +:+ core +:+ trail +:+ "]]" +:+ x).
  { intros x. unfold SingleDocument.declaration. fold d.
    cbn [SingleDocument.space SingleDocument.target it]. rewrite Ht at 1.
    by rewrite !string_app_assoc. }
  assert (Hopen : forall x, d +:+ x = String a (mid +:+ String b x)).
  { intros x. unfold d, SingleDocument.descriptor. simpl.
    by rewrite string_app_cons, string_app_assoc, string_app_cons,
      string_app_nil_l. }
  assert (Hdlen : String.length d = S (String.length mid + 1)).
  { unfold d, SingleDocument.descriptor. simpl. by rewrite string_app_length. }
  assert (Hlen : String.length (SingleDocument.declaration it)
                 = 1 + String.length d + 1 + String.length ws0 + 2
                   + String.length lead + String.length core
                   + String.length trail + 2).
  { rewrite <- (string_app_nil_r (SingleDocument.declaration it)), Hdecl.
    rewrite !string_app_length. simpl. lia. }
  pose proof (matchHere_single_at a mid b ws0 lead core trail more
                (String.length before) Ha Hb Hmid Hws0 Hlead Htrail Hne Hplain
                Hhead Hlast) as Hm.
  rewrite <- Hopen, <- Hdecl in Hm.
  set (content := before +:+ SingleDocument.declaration it +:+ more) in *.
  set (decl' := d +:+ ">" +:+ ws0 +:+ "[[" +:+ t +:+ "]]").
  assert (Hcons : SingleDocument.declaration it +:+ more
                  = String "<" (decl' +:+ more)) by reflexivity.
  assert (Hlen' : S (String.length decl')
                  = String.length (SingleDocument.declaration it))
    by reflexivity.
  rewrite Hcons in Hm |- *.
  rewrite (scan_match _ _ _ _ _ _ Hm). cbn [fst].
  rewrite scan_skip by (rewrite string_app_length; lia).
  replace (S (S (String.length before + 1) + String.length mid) + 1
           + String.length ws0 + 2 + String.length lead + String.length core
           + String.length trail + 2 - String.length before - 1)
    with (String.length decl') by lia.
  rewrite skipChars_app.
  replace (S (String.length before) + String.length decl')
    with (String.length (before +:+ SingleDocument.declaration it))
    by (rewrite string_app_length; lia).
  f_equal. unfold mkGroups.
  cbn [lookup_total list_lookup_total].
  f_equal.
  - rewrite string_app_length. lia.
  - eapply (between_at _ (before +:+ "<") d).
    + unfold content. rewrite Hdecl. by rewrite !string_app_assoc.
    + rewrite string_app_length. simpl. lia.
    + lia.
  - eapply (between_at _ (before +:+ "<" +:+ d +:+ ">" +:+ ws0 +:+ "[[" +:+ lead)
              core).
    + unfold content. rewrite Hdecl. by rewrite !string_app_assoc.
    + rewrite !string_app_length, Hdlen. simpl. lia.
    + lia.
Qed.


Lemma scan_single_document (sourceId before gap : string)
    (items : list SingleDocument.item) (k : nat) :
  holds "<" gap = false ->
  forallb SingleDocument.wellFormed items = true ->
  omap (fun km =>
          ParseSpec.emitted SingleDelimiter.parseDescriptor sourceId
            (splitLines (before +:+ SingleDocument.text gap items)) km.1 km.2)
    (ParseSpec.numbered k
       (scan SingleDelimiter.RELATIONSHIP_REGEX
          (before +:+ SingleDocument.text gap items)
          (SingleDocument.text gap items) (String.length before) 0))
  = SingleDocument.relationships sourceId before k gap items.
Proof.
  revert before gap k.
  induction items as [|it items IH]; intros before gap k Hgap Hwf.
  - cbn [SingleDocument.text SingleDocument.relationships].
    rewrite <- (string_app_nil_r gap) at 2. by rewrite scan_single_gap.
  - cbn [forallb] in Hwf. apply andb_prop in Hwf as [Hit Hwf].
    unfold SingleDocument.wellFormed in Hit.
    apply andb_prop in Hit as [Hit Hafter%negb_true_iff].
    apply andb_prop in Hit as [Hit Ht].
    apply andb_prop in Hit as [Hit Hws0].
    apply andb_prop in Hit as [[Ha Hb]%andb_prop Hmid].
    cbn [SingleDocument.text SingleDocument.relationships]. cbv zeta.
    set (more := SingleDocument.text (SingleDocument.after it) items).
    rewrite scan_single_gap by done.
    replace (before +:+ gap +:+ SingleDocument.declaration it +:+ more)
      with ((before +:+ gap) +:+ SingleDocument.declaration it +:+ more)
      by (by rewrite !string_app_assoc).
    rewrite <- string_app_length, scan_single_declaration by done.
    pose proof (IH ((before +:+ gap) +:+ SingleDocument.declaration it)
                  (SingleDocument.after it) (S k) Hafter Hwf) as Htail.
    fold more in Htail.
    replace (((before +:+ gap) +:+ SingleDocument.declaration it) +:+ more)
      with ((before +:+ gap) +:+ SingleDocument.declaration it +:+ more)
      in Htail by (by rewrite !string_app_assoc).
    rewrite numbered_cons, omap_cons, Htail.
    unfold ParseSpec.emitted. cbn [fst snd index group1 group2].
    rewrite trim_idempotent, lineNumberOf_prefix.
    apply andb_prop in Ht as [Hne _]. apply negb_true_iff in Hne. rewrite Hne.
    unfold SingleDocument.descriptor.
    by rewrite single_parseDescriptor_ends.
Qed.

End SingleDocumentFacts.

(** X25. In the single-delimiter form no declaration is refused: on a
    document made of well-formed declarations [<aMIDb>], white space,
    [[[target]]], with any text that holds no opening angle bracket
    before, between and after them, [parseRelationships] returns exactly
    one relationship for each declaration, in order, with the direction of
    its two end characters, the label [MID] trimmed, the target trimmed,
    the line the declaration starts on and, in its id, the rank of the
    declaration. *)
Theorem single_delimiter_complete (gap : string)
    (items : list SingleDocument.item) (sourceId : string) :
  MatchSpec.holds "<" gap = false ->
  forallb SingleDocument.wellFormed items = true ->
  SingleDelimiter.parseRelationships (SingleDocument.text gap items) sourceId
  = SingleDocument.relationships sourceId "" 0 gap items.
Proof.
  intros Hgap Hwf. unfold SingleDelimiter.parseRelationships.
  rewrite parseRelationships_numbered.
  rewrite (execAll_scan _ single_delimiter_neverEmpty).
  by apply (scan_single_document sourceId "" gap items 0).
Qed.

Lemma single_delimiter_complete_witness :
  SingleDelimiter.parseRelationships
    (SingleDocument.text "See " Samples.singleItems) "Awal"
  = SingleDocument.relationships "Awal" "" 0 "See " Samples.singleItems.
Proof.
  apply (single_delimiter_complete "See " Samples.singleItems "Awal");
    by vm_compute.
Defined.
